(** * notion-public-export: a shallow embedding of the exporter and importer

    The two programs of the repository, [notion_public_export.py] (class
    [NotionPublicExporter]) and [notion_import.py] (class [NotionImporter]),
    are embedded as Rocq functions and the properties of the specification
    are stated and settled against them.

    Layout: the Python runtime pieces the code relies on (strings, [re]
    patterns), then one module per program with the embedded methods, then
    the lemmas and theorems. *)

From Stdlib Require Import NArith List String Ascii Lia Bool.
From stdpp Require Import base option list gmap sets sorting.

Set Default Proof Using "Type".
Local Open Scope N_scope.

(** ** Python strings

    A Python [str] is a sequence of Unicode code points; a code point is
    an [N].  String literals of the source that are pure ASCII are written
    [py "..."]; other code points are written as numbers. *)

Module Py.

Abbreviation char := N (only parsing).
Abbreviation str := (list N) (only parsing).

Definition py (s : string) : str := N_of_ascii <$> list_ascii_of_string s.

(** [str.isspace] for one code point; the same set is matched by [\s] in a
    [re] pattern over [str] and removed by [str.strip()]. *)
Definition is_space (c : char) : bool :=
  ((9 <=? c) && (c <=? 13)) || ((28 <=? c) && (c <=? 32))
  || (c =? 133) || (c =? 160) || (c =? 5760)
  || ((8192 <=? c) && (c <=? 8202))
  || (c =? 8232) || (c =? 8233) || (c =? 8239) || (c =? 8287) || (c =? 12288).

(** [[0-9]], [[0-9a-fA-F]] *)
Definition is_ascii_digit (c : char) : bool := (48 <=? c) && (c <=? 57).
Definition is_hex (c : char) : bool :=
  is_ascii_digit c || ((97 <=? c) && (c <=? 102)) || ((65 <=? c) && (c <=? 70)).

(** [str.lower()] on the ASCII range, where every use in the source applies
    it (to text matched by [[0-9a-fA-F-]]). *)
Definition lower_char (c : char) : char :=
  if (65 <=? c) && (c <=? 90) then c + 32 else c.
Definition lower (s : str) : str := lower_char <$> s.

Definition str_eqb (a b : str) : bool := bool_decide (a = b).

(** [s.startswith(p)]: on success the text after the prefix. *)
Fixpoint strip_prefix (p s : str) : option str :=
  match p, s with
  | [], _ => Some s
  | a :: p', b :: s' => if a =? b then strip_prefix p' s' else None
  | _ :: _, [] => None
  end.
Definition startswith (p s : str) : bool :=
  match strip_prefix p s with Some _ => true | None => false end.

(** [s.find(p)]: [None] for -1. *)
Fixpoint find (p s : str) : option nat :=
  if startswith p s then Some 0%nat
  else match s with
       | [] => None
       | _ :: s' => S <$> find p s'
       end.
(** [p in s] *)
Definition contains (p s : str) : bool :=
  match find p s with Some _ => true | None => false end.

(** [s.lstrip()], [s.rstrip()], [s.strip()] *)
Fixpoint lstrip (s : str) : str :=
  match s with
  | c :: s' => if is_space c then lstrip s' else s
  | [] => []
  end.
Definition rstrip (s : str) : str := reverse (lstrip (reverse s)).
Definition strip (s : str) : str := rstrip (lstrip s).

(** [s.strip(x)] for a one-character [x] *)
Fixpoint lstrip_char (x : char) (s : str) : str :=
  match s with
  | c :: s' => if c =? x then lstrip_char x s' else s
  | [] => []
  end.
Definition strip_char (x : char) (s : str) : str :=
  reverse (lstrip_char x (reverse (lstrip_char x s))).

(** [s.split(sep)] for a one-character separator. *)
Fixpoint split (sep : char) (s : str) : list str :=
  match s with
  | [] => [[]]
  | c :: s' =>
      if c =? sep then [] :: split sep s'
      else match split sep s' with
           | w :: ws => (c :: w) :: ws
           | [] => [[c]]
           end
  end.

(** [sep.join(parts)] *)
Fixpoint join (sep : str) (parts : list str) : str :=
  match parts with
  | [] => []
  | [p] => p
  | p :: ps => p ++ sep ++ join sep ps
  end.

(** The line feed and the double quote. *)
Definition nl : str := [10].
Definition dq : str := [34].

(** [s[a:b]] for [0 <= a <= b]; slices clamp to the string. *)
Definition slice (a b : nat) (s : str) : str := take (b - a) (drop a s).

(** *** [re]: the pieces of pattern matching the source uses

    [re.search(p, s)] tries [re.match] at every start position from the
    left, the end of the string included; a matcher receives the suffix
    that starts at the position tried. *)
Fixpoint re_search {A} (m : str -> option A) (s : str) : option A :=
  match m s with
  | Some r => Some r
  | None => match s with
            | [] => None
            | _ :: s' => re_search m s'
            end
  end.

(** [[0-9a-fA-F]{n}] at the start of [s]: the matched text and the rest. *)
Fixpoint eat_hex (n : nat) (s : str) : option (str * str) :=
  match n with
  | O => Some ([], s)
  | S n' =>
      match s with
      | c :: s' =>
          if is_hex c then
            match eat_hex n' s' with
            | Some (h, r) => Some (c :: h, r)
            | None => None
            end
          else None
      | [] => None
      end
  end.

(** [\s*], greedy: the text after the white space.  Every use in the source
    is followed by a character that is not white space, so giving characters
    back never helps the match. *)
Definition skip_ws (s : str) : str := lstrip s.

End Py.
Import Py.

(** The two regular expressions for identifiers, shared by both programs. *)

(** [([0-9a-fA-F]{32})] tried at the start of [s] *)
Definition match_hex32 (s : str) : option str := fst <$> eat_hex 32 s.

(** [([0-9a-fA-F]{32})$]: [$] holds at the end of the string and just
    before a final line feed. *)
Definition match_hex32_end (s : str) : option str :=
  match eat_hex 32 s with
  | Some (h, rest) => if str_eqb rest [] || str_eqb rest nl then Some h else None
  | None => None
  end.

(** [([0-9a-fA-F]{8}-[0-9a-fA-F]{4}-[0-9a-fA-F]{4}-[0-9a-fA-F]{4}-[0-9a-fA-F]{12})]
    tried at the start of [s]: the group and the rest. *)
Definition eat_uuid (s : str) : option (str * str) :=
  '(a, s1) ← eat_hex 8 s;
  s1 ← strip_prefix (py "-") s1;
  '(b, s2) ← eat_hex 4 s1;
  s2 ← strip_prefix (py "-") s2;
  '(c, s3) ← eat_hex 4 s2;
  s3 ← strip_prefix (py "-") s3;
  '(d, s4) ← eat_hex 4 s3;
  s4 ← strip_prefix (py "-") s4;
  '(e, s5) ← eat_hex 12 s4;
  Some (a ++ py "-" ++ b ++ py "-" ++ c ++ py "-" ++ d ++ py "-" ++ e, s5).
Definition match_uuid (s : str) : option str := fst <$> eat_uuid s.

(** ["pageId"\s*:\s*"(<uuid>)"] tried at the start of [s] *)
Definition match_page_id_json (s : str) : option str :=
  s ← strip_prefix ([34] ++ py "pageId" ++ [34]) s;
  s ← strip_prefix (py ":") (skip_ws s);
  s ← strip_prefix [34] (skip_ws s);
  '(u, s) ← eat_uuid s;
  _ ← strip_prefix [34] s;
  Some u.

(** [f"{raw[0:8]}-{raw[8:12]}-{raw[12:16]}-{raw[16:20]}-{raw[20:32]}"] *)
Definition hyphenate (raw : str) : str :=
  slice 0 8 raw ++ py "-" ++ slice 8 12 raw ++ py "-" ++ slice 12 16 raw
  ++ py "-" ++ slice 16 20 raw ++ py "-" ++ slice 20 32 raw.

(** A call either returns or raises. *)
Inductive result (A : Type) : Type :=
| Ok (a : A)
| Raise (exn : str).
Arguments Ok {A} a.
Arguments Raise {A} exn.

(** Python truth of an optional string ([None] and [""] are false), and
    [a or b]. *)
Definition truthy (o : option str) : bool :=
  match o with
  | Some (_ :: _) => true
  | _ => false
  end.
Definition py_or (a b : option str) : option str := if truthy a then a else b.
Definition or_str (a : option str) (b : str) : str :=
  match a with
  | Some (c :: s) => c :: s
  | _ => b
  end.


(** ** The remote document model (what the private API returns) *)

(** One annotation of a rich-text part: a JSON list whose head is the tag. *)
Inductive annotation : Type :=
| Ann (tag : str)                                (* [["b"]], [["i"]], ... *)
| AnnArg (tag : str) (arg : str)                 (* [["a", url]], [["h", color]], [["p", id, ...]] *)
| AnnLinkMention (href title : option str).      (* [["lm", {href, title, ...}]] *)

(** A rich-text part [[text, annotations]]. *)
Record part : Type := Part { p_text : str; p_anns : list annotation }.
Abbreviation rich := (list part) (only parsing).

(** The value of a block record, with the keys the exporter reads. *)
Record block : Type := Block {
  b_id : str;
  b_type : str;
  b_alive : bool;                 (* [false] when ["alive"] is [False] *)
  b_space_id : option str;
  b_content : list str;           (* ["content"]: ordered child ids *)
  b_title : rich;                 (* [properties.title] *)
  b_checked : rich;               (* [properties.checked] *)
  b_language : rich;              (* [properties.language] *)
  b_source : rich;                (* [properties.source] *)
  f_page_icon : option str;       (* [format.page_icon] *)
  f_page_cover : option str;
  f_display_source : option str;
  f_source : option str;
  f_link_title : option str;
  f_page_id : option str;
  f_page_ref : option str;
  f_collection_id : option str;   (* [format.collection_pointer.id] *)
  b_view_ids : list str
}.

(** A pagination cursor: a JSON object; only its ["stack"] entry is read. *)
Abbreviation cursor := (gmap (list N) (list (list N))) (only parsing).

(** The body of one successful [loadPageChunk] answer. *)
Record chunk (B : Type) : Type := Chunk {
  recordMap_block : gmap (list N) B;  (* [data["recordMap"]["block"]] *)
  chunk_cursor : cursor               (* [data.get("cursor", {})] *)
}.
Arguments Chunk {B} _ _.
Arguments recordMap_block {B} _.
Arguments chunk_cursor {B} _.

(** What the network and the file system answer.  [None] stands for the
    exception the call raises ([RequestException] for [http_get],
    [RuntimeError] for the API posts). *)
Record remote : Type := Remote {
  http_get : str -> option str;
  (* the answers to the successive posts made while paging one page *)
  page_chunks : str -> list (option (chunk block));
  (* [queryCollection]: the [blockIds] of the answer *)
  collection_block_ids : str -> str -> option (list str);
  (* [_download_file(url, page_dir, block_id, space_id)] *)
  download_file : str -> list (list N) -> str -> option str -> str;
  (* [str.lower] and the class [\w] of the interpreter's Unicode tables *)
  unicode_lower : str -> str;
  is_word : N -> bool;
  (* [requests.utils.quote(s, safe='')] *)
  url_quote : str -> str
}.

(** ** The exporter: [notion_public_export.py] *)

Module Exporter.

(** [_normalize_page_id] *)
Definition _normalize_page_id (net : remote) (url_or_id : str) : result str :=
  let m := re_search match_hex32 url_or_id in
  let m_uuid := re_search match_uuid url_or_id in
  let finish (m m_uuid : option str) : result str :=
    match m, m_uuid with
    | None, None => Raise (py "ValueError")
    | _, Some u => Ok (lower u)
    | Some raw, None => Ok (hyphenate (lower raw))
    end in
  if bool_decide (m = None) && bool_decide (m_uuid = None)
     && (startswith (py "http://") url_or_id || startswith (py "https://") url_or_id)
  then
    match http_get net url_or_id with
    | None => Raise (py "ValueError")
    | Some html =>
        let m_uuid :=
          match re_search match_page_id_json html with
          | Some u => Some u
          | None => re_search match_uuid html
          end in
        let m := match m_uuid with
                 | None => re_search match_hex32 html
                 | Some _ => m
                 end in
        finish m m_uuid
    end
  else finish m m_uuid.

(** [fetch_record_map].  The loop reads the answers to its posts one after
    the other; [None] is a post that raised [RuntimeError], after which the
    same payload is posted to [loadCachedPageChunk] (the next answer). *)
Inductive fetched (B : Type) : Type :=
| RecordMap (block : gmap (list N) B) (unread : list (option (chunk B)))
| RuntimeError
| Waiting.   (* every answer was read and the loop has not stopped *)
Arguments RecordMap {B} _ _.
Arguments RuntimeError {B}.
Arguments Waiting {B}.

Definition cursor_stops (new_cursor cur : cursor) : bool :=
  bool_decide (new_cursor = ∅) || bool_decide (new_cursor = cur)
  || match new_cursor !! py "stack" with
     | None | Some [] => true
     | Some (_ :: _) => false
     end.

Fixpoint fetch_loop {B} (answers : list (option (chunk B)))
    (cur : cursor) (chunk_number : nat) (merged_blocks : gmap (list N) B)
    : fetched B :=
  let step (data : chunk B) (rest : list (option (chunk B)))
           (continue : cursor -> nat -> gmap (list N) B -> fetched B) :=
    let blocks := recordMap_block data in
    if bool_decide (blocks = ∅) then RecordMap merged_blocks rest
    else
      (* merged_blocks.update(blocks) *)
      let merged_blocks := blocks ∪ merged_blocks in
      let new_cursor := chunk_cursor data in
      if cursor_stops new_cursor cur then RecordMap merged_blocks rest
      else continue new_cursor (S chunk_number) merged_blocks in
  match answers with
  | [] => Waiting
  | Some data :: rest => step data rest (fetch_loop rest)
  | None :: [] => Waiting
  | None :: None :: _ => RuntimeError
  | None :: Some data :: rest => step data rest (fetch_loop rest)
  end.

Definition fetch_record_map {B} (answers : list (option (chunk B))) : fetched B :=
  fetch_loop answers {[ py "stack" := [] ]} 0 ∅.

(** [_slugify]: [re.sub(r"[^\w\-]+", "-", text.lower()).strip("-")], or
    ["page"] when that is empty. *)
Fixpoint sub_non_word (is_word : N -> bool) (in_run : bool) (s : str) : str :=
  match s with
  | [] => []
  | c :: s' =>
      if is_word c || (c =? 45) then c :: sub_non_word is_word false s'
      else if in_run then sub_non_word is_word true s'
      else 45 :: sub_non_word is_word true s'
  end.
Definition _slugify (net : remote) (text : str) : str :=
  match strip_char 45 (sub_non_word (is_word net) false (unicode_lower net text)) with
  | [] => py "page"
  | slug => slug
  end.

(** [COLOR_MAP] *)
Definition COLOR_MAP : list (str * str) :=
  [ (py "gray", py "#787774"); (py "brown", py "#9F6B53");
    (py "orange", py "#D9730D"); (py "yellow", py "#CB912F");
    (py "green", py "#448361"); (py "blue", py "#337EA9");
    (py "purple", py "#9065B0"); (py "pink", py "#C14C8A");
    (py "red", py "#D44C47");
    (py "gray_background", py "#F1F1EF"); (py "brown_background", py "#F4EEEE");
    (py "orange_background", py "#FBECDD"); (py "yellow_background", py "#FBF3DB");
    (py "green_background", py "#EDF3EC"); (py "blue_background", py "#E7F3F8");
    (py "purple_background", py "#F6F3F9"); (py "pink_background", py "#FAF1F5");
    (py "red_background", py "#FDEBEC") ].

(** [d.get(k)] on a literal table *)
Fixpoint table_get (t : list (str * str)) (k : str) : option str :=
  match t with
  | [] => None
  | (k', v) :: t' => if str_eqb k k' then Some v else table_get t' k
  end.

(** [_rich_text_to_plain] *)
Definition _rich_text_to_plain (rich : rich) : str :=
  concat (p_text <$> rich).

(** [_get_page_title].  The outer [None] is a fetch that never returns.  The
    title cache is read here and written by [_export_page]; the entries this
    method adds itself only repeat what a second fetch would answer and are
    not kept in the model. *)
Definition _get_page_title (net : remote) (cache : gmap (list N) (list N))
    (page_id : str) : option (option str) :=
  match cache !! page_id with
  | Some t => Some (Some t)
  | None =>
      match _normalize_page_id net page_id with
      | Raise _ => Some None
      | Ok normalized_id =>
          match fetch_record_map (page_chunks net normalized_id) with
          | Waiting => None
          | RuntimeError => Some None
          | RecordMap blocks _ =>
              match blocks !! normalized_id with
              | Some bval =>
                  match _rich_text_to_plain (b_title bval) with
                  | [] => Some None
                  | title => Some (Some title)
                  end
              | None => Some None
              end
          end
      end
  end.

(** The flags the annotation loop of [_rich_text_to_markdown] sets. *)
Record flags : Type := Flags {
  text : str;
  is_bold : bool;
  is_italic : bool;
  is_strikethrough : bool;
  is_code : bool;
  is_underline : bool;
  link_url : option str;
  highlight_color : option str
}.

Definition replace_char_none (x : N) (s : str) : str :=
  filter (λ c, c ≠ x) s.

(** One turn of [for ann in annotations]. *)
Definition annotate (net : remote) (cache : gmap (list N) (list N))
    (st : flags) (ann : annotation) : option flags :=
  let tag := match ann with
             | Ann t | AnnArg t _ => t
             | AnnLinkMention _ _ => py "lm"
             end in
  let has_arg := match ann with Ann _ => false | _ => true end in
  let '(Flags t b i s c u l h) := st in
  if str_eqb tag (py "b") then Some (Flags t true i s c u l h)
  else if str_eqb tag (py "i") then Some (Flags t b true s c u l h)
  else if str_eqb tag (py "s") then Some (Flags t b i true c u l h)
  else if str_eqb tag (py "c") then Some (Flags t b i s true u l h)
  else if str_eqb tag (py "_") then Some (Flags t b i s c true l h)
  else if str_eqb tag (py "a") && has_arg then
    match ann with
    | AnnArg _ url => Some (Flags t b i s c u (Some url) h)
    | _ => Some st
    end
  else if str_eqb tag (py "p") && has_arg then
    match ann with
    | AnnArg _ page_mention_id =>
        let l := Some (py "/" ++ replace_char_none 45 page_mention_id) in
        match cache !! page_mention_id with
        | Some title => Some (Flags title b i s c u l h)
        | None =>
            fetched_title ← _get_page_title net cache page_mention_id;
            Some (Flags (or_str fetched_title t) b i s c u l h)
        end
    | _ => Some st
    end
  else if str_eqb tag (py "lm") && has_arg then
    match ann with
    | AnnLinkMention href title => Some (Flags (or_str title t) b i s c u href h)
    | _ => Some st
    end
  else if str_eqb tag (py "h") && has_arg then
    match ann with
    | AnnArg _ color =>
        if negb (str_eqb color []) && negb (str_eqb color (py "default"))
        then Some (Flags t b i s c u l (Some color))
        else Some st
    | _ => Some st
    end
  else Some st.

Fixpoint annotate_all (net : remote) (cache : gmap (list N) (list N))
    (st : flags) (anns : list annotation) : option flags :=
  match anns with
  | [] => Some st
  | a :: anns' => st' ← annotate net cache st a; annotate_all net cache st' anns'
  end.

(** The two tests on white space around the text: a leading space and a
    trailing space are taken off, to be put back outside the markers. *)
Definition split_leading_space (t : str) : str * str :=
  match t with
  | c :: t' => if c =? 32 then (py " ", t') else ([], t)
  | [] => ([], t)
  end.
Definition split_trailing_space (t : str) : str * str :=
  match last t with
  | Some c => if c =? 32 then (py " ", take (length t - 1) t) else ([], t)
  | None => ([], t)
  end.

(** The block under [if text:]: the markers, innermost first. *)
Definition apply_formatting (st : flags) (t : str) : str :=
  match t with
  | [] => t
  | _ =>
      let t := if is_code st then py "`" ++ t ++ py "`" else t in
      let t := if is_strikethrough st then py "~~" ++ t ++ py "~~" else t in
      let t := if is_underline st then py "<u>" ++ t ++ py "</u>" else t in
      let t := if is_bold st && is_italic st then py "***" ++ t ++ py "***"
               else if is_bold st then py "**" ++ t ++ py "**"
               else if is_italic st then py "*" ++ t ++ py "*"
               else t in
      if truthy (link_url st)
      then py "[" ++ t ++ py "](" ++ or_str (link_url st) [] ++ py ")"
      else t
  end.

(** The color wrap, an HTML span. *)
Definition apply_color (use_html_colors : bool) (st : flags) (t : str) : str :=
  match highlight_color st with
  | Some color =>
      if use_html_colors then
        match table_get COLOR_MAP color with
        | Some css_color =>
            if contains (py "_background") color
            then py "<span style=" ++ dq ++ py "background-color: " ++ css_color
                 ++ dq ++ py ">" ++ t ++ py "</span>"
            else py "<span style=" ++ dq ++ py "color: " ++ css_color
                 ++ dq ++ py ">" ++ t ++ py "</span>"
        | None => t
        end
      else t
  | None => t
  end.

(** The body of [for part in rich]: the text appended to [parts]. *)
Definition part_to_markdown (net : remote) (cache : gmap (list N) (list N))
    (use_html_colors : bool) (p : part) : option str :=
  st ← annotate_all net cache
         (Flags (p_text p) false false false false false None None) (p_anns p);
  let '(leading_space, t) := split_leading_space (text st) in
  let '(trailing_space, t) := split_trailing_space t in
  let t := apply_formatting st t in
  let t := leading_space ++ t ++ trailing_space in
  Some (apply_color use_html_colors st t).

(** [_rich_text_to_markdown] *)
Fixpoint _rich_text_to_markdown (net : remote) (cache : gmap (list N) (list N))
    (use_html_colors : bool) (rich : rich) : option str :=
  match rich with
  | [] => Some []
  | p :: rich' =>
      t ← part_to_markdown net cache use_html_colors p;
      ts ← _rich_text_to_markdown net cache use_html_colors rich';
      Some (t ++ ts)
  end.

(** [_render_block].  [out.write] appends to the text returned.  The
    recursion follows child identifiers through [blocks]; [fuel] bounds its
    depth and [None] is a rendering that does not return. *)
Inductive emitted : Type :=
| Return (out : str)       (* the branch ends with [return] *)
| Children (out : str).    (* the generic child loop follows *)

Definition render_each (f : str -> option str) (ids : list str) : option str :=
  outs ← mapM f ids; Some (concat outs).

Definition is_in (x : str) (l : list str) : bool := bool_decide (x ∈ l).

Definition any_in (platforms : list str) (url : str) : bool :=
  existsb (λ p, contains p url) platforms.

(** [btype == "..."] *)
Definition is_type (btype : str) (t : string) : bool := str_eqb btype (py t).

Definition spaces (indent : nat) : str := concat (replicate indent (py "  ")).

(** In the [column_list] branch: the child lists of the children that are
    in [blocks] with type ["column"], in order. *)
Definition columns_content (blocks : gmap (list N) block) (child_ids : list str)
    : list (list str) :=
  omap (λ col_id,
          match blocks !! col_id with
          | Some col_block =>
              if str_eqb (b_type col_block) (py "column")
              then Some (b_content col_block) else None
          | None => None
          end) child_ids.

(** In the [callout] branch: [format.page_icon], the light bulb by default,
    and the arrow for the paths of built-in icons. *)
Definition callout_icon (block : block) : str :=
  let icon := match f_page_icon block with Some i => i | None => [128161] end in
  if startswith (py "/icons/") icon then [10145; 65039] else icon.

Fixpoint _render_block (fuel : nat) (net : remote)
    (cache : gmap (list N) (list N)) (blocks : gmap (list N) block)
    (block_id : str) (indent : nat) (page_dir : list (list N))
    (space_id : option str) : option str :=
  match fuel with
  | O => None
  | S fuel' =>
  match blocks !! block_id with
  | None => Some []
  | Some block =>
  if negb (b_alive block) then Some [] else
  let btype := b_type block in
  text ← _rich_text_to_markdown net cache true (b_title block);
  let plain_text := _rich_text_to_plain (b_title block) in
  let space_id := if truthy space_id then space_id else b_space_id block in
  let render (ind : nat) (cid : str) : option str :=
    _render_block fuel' net cache blocks cid ind page_dir space_id in
  own ←
    (if is_type btype "column_list" then
       let child_ids := b_content block in
       let columns_content := columns_content blocks child_ids in
       if (1 <? length columns_content)%nat then
         cells ← mapM (λ col_children,
                         body ← render_each (render 0%nat) col_children;
                         Some (py "<td valign=" ++ dq ++ py "top" ++ dq ++ py ">"
                               ++ nl ++ nl ++ body ++ nl ++ py "</td>" ++ nl))
                      columns_content;
         Some (Return (nl ++ py "<table><tr>" ++ nl ++ concat cells
                       ++ py "</tr></table>" ++ nl ++ nl))
       else
         outs ← mapM (render_each (render indent)) columns_content;
         Some (Return (concat outs))
     else if is_type btype "column" then Some (Return [])
     else if is_type btype "header" then Some (Children (nl ++ py "# " ++ text ++ nl ++ nl))
     else if is_type btype "sub_header" then Some (Children (nl ++ py "## " ++ text ++ nl ++ nl))
     else if is_type btype "sub_sub_header" then Some (Children (nl ++ py "### " ++ text ++ nl ++ nl))
     else if is_type btype "bulleted_list" then Some (Children (spaces indent ++ py "- " ++ text ++ nl))
     else if is_type btype "numbered_list" then Some (Children (spaces indent ++ py "1. " ++ text ++ nl))
     else if is_type btype "to_do" then
       let checked_prop :=
         match b_checked block with [] => [Part (py "No") []] | r => r end in
       let checked :=
         is_in (_rich_text_to_plain checked_prop) [py "Yes"; py "true"; py "True"] in
       let mark := if checked then py "x" else py " " in
       Some (Children (spaces indent ++ py "- [" ++ mark ++ py "] " ++ text ++ nl))
     else if is_type btype "quote" then Some (Children (py "> " ++ text ++ nl ++ nl))
     else if is_type btype "callout" then
       let icon := callout_icon block in
       let child_ids := b_content block in
       '(text, child_ids) ←
         match strip text, child_ids with
         | [], first :: others =>
             match blocks !! first with
             | Some first_child =>
                 t ← _rich_text_to_markdown net cache true (b_title first_child);
                 Some (t, others)
             | None => Some (text, child_ids)
             end
         | _, _ => Some (text, child_ids)
         end;
       rest ← render_each (render indent) child_ids;
       Some (Return (py "> " ++ icon ++ py " " ++ text ++ nl ++ nl ++ rest))
     else if is_type btype "code" then
       let lang := _rich_text_to_plain (b_language block) in
       Some (Children (nl ++ py "```" ++ lang ++ nl ++ plain_text ++ nl
                       ++ py "```" ++ nl ++ nl))
     else if is_type btype "toggle" then
       body ← render_each (render indent) (b_content block);
       Some (Return (nl ++ py "<details>" ++ nl ++ py "<summary>" ++ text
                     ++ py "</summary>" ++ nl ++ nl ++ body ++ nl
                     ++ py "</details>" ++ nl ++ nl))
     else if is_type btype "embed" then
       let url := or_str (py_or (f_display_source block) (f_source block))
                         (_rich_text_to_plain (b_source block)) in
       match url with
       | [] => Some (Children [])
       | _ =>
           let label := or_str (py_or (Some text) (f_link_title block))
                               (py "Embedded content") in
           Some (Children (py "[" ++ label ++ py "](" ++ url ++ py ")" ++ nl ++ nl))
       end
     else if is_type btype "video" then
       let src := _rich_text_to_plain (b_source block) in
       let url := or_str (Some src)
                    (or_str (py_or (f_display_source block) (f_source block)) []) in
       let external_platforms :=
         [py "youtube.com"; py "youtu.be"; py "vimeo.com"; py "wistia.com";
          py "dailymotion.com"; py "twitch.tv"; py "facebook.com/watch"] in
       match url with
       | [] => Some (Children [])
       | _ =>
           if any_in external_platforms (unicode_lower net url) then
             let label := or_str (py_or (f_link_title block) (Some text)) (py "Video") in
             let watch_url := or_str (Some src) url in
             Some (Children (py "[" ++ [9654] ++ py " " ++ label ++ py "]("
                             ++ watch_url ++ py ")" ++ nl ++ nl))
           else
             let rel := download_file net url page_dir block_id space_id in
             let label := or_str (Some text) (py "video") in
             Some (Children (py "![" ++ label ++ py "](" ++ rel ++ py ")" ++ nl ++ nl))
       end
     else if is_type btype "audio" then
       let src := _rich_text_to_plain (b_source block) in
       let url := or_str (Some src)
                    (or_str (py_or (f_display_source block) (f_source block)) []) in
       let external_platforms :=
         [py "soundcloud.com"; py "spotify.com"; py "open.spotify.com";
          py "podcasts.apple.com"; py "anchor.fm"] in
       match url with
       | [] => Some (Children [])
       | _ =>
           if any_in external_platforms (unicode_lower net url) then
             let label := or_str (py_or (f_link_title block) (Some text)) (py "Audio") in
             Some (Children (py "[" ++ [128266] ++ py " " ++ label ++ py "]("
                             ++ url ++ py ")" ++ nl ++ nl))
           else
             let rel := download_file net url page_dir block_id space_id in
             let label := or_str (Some text) (py "audio") in
             Some (Children (py "![" ++ label ++ py "](" ++ rel ++ py ")" ++ nl ++ nl))
       end
     else if is_type btype "image" || is_type btype "file" || is_type btype "pdf" then
       let url := or_str (Some (_rich_text_to_plain (b_source block)))
                    (or_str (py_or (f_display_source block) (f_source block)) []) in
       match url with
       | [] => Some (Children [])
       | _ =>
           let rel := download_file net url page_dir block_id space_id in
           let label := or_str (Some text) btype in
           Some (Children (py "![" ++ label ++ py "](" ++ rel ++ py ")" ++ nl ++ nl))
       end
     else if is_type btype "link_to_page" then
       let target_id := py_or (f_page_id block) (f_page_ref block) in
       let label := or_str (Some text) (py "linked page") in
       if truthy target_id then
         let slug := _slugify net label in
         Some (Children (nl ++ py "[" ++ label ++ py "](" ++ slug
                         ++ py "/index.md)" ++ nl ++ nl))
       else Some (Children [])
     else if is_type btype "divider" then Some (Children (nl ++ py "---" ++ nl ++ nl))
     else if is_type btype "child_page" then
       let slug := _slugify net (or_str (Some text) (slice 0 6 (b_id block))) in
       Some (Children (nl ++ py "[" ++ or_str (Some text) slug ++ py "](" ++ slug
                       ++ py "/index.md)" ++ nl ++ nl))
     else if is_type btype "text" then
       match text with
       | [] => Some (Children [])
       | _ => Some (Children (nl ++ text ++ nl))
       end
     else
       match text with
       | [] => Some (Children [])
       | _ => Some (Children (text ++ nl))
       end);
  match own with
  | Return out => Some out
  | Children out =>
      let deeper :=
        if is_type btype "bulleted_list" || is_type btype "numbered_list" || is_type btype "to_do"
        then 1%nat else 0%nat in
      let next_indent := (indent + deeper)%nat in
      rest ← render_each (render next_indent) (b_content block);
      Some (out ++ rest)
  end
  end
  end.

(** *** The export pipeline

    The state of a [NotionPublicExporter] that [_export_page] reads and
    writes, with two records of what it did: the identifiers whose record
    map it fetched and the [index.md] files it wrote, both in order. *)
Record exporter : Type := Exporter {
  output_dir : list (list N);
  seen_pages : gset (list N);
  _page_title_cache : gmap (list N) (list N);
  skip_titles : gset (list N);
  fetched_pages : list (list N);
  written : list (list (list N) * list N * list N)  (* page_dir, page id, markdown *)
}.

Inductive status : Type :=
| Returned
| Raised (exn : str)
| Unfinished.   (* out of [fuel], or a call that never returns *)

(** [for x in l: body], left as soon as [body] does not return. *)
Fixpoint for_each {A S : Type} (body : S -> A -> S * status) (st : S) (l : list A)
    : S * status :=
  match l with
  | [] => (st, Returned)
  | a :: l' =>
      match body st a with
      | (st', Returned) => for_each body st' l'
      | r => r
      end
  end.

(** [query_collection] *)
Definition query_collection (net : remote) (collection_id collection_view_id : str)
    : list str :=
  match collection_block_ids net collection_id collection_view_id with
  | Some block_ids => block_ids
  | None => []
  end.

Definition cover_line (net : remote) (page_id : str) (space_id : option str)
    (page_block : block) : str :=
  match f_page_cover page_block with
  | Some (c :: cs) =>
      let page_cover := c :: cs in
      let cover_url :=
        if startswith (py "attachment:") page_cover then
          py "https://www.notion.so/image/" ++ url_quote net page_cover
          ++ py "?table=block&id=" ++ page_id ++ py "&spaceId="
          ++ match space_id with Some sp => sp | None => py "None" end
          ++ py "&width=2000&cache=v2"
        else if startswith (py "http") page_cover then page_cover
        else py "https://www.notion.so" ++ page_cover in
      py "![cover](" ++ cover_url ++ py ")" ++ nl ++ nl
  | _ => []
  end.

(** [_export_page].  [fuel] bounds the depth of page nesting followed and is
    also handed to the renderer.  [blocks.items()] is enumerated with
    [map_to_list]. *)
Fixpoint _export_page (fuel : nat) (net : remote) (self : exporter)
    (page_id : str) (parent_dir : list (list N)) : exporter * status :=
  match fuel with
  | O => (self, Unfinished)
  | S fuel' =>
  if bool_decide (page_id ∈ seen_pages self) then (self, Returned) else
  let self := Exporter (output_dir self) ({[page_id]} ∪ seen_pages self)
                (_page_title_cache self) (skip_titles self)
                (fetched_pages self ++ [page_id]) (written self) in
  match fetch_record_map (page_chunks net page_id) with
  | Waiting => (self, Unfinished)
  | RuntimeError => (self, Raised (py "RuntimeError"))
  | RecordMap blocks _ =>
  match blocks !! page_id with
  | None => (self, Returned)          (* [warn] No page block found *)
  | Some page_block =>
  let page_title := or_str (Some (_rich_text_to_plain (b_title page_block)))
                           (py "untitled") in
  if bool_decide (page_title ∈ skip_titles self) then (self, Returned) else
  let page_slug := _slugify net page_title in
  let space_id := b_space_id page_block in
  let cache := <[page_id := page_title]> (_page_title_cache self) in
  let page_dir := parent_dir ++ [page_slug] in
  match render_each (λ cid, _render_block fuel' net cache blocks cid 0%nat
                              page_dir space_id) (b_content page_block) with
  | None => (Exporter (output_dir self) (seen_pages self) cache (skip_titles self)
               (fetched_pages self) (written self), Unfinished)
  | Some body =>
  let md := cover_line net page_id space_id page_block
            ++ py "# " ++ page_title ++ nl ++ nl ++ body in
  let self := Exporter (output_dir self) (seen_pages self) cache (skip_titles self)
                (fetched_pages self) (written self ++ [(page_dir, page_id, md)]) in
  for_each
    (λ self '(bid, bval),
       if negb (b_alive bval) then (self, Returned)
       else if str_eqb (b_id bval) page_id then (self, Returned)
       else
         let btype := b_type bval in
         let '(self, st) :=
           if is_type btype "child_page" || is_type btype "page"
           then _export_page fuel' net self (b_id bval) page_dir
           else (self, Returned) in
         match st with
         | Returned =>
             if is_type btype "collection_view" then
               match f_collection_id bval, b_view_ids bval with
               | Some (c :: cs), view :: _ =>
                   let page_ids := query_collection net (c :: cs) view in
                   for_each (λ self sub_page_id,
                               _export_page fuel' net self sub_page_id (output_dir self))
                            self page_ids
               | _, _ => (self, Returned)
               end
             else (self, Returned)
         | _ => (self, st)
         end)
    self (map_to_list blocks)
  end
  end
  end
  end.

(** [export_tree] *)
Definition export_tree (fuel : nat) (net : remote) (self : exporter) (root_url : str)
    : exporter * status :=
  match _normalize_page_id net root_url with
  | Raise e => (self, Raised e)
  | Ok root_id => _export_page fuel net self root_id (output_dir self)
  end.

(** A fresh exporter, as [__init__] leaves it ([main] then sets
    [skip_titles]). *)
Definition new_exporter (output_dir : list (list N)) (skip : gset (list N)) : exporter :=
  Exporter output_dir ∅ ∅ skip [] [].

End Exporter.

(** ** The importer: [notion_import.py] *)

(** What the importer's host answers: the interpreter's Unicode tables and
    the local files with their uploader. *)
Record host : Type := Host {
  decimal_digit : N -> bool;      (* the class [\d] *)
  lower_case : str -> str;        (* [str.lower] *)
  (* [_image_block], local branch: the public URL of [assets_dir / src]
     when the file exists and its upload succeeds *)
  uploaded_url : list (list N) -> str -> option str
}.

Module Importer.

(** [_normalize_id] *)
Definition _normalize_id (page_id : str) : str :=
  let page_id :=
    if contains (py "/") page_id
    then default [] (last (split 47 page_id)) else page_id in
  let page_id :=
    if contains (py "?") page_id
    then default [] (head (split 63 page_id)) else page_id in
  match re_search match_hex32_end page_id with
  | Some raw => hyphenate (lower raw)
  | None =>
      match re_search match_uuid page_id with
      | Some u => lower u
      | None => page_id
      end
  end.

(** *** Rich text

    The annotation dictionary threaded through the recursive encoder: a key
    is present exactly when its flag is set ([color] when it is [Some]). *)
Record annotations : Type := Annotations {
  bold : bool;
  italic : bool;
  strikethrough : bool;
  underline : bool;
  code : bool;
  color : option str
}.

(** [{}] and the truth value of a dictionary *)
Definition no_annotations : annotations :=
  Annotations false false false false false None.
Definition nonempty (a : annotations) : bool :=
  bold a || italic a || strikethrough a || underline a || code a
  || match color a with Some _ => true | None => false end.

(** A rich-text object of the public API as the encoder builds it:
    [{"type": "text", "text": {"content", "link"?}, "annotations"?}]. *)
Record segment : Type := Segment {
  content : str;
  seg_annotations : option annotations;
  link : option str
}.

(** [CSS_TO_NOTION_COLOR] *)
Definition CSS_TO_NOTION_COLOR : list (str * str) :=
  [ (py "#787774", py "gray"); (py "#9F6B53", py "brown");
    (py "#D9730D", py "orange"); (py "#CB912F", py "yellow");
    (py "#448361", py "green"); (py "#337EA9", py "blue");
    (py "#9065B0", py "purple"); (py "#C14C8A", py "pink");
    (py "#D44C47", py "red");
    (py "#F1F1EF", py "gray_background"); (py "#F4EEEE", py "brown_background");
    (py "#FBECDD", py "orange_background"); (py "#FBF3DB", py "yellow_background");
    (py "#EDF3EC", py "green_background"); (py "#E7F3F8", py "blue_background");
    (py "#F6F3F9", py "purple_background"); (py "#FAF1F5", py "pink_background");
    (py "#FDEBEC", py "red_background") ].

Fixpoint table_get (t : list (str * str)) (k : str) : option str :=
  match t with
  | [] => None
  | (k', v) :: t' => if str_eqb k k' then Some v else table_get t' k
  end.

(** A lazy group up to [close] under [re.DOTALL], followed by a greedy
    group that takes everything: the shortest prefix after which [close]
    stands, and the text after [close]. *)
Fixpoint lazy_until (close : str) (s : str) : option (str * str) :=
  match strip_prefix close s with
  | Some rest => Some ([], rest)
  | None =>
      match s with
      | [] => None
      | c :: s' => '(inner, rest) ← lazy_until close s'; Some (c :: inner, rest)
      end
  end.

(** The same with at least one character before [close] (a lazy [.+]). *)
Definition lazy_until1 (close : str) (s : str) : option (str * str) :=
  match s with
  | [] => None
  | c :: s' => '(inner, rest) ← lazy_until close s'; Some (c :: inner, rest)
  end.

(** [[^x]*], greedy: the longest prefix without [x], and the rest. *)
Fixpoint span_not (x : N) (s : str) : str * str :=
  match s with
  | [] => ([], [])
  | c :: s' =>
      if c =? x then ([], s)
      else let '(a, b) := span_not x s' in (c :: a, b)
  end.

(** [[^x]+] followed by the literal [after]: the characters given back by
    the greedy class are never [x]-free up to [after], so the only
    candidate is the longest run. *)
Definition run_not (x : N) (after : str) (s : str) : option (str * str) :=
  match span_not x s with
  | ([], _) => None
  | (v, r) => r' ← strip_prefix after r; Some (v, r')
  end.

(** The pattern [<span style=QPROP:\s*([^Q]+)Q>], a lazy group up to
    [</span>] and a last greedy group, where Q is the double quote: group 1
    stripped, group 2, group 3.  [\s*] and [[^Q]+] share the run before
    the closing quote; whatever [\s*] keeps, stripping group 1 gives the
    stripped run. *)
Definition match_span (prop : string) (s : str) : option (str * str * str) :=
  s ← strip_prefix (py "<span style=" ++ dq ++ py prop ++ py ":") s;
  '(v, s) ← run_not 34 (dq ++ py ">") s;
  '(inner, remaining) ← lazy_until (py "</span>") s;
  Some (strip v, inner, remaining).

(** [OPEN], a lazy possibly empty group, [CLOSE] and the remainder; and
    [D], a lazy non-empty group, [D] and the remainder. *)
Definition match_tag (open close : string) (s : str) : option (str * str) :=
  s ← strip_prefix (py open) s; lazy_until (py close) s.
Definition match_delim (d : string) (s : str) : option (str * str) :=
  s ← strip_prefix (py d) s; lazy_until1 (py d) s.

(** A backquote, [([^`]+)], a backquote and the remainder. *)
Definition match_code (s : str) : option (str * str) :=
  s ← strip_prefix (py "`") s; run_not 96 (py "`") s.

(** [\[([^\]]+)\]\(([^)]+)\)] and the remainder. *)
Definition match_link (s : str) : option (str * str * str) :=
  s ← strip_prefix (py "[") s;
  '(link_text, s) ← run_not 93 (py "](") s;
  '(link_url, remaining) ← run_not 41 (py ")") s;
  Some (link_text, link_url, remaining).

Definition is_special (c : N) : bool :=
  (c =? 60) || (c =? 42) || (c =? 126) || (c =? 96) || (c =? 91).

(** [text[:next_special]] and [text[next_special:]] *)
Fixpoint split_special (s : str) : str * str :=
  match s with
  | [] => ([], [])
  | c :: s' =>
      if is_special c then ([], s)
      else let '(a, b) := split_special s' in (c :: a, b)
  end.

Definition plain_segment (t : str) (a : annotations) : segment :=
  Segment t (if nonempty a then Some a else None) None.

Definition with_color (a : annotations) (c : str) : annotations :=
  Annotations (bold a) (italic a) (strikethrough a) (underline a) (code a) (Some c).

(** [_parse_rich_text_recursive(text, segments, annotations)]: the segments
    appended to [segments].  [fuel] bounds the depth of the recursion;
    [None] is a run out of fuel. *)
Fixpoint _parse_rich_text_recursive (fuel : nat) (text : str) (ann : annotations)
    : option (list segment) :=
  match text with
  | [] => Some []
  | first :: tail =>
  match fuel with
  | O => None
  | S fuel' =>
  let both (inner_text : str) (new_annotations : annotations) (remaining : str) :=
    a ← _parse_rich_text_recursive fuel' inner_text new_annotations;
    b ← _parse_rich_text_recursive fuel' remaining ann;
    Some (a ++ b) in
  let colored (m : str * str * str) :=
    let '(color_css, inner_text, remaining) := m in
    let notion_color := default (py "default") (table_get CSS_TO_NOTION_COLOR color_css) in
    both inner_text (with_color ann notion_color) remaining in
  match match_span "color" text with
  | Some m => colored m
  | None =>
  match match_span "background-color" text with
  | Some m => colored m
  | None =>
  match match_tag "<u>" "</u>" text with
  | Some (inner_text, remaining) =>
      both inner_text
        (Annotations (bold ann) (italic ann) (strikethrough ann) true (code ann) (color ann))
        remaining
  | None =>
  match match_delim "***" text with
  | Some (inner_text, remaining) =>
      both inner_text
        (Annotations true true (strikethrough ann) (underline ann) (code ann) (color ann))
        remaining
  | None =>
  match match_delim "**" text with
  | Some (inner_text, remaining) =>
      both inner_text
        (Annotations true (italic ann) (strikethrough ann) (underline ann) (code ann) (color ann))
        remaining
  | None =>
  match match_delim "*" text with
  | Some (inner_text, remaining) =>
      both inner_text
        (Annotations (bold ann) true (strikethrough ann) (underline ann) (code ann) (color ann))
        remaining
  | None =>
  match match_delim "~~" text with
  | Some (inner_text, remaining) =>
      both inner_text
        (Annotations (bold ann) (italic ann) true (underline ann) (code ann) (color ann))
        remaining
  | None =>
  match match_code text with
  | Some (inner_text, remaining) =>
      both inner_text
        (Annotations (bold ann) (italic ann) (strikethrough ann) (underline ann) true (color ann))
        remaining
  | None =>
  match match_link text with
  | Some (link_text, link_url, remaining) =>
      link_segments ← _parse_rich_text_recursive fuel' link_text ann;
      let linked :=
        if startswith (py "http") link_url
        then (λ seg, Segment (content seg) (seg_annotations seg) (Some link_url))
               <$> link_segments
        else link_segments in
      b ← _parse_rich_text_recursive fuel' remaining ann;
      Some (linked ++ b)
  | None =>
  match split_special text with
  | ([], _) =>
      (* a special character that opened no pattern *)
      b ← _parse_rich_text_recursive fuel' tail ann;
      Some (plain_segment [first] ann :: b)
  | (plain_text, rest) =>
      b ← _parse_rich_text_recursive fuel' rest ann;
      Some (plain_segment plain_text ann :: b)
  end end end end end end end end end end
  end
  end.

(** [_rich_text] *)
Definition _rich_text (text : str) : option (list segment) :=
  match text with
  | [] => Some []
  | _ =>
      segments ← _parse_rich_text_recursive (length text) text no_annotations;
      match segments with
      | [] => Some [Segment text None None]
      | _ => Some segments
      end
  end.

(** *** Blocks of the public API, as the importer builds them *)
#[warnings="-register-all"]
Inductive iblock : Type :=
| Heading (level : nat) (rich_text : list segment)
| Paragraph (rich_text : list segment)
| Bulleted (rich_text : list segment)
| Numbered (rich_text : list segment)
| Quote (rich_text : list segment)
| Callout (rich_text : list segment) (emoji : str)
| Code (code_text : str) (language : str)
| Divider
| Image (url : str)
| Video (url : str)
| Embed (url : str)
| Bookmark (url : str)
| Toggle (rich_text : list segment) (children : list iblock)
| ColumnList (columns : list (list iblock)).

(** [_code_block] *)
Definition lang_map : list (str * str) :=
  [ (py "js", py "javascript"); (py "ts", py "typescript"); (py "py", py "python");
    (py "rb", py "ruby"); (py "sh", py "shell"); (py "bash", py "shell");
    ([], py "plain text") ].
Definition _code_block (h : host) (code_text language : str) : iblock :=
  let l := lower_case h language in
  Code code_text (or_str (Some (default l (table_get lang_map l))) (py "plain text")).

(** [_image_block] *)
Definition _image_block (h : host) (src alt_text : str) (assets_dir : list (list N))
    : option iblock :=
  if startswith (py "http") src then Some (Image src)
  else if startswith (py "data:") src then None
  else Image <$> uploaded_url h assets_dir src.

(** [_embed_block] *)
Definition _embed_block (url : str) : iblock :=
  if contains (py "youtube.com") url || contains (py "youtu.be") url
     || contains (py "vimeo.com") url
  then Video url else Embed url.

(** The alternatives of the callout pattern after the range
    [\U0001F300-\U0001F9FF], in the order and with the code points the
    source file holds. *)
Definition callout_icons : list str :=
  [ [226; 161; 239; 184]; [287; 376; 8217; 161]; [226; 353; 160; 239; 184];
    [226; 8212]; [226; 339; 8230]; [226; 338]; [287; 376; 8220];
    [287; 376; 8221; 8212]; [287; 376; 8220; 338]; [287; 376; 175];
    [287; 376; 8217; 173]; [287; 376; 8217; 172]; [287; 376; 8220; 162];
    [287; 376; 8221; 8221]; [226; 173]; [287; 376; 353; 8364];
    [287; 376; 8217; 170]; [287; 376; 8216; 8240]; [287; 376; 8216; 8224];
    [287; 376; 8216; 8225]; [226; 339; 168]; [287; 376; 8240]; [287; 376; 352];
    [287; 376; 8221; 165]; [287; 376; 8217; 175]; [287; 376; 8224]; [287; 376];
    [287; 376; 8220; 353]; [287; 376; 8220; 8211]; [287; 376; 8221; 8217];
    [287; 376; 8221; 8220]; [226; 176]; [287; 376; 8220; 8230];
    [287; 376; 8220; 8224] ].

(** The callout pattern on [quote_text]: the icon (group 1) and the text
    after the white space that follows it (group 2). *)
Fixpoint first_prefix (alts : list str) (s : str) : option (str * str) :=
  match alts with
  | [] => None
  | a :: alts' =>
      match strip_prefix a s with
      | Some rest => Some (a, rest)
      | None => first_prefix alts' s
      end
  end.
Definition emoji_match (quote_text : str) : option (str * str) :=
  '(icon, rest) ←
    match quote_text with
    | c :: rest =>
        if (127744 <=? c) && (c <=? 129535) then Some ([c], rest)
        else first_prefix callout_icons quote_text
    | [] => None
    end;
  Some (icon, skip_ws rest).

(** [^\s*\d+\.\s] at the start of a line: the text after the match, which
    is what [re.sub] with the same pattern leaves. *)
Fixpoint skip_digits (h : host) (s : str) : str :=
  match s with
  | c :: s' => if decimal_digit h c then skip_digits h s' else s
  | [] => []
  end.
Definition match_numbered (h : host) (line : str) : option str :=
  match skip_ws line with
  | d :: s =>
      if decimal_digit h d then
        match skip_digits h s with
        | 46 :: w :: text => if is_space w then Some text else None
        | _ => None
        end
      else None
  | [] => None
  end.

(** The image pattern at the start of [s]: an exclamation mark, the alt
    text in brackets (possibly empty, without a closing bracket) and the
    source in parentheses (not empty, without a closing parenthesis). *)
Definition match_image (s : str) : option (str * str) :=
  s ← strip_prefix (py "![") s;
  let '(alt_text, s) := span_not 93 s in
  s ← strip_prefix (py "](") s;
  '(src, _) ← run_not 41 (py ")") s;
  Some (alt_text, src).

(** [^\[.+\]\(.+\)$] on a stripped line (a line holds no line feed): an
    opening bracket, then somewhere after at least one character the two
    characters that close the text and open the target, then at least one
    character and a closing parenthesis at the very end. *)
Fixpoint any_suffix (p : str -> bool) (s : str) : bool :=
  p s || match s with
         | [] => false
         | _ :: s' => any_suffix p s'
         end.
Definition whole_line_link (s : str) : bool :=
  match s with
  | 91 :: _ :: s' =>
      any_suffix (λ t, match strip_prefix (py "](") t with
                       | Some (y :: (_ :: _) as u) => bool_decide (last u = Some 41)
                       | _ => false
                       end) s'
  | _ => false
  end.

(** The marker prefixes of the embed branch, with the code points the
    source file holds. *)
Definition video_marker : str := [91; 226; 8211; 182].
Definition audio_marker : str := [91; 287; 376; 8221; 352].

(** The condition of the paragraph loop on the line after the last one
    absorbed. *)
Definition continues_paragraph (next : str) : bool :=
  negb (str_eqb (strip next) [])
  && negb (startswith (py "#") next)
  && negb (startswith (py "-") next)
  && negb (startswith (py ">") next)
  && negb (startswith (py "```") next)
  && negb (startswith (py "![") next)
  && negb (str_eqb (strip next) (py "---")).

(** The paragraph loop: the lines absorbed after the first one, and the
    lines handed to the next turn of the scan. *)
Fixpoint paragraph_lines (rest : list str) : list str * list str :=
  match rest with
  | next :: rest' =>
      if continues_paragraph next
      then let '(absorbed, remaining) := paragraph_lines rest' in (next :: absorbed, remaining)
      else ([], rest)
  | [] => ([], [])
  end.

(** The code-fence loop: the lines before the closing fence and the lines
    from the closing fence on. *)
Fixpoint code_lines (rest : list str) : list str * list str :=
  match rest with
  | l :: rest' =>
      if startswith (py "```") l then ([], rest)
      else let '(body, remaining) := code_lines rest' in (l :: body, remaining)
  | [] => ([], [])
  end.

(** The table loop: lines are added until the line added last holds the
    closing tag. *)
Fixpoint table_lines (added_last : str) (rest : list str) : list str * list str :=
  if contains (py "</table>") added_last then ([], rest)
  else match rest with
       | l :: rest' =>
           let '(more, remaining) := table_lines l rest' in (l :: more, remaining)
       | [] => ([], [])
       end.

(** The details loop with its depth counter. *)
Fixpoint details_lines (rest : list str) (depth : nat) : list str * list str :=
  match depth with
  | O => ([], rest)
  | S _ =>
      match rest with
      | l :: rest' =>
          let depth := if contains (py "<details>") l then S depth else depth in
          let depth := if contains (py "</details>") l then pred depth else depth in
          let '(more, remaining) := details_lines rest' depth in (l :: more, remaining)
      | [] => ([], [])
      end
  end.

(** [re.findall] of [<td[^>]*>(.*?)</td>] under [re.DOTALL] *)
Definition match_td (s : str) : option (str * str) :=
  s ← strip_prefix (py "<td") s;
  let '(_, s) := span_not 62 s in
  s ← strip_prefix (py ">") s;
  lazy_until (py "</td>") s.
Fixpoint findall_td (fuel : nat) (s : str) : list str :=
  match fuel with
  | O => []
  | S fuel' =>
      match match_td s with
      | Some (cell, rest) => cell :: findall_td fuel' rest
      | None =>
          match s with
          | [] => []
          | _ :: s' => findall_td fuel' s'
          end
      end
  end.

(** A greedy group followed by [close]: the longest prefix after which
    [close] stands. *)
Fixpoint greedy_until (close : str) (s : str) : option str :=
  match s with
  | [] => if startswith close [] then Some [] else None
  | c :: s' =>
      match greedy_until close s' with
      | Some inner => Some (c :: inner)
      | None => if startswith close s then Some [] else None
      end
  end.

(** [_parse_markdown], with [_parse_table_columns] and [_parse_toggle],
    which call it back.  The scan works on the lines not yet consumed;
    [fuel] bounds the number of turns and the nesting of tables and
    toggles, and [None] is a run out of fuel. *)
Fixpoint parse_lines (fuel : nat) (h : host) (assets_dir : list (list N))
    (lines : list str) : option (list iblock) :=
  match lines with
  | [] => Some []
  | line :: rest =>
  match fuel with
  | O => None
  | S fuel' =>
  let next (block : option iblock) (remaining : list str) :=
    blocks ← parse_lines fuel' h assets_dir remaining;
    Some (match block with Some b => b :: blocks | None => blocks end) in
  let _parse_markdown (md_content : str) :=
    parse_lines fuel' h assets_dir (split 10 md_content) in
  let stripped := strip line in
  if str_eqb stripped [] then next None rest
  else if startswith (py "# ") line then
    rt ← _rich_text (strip (drop 2 line)); next (Some (Heading 1 rt)) rest
  else if startswith (py "## ") line then
    rt ← _rich_text (strip (drop 3 line)); next (Some (Heading 2 rt)) rest
  else if startswith (py "### ") line then
    rt ← _rich_text (strip (drop 4 line)); next (Some (Heading 3 rt)) rest
  else if str_eqb stripped (py "---") then next (Some Divider) rest
  else if startswith (py "- ") stripped then
    rt ← _rich_text (drop 2 stripped); next (Some (Bulleted rt)) rest
  else
  match match_numbered h line with
  | Some t => rt ← _rich_text t; next (Some (Numbered rt)) rest
  | None =>
  if startswith (py "> ") line then
    let quote_text := strip (drop 2 line) in
    match emoji_match quote_text with
    | Some (icon, t) => rt ← _rich_text t; next (Some (Callout rt icon)) rest
    | None => rt ← _rich_text quote_text; next (Some (Quote rt)) rest
    end
  else if startswith (py "```") line then
    let lang := strip (drop 3 line) in
    let '(body, remaining) := code_lines rest in
    next (Some (_code_block h (join nl body) lang)) (drop 1 remaining)
  else if startswith (py "<table>") stripped then
    let '(more, remaining) := table_lines line rest in
    let table_html := join nl (line :: more) in
    let cells := findall_td (S (length table_html)) table_html in
    columns ← mapM (λ cell_content, _parse_markdown (strip_char 10 (strip cell_content)))
                   cells;
    let columns := filter (λ cell_blocks, cell_blocks ≠ []) columns in
    next (match columns with [] => None | _ => Some (ColumnList columns) end) remaining
  else if startswith (py "<details>") stripped then
    let '(more, remaining) := details_lines rest 1 in
    let details_html := join nl (line :: more) in
    match re_search (match_tag "<summary>" "</summary>") details_html with
    | None => next None remaining
    | Some (summary, _) =>
        let summary_text := strip summary in
        let content_text :=
          match re_search (λ s, s ← strip_prefix (py "</summary>") s;
                                greedy_until (py "</details>") s) details_html with
          | Some c => strip c
          | None => []
          end in
        child_blocks ← match content_text with
                       | [] => Some []
                       | _ => _parse_markdown content_text
                       end;
        rt ← _rich_text summary_text;
        next (Some (Toggle rt child_blocks)) remaining
    end
  else if startswith (py "![") stripped then
    match match_image stripped with
    | Some (alt_text, src) => next (_image_block h src alt_text assets_dir) rest
    | None => next None rest
    end
  else if startswith video_marker stripped || startswith audio_marker stripped then
    match match_link stripped with
    | Some (_, url, _) => next (Some (_embed_block url)) rest
    | None => next None rest
    end
  else if whole_line_link stripped then
    match match_link stripped with
    | Some (t, url, _) =>
        if startswith (py "http") url then next (Some (Bookmark url)) rest
        else rt ← _rich_text t; next (Some (Paragraph rt)) rest
    | None => next None rest
    end
  else
    let '(absorbed, remaining) := paragraph_lines rest in
    let t := join (py " ") (line :: absorbed) in
    if str_eqb (strip t) [] then next None remaining
    else rt ← _rich_text t; next (Some (Paragraph rt)) remaining
  end
  end
  end.

Definition _parse_markdown (fuel : nat) (h : host) (md_content : str)
    (assets_dir : list (list N)) : option (list iblock) :=
  parse_lines fuel h assets_dir (split 10 md_content).

(** *** Page creation

    The calls made on the client of the public API, in order. *)
Inductive api_call : Type :=
| pages_create (parent_id title : str) (children : list iblock) (cover : option str)
| blocks_children_append (block_id : str) (children : list iblock).

(** What the client answers: the identifier of the page created, and
    whether an append succeeded; [None] and [false] are calls that raise. *)
Record client : Type := Client {
  created_id : str -> str -> list iblock -> option str -> option str;
  appended : str -> list iblock -> bool
}.

Inductive outcome : Type :=
| Created (page_id : str)
| Failed          (* a call on the client raised *)
| OutOfFuel.

(** [while remaining_blocks:] *)
Fixpoint append_remaining (fuel : nat) (c : client) (page_id : str)
    (remaining_blocks : list iblock) : list api_call * outcome :=
  match remaining_blocks with
  | [] => ([], Created page_id)
  | _ =>
      match fuel with
      | O => ([], OutOfFuel)
      | S fuel' =>
          let chunk := take 100 remaining_blocks in
          let remaining_blocks := drop 100 remaining_blocks in
          if appended c page_id chunk then
            let '(calls, r) := append_remaining fuel' c page_id remaining_blocks in
            (blocks_children_append page_id chunk :: calls, r)
          else ([blocks_children_append page_id chunk], Failed)
      end
  end.

(** [create_page]: the calls made and how it ends. *)
Definition create_page (c : client) (title parent_id : str)
    (content_blocks : list iblock) (cover_url : option str)
    : list api_call * outcome :=
  let initial_blocks := take 100 content_blocks in
  let remaining_blocks := drop 100 content_blocks in
  let cover :=
    match cover_url with
    | Some u => if startswith (py "http") u then Some u else None
    | None => None
    end in
  let first := pages_create parent_id title initial_blocks cover in
  match created_id c parent_id title initial_blocks cover with
  | None => ([first], Failed)
  | Some page_id =>
      let '(calls, r) :=
        append_remaining (length remaining_blocks) c page_id remaining_blocks in
      (first :: calls, r)
  end.

(** *** Importing pages

    [import_single_page] and [import_directory] read the text of a
    Markdown file, take the cover line and the title heading off it, parse
    the rest and create the page. *)

(** The cover pattern at the start of [content]: the address between the
    parentheses (one character at least, none a closing parenthesis), and
    the text after the white space that follows the match. *)
Definition match_cover (content : str) : option (str * str) :=
  s ← strip_prefix (py "![cover](") content;
  '(cover_url, s) ← run_not 41 (py ")") s;
  Some (cover_url, lstrip s).

(** A greedy [.+] without DOTALL takes the characters up to the next line
    feed; [\s+] before it keeps [k] characters of the white space, as many
    as it can with the rest of the pattern still matching: [k] goes down
    from the length of the white space to 1. *)
Fixpoint take_line (s : str) : str :=
  match s with
  | [] => []
  | c :: s' => if c =? 10 then [] else c :: take_line s'
  end.
Fixpoint give_back {A} (n : nat) (rest_matches : nat -> option A) : option A :=
  match n with
  | O => None
  | S n' =>
      match rest_matches (S n') with
      | Some r => Some r
      | None => give_back n' rest_matches
      end
  end.

(** [^#\s+(.+)$] under MULTILINE, matched at the start of [content]:
    group 1.  The end of a line follows every greedy [.+]. *)
Definition match_title (content : str) : option str :=
  after ← strip_prefix (py "#") content;
  give_back (length after - length (lstrip after))
    (λ k, match take_line (drop k after) with
          | [] => None
          | line => Some line
          end).

(** [re.sub(r"^#\s+.+\n+", "", content, count=1)]: without MULTILINE the
    pattern matches at the start of the text only; the match ends after
    the line feeds that follow the line. *)
Definition remove_title (content : str) : str :=
  let matched :=
    after ← strip_prefix (py "#") content;
    give_back (length after - length (lstrip after))
      (λ k, let line := take_line (drop k after) in
            match line, drop (k + length line) after with
            | _ :: _, 10 :: remaining => Some (lstrip_char 10 remaining)
            | _, _ => None
            end) in
  match matched with
  | Some remaining => remaining
  | None => content
  end.

(** What both import methods do with the text of a file: the cover
    address, the title and the content handed to [_parse_markdown];
    [default_title] is the title made from the name of the file or of the
    directory. *)
Definition read_page (default_title : str) (content : str)
    : option str * str * str :=
  let '(cover_url, content) :=
    match match_cover content with
    | Some (u, remaining) => (Some u, remaining)
    | None => (None, content)
    end in
  match match_title content with
  | Some t => (cover_url, strip t, remove_title content)
  | None => (cover_url, default_title, content)
  end.

(** [name.replace("-", " ").title()]; [title_case] is [str.title] of the
    interpreter. *)
Definition replace_char (x y : N) (s : str) : str :=
  (λ c, if c =? x then y else c) <$> s.
Definition name_title (title_case : str -> str) (name : str) : str :=
  title_case (replace_char 45 32 name).

(** [import_single_page]: the calls made on the client and how it ends.
    [stem] is [md_file.stem] and [page_dir] is [md_file.parent]; the parse
    is given fuel for the length of the content. *)
Definition import_single_page (h : host) (title_case : str -> str) (c : client)
    (parent_page_id : str) (stem : str) (page_dir : list (list N)) (content : str)
    : option (list api_call * outcome) :=
  let '(cover_url, title, content) :=
    read_page (name_title title_case stem) content in
  blocks ← _parse_markdown (S (length content)) h content (page_dir ++ [py "assets"]);
  Some (create_page c title parent_page_id blocks cover_url).

(** [import_directory].  A page found by [rglob] is given by the directory
    of its [index.md] relative to the input directory, as path components
    (none for the input directory itself), and by the text of the file.
    [pages.sort(key=depth)] is stable: pages of the same depth keep the
    order in which they were found.  [created_pages] maps the directory of
    a page to the identifier it was created with; its keys, the paths
    written out by [str], are kept as lists of components, and it is empty
    at the start, as [__init__] leaves it. *)
Fixpoint insert_by_depth {A} (x : list str * A) (l : list (list str * A))
    : list (list str * A) :=
  match l with
  | [] => [x]
  | y :: l' =>
      if (length x.1 <=? length y.1)%nat then x :: l
      else y :: insert_by_depth x l'
  end.
Definition sort_by_depth {A} (pages : list (list str * A)) : list (list str * A) :=
  foldr insert_by_depth [] pages.

(** One turn of the loop over the sorted pages: [created_pages] before and
    after, and the calls made for the page with their outcome
    ([except Exception] keeps the loop going after a failure). *)
Definition import_page (h : host) (title_case : str -> str) (c : client)
    (parent_page_id : str) (input_dir : list (list N))
    (created_pages : gmap (list (list N)) (list N)) (page : list str * str)
    : option (gmap (list (list N)) (list N) * (list api_call * outcome)) :=
  let '(rel_path, content) := page in
  let page_dir := input_dir ++ rel_path in
  let name := default [] (last page_dir) in
  let '(cover_url, title, content) :=
    read_page (name_title title_case name) content in
  let parent_id :=
    match rel_path with
    | [] => parent_page_id
    | _ =>
        let parent_path := take (length rel_path - 1) rel_path in
        default parent_page_id (created_pages !! parent_path)
    end in
  blocks ← _parse_markdown (S (length content)) h content (page_dir ++ [py "assets"]);
  let '(calls, r) := create_page c title parent_id blocks cover_url in
  let created_pages :=
    match r with
    | Created page_id => <[rel_path := page_id]> created_pages
    | _ => created_pages
    end in
  Some (created_pages, (calls, r)).

Fixpoint import_pages (h : host) (title_case : str -> str) (c : client)
    (parent_page_id : str) (input_dir : list (list N))
    (created_pages : gmap (list (list N)) (list N)) (pages : list (list str * str))
    : option (list (list str * (list api_call * outcome))) :=
  match pages with
  | [] => Some []
  | page :: pages' =>
      '(created_pages, result) ←
        import_page h title_case c parent_page_id input_dir created_pages page;
      results ← import_pages h title_case c parent_page_id input_dir
                  created_pages pages';
      Some ((page.1, result) :: results)
  end.

Definition import_directory (h : host) (title_case : str -> str) (c : client)
    (parent_page_id : str) (input_dir : list (list N)) (pages : list (list str * str))
    : option (list (list str * (list api_call * outcome))) :=
  import_pages h title_case c parent_page_id input_dir ∅ (sort_by_depth pages).

End Importer.

(** * Vocabulary of the statements and sample data *)

Local Close Scope N_scope.

(** The blocks a call on the client carries, and the calls that append to
    a given page. *)
Definition call_children (call : Importer.api_call) : list Importer.iblock :=
  match call with
  | Importer.pages_create _ _ children _ => children
  | Importer.blocks_children_append _ children => children
  end.

Definition is_append_to (page_id : list N) (call : Importer.api_call) : Prop :=
  match call with
  | Importer.blocks_children_append id _ => id = page_id
  | Importer.pages_create _ _ _ _ => False
  end.


(** A client on which every call goes through, and a page of 250 blocks. *)
Definition obliging_client : Importer.client :=
  Importer.Client (λ _ _ _ _, Some (py "new-page-id")) (λ _ _, true).
Definition long_page : list Importer.iblock := replicate 250 Importer.Divider.

(** The block mappings of the answers that carried one (the posts that
    did not raise), in the order they arrive. *)
Definition chunk_mappings {B} (answers : list (option (chunk B)))
    : list (gmap (list N) B) :=
  recordMap_block <$> omap id answers.

(** The union of mappings in which, for an identifier present in several
    of them, the entry of the latest one stands. *)
Definition union_latest {B} (start : gmap (list N) B)
    (chunks : list (gmap (list N) B)) : gmap (list N) B :=
  foldl (λ merged blocks, blocks ∪ merged) start chunks.

(** The entry of the latest mapping that has the identifier. *)
Definition latest_entry {B} (chunks : list (gmap (list N) B)) (id : list N)
    : option B :=
  foldl (λ found blocks, match blocks !! id with
                         | Some v => Some v
                         | None => found
                         end) None chunks.

(** Two chunk answers that both hold the identifier ["a"]. *)
Definition chunk_one : chunk nat :=
  Chunk {[ py "a" := 1 ]} {[ py "stack" := [py "next"] ]}.
Definition chunk_two : chunk nat :=
  Chunk {[ py "a" := 2; py "b" := 3 ]} ∅.

(** A string in which neither identifier pattern matches anywhere. *)
Definition has_no_id (s : list N) : Prop :=
  re_search match_hex32 s = None ∧ re_search match_uuid s = None.

(** Whether the exporter's fallback (fetching the page behind a URL and
    searching its HTML) can recover an identifier. *)
Definition unrecoverable (net : remote) (url_or_id : list N) : Prop :=
  (startswith (py "http://") url_or_id || startswith (py "https://") url_or_id) = false
  ∨ http_get net url_or_id = None
  ∨ ∃ html, http_get net url_or_id = Some html ∧ has_no_id html.

(** What [_normalize_id] works on after its two [split] steps: the text
    after the last slash, up to the first question mark. *)
Definition last_segment (page_id : list N) : list N :=
  let page_id :=
    if contains (py "/") page_id
    then default [] (last (split 47%N page_id)) else page_id in
  if contains (py "?") page_id
  then default [] (head (split 63%N page_id)) else page_id.

(** [_normalize_id] has no [raise] and calls nothing that raises on a
    string: every call returns. *)
Definition _normalize_id_outcome (page_id : list N) : result (list N) :=
  Ok (Importer._normalize_id page_id).

(** A network on which every request fails. *)
Definition offline : remote :=
  Remote (λ _, None) (λ _, []) (λ _ _, None) (λ url _ _ _, url) lower is_hex id.

(** Strings of [n] hexadecimal digits, the hyphenated spelling of an
    identifier given by its five groups, and the word "clear": a prefix
    in which the identifier pattern does not match and whose last
    character cannot belong to a match. *)
Definition hex_string (n : nat) (s : list N) : Prop :=
  length s = n ∧ Forall (λ c, is_hex c = true) s.

Definition hyphenated (a b c d e : list N) : list N :=
  a ++ py "-" ++ b ++ py "-" ++ c ++ py "-" ++ d ++ py "-" ++ e.

Definition ends_outside (ok : N → bool) (p : list N) : Prop :=
  match last p with
  | Some c => ok c = false
  | None => True
  end.

Definition is_uuid_char (c : N) : bool := is_hex c || (c =? 45)%N.

Definition clear_before_hex (p : list N) : Prop :=
  re_search match_hex32 p = None ∧ ends_outside is_hex p.

Definition clear_before_uuid (p : list N) : Prop :=
  re_search match_uuid p = None ∧ ends_outside is_uuid_char p.

(** The shape of input [_normalize_id] takes the identifier from: [pre] is
    empty or ends with a slash, [name] holds neither a slash nor a question
    mark, and [query] is empty or starts with a question mark and holds no
    slash; the identifier stands between [name] and [query]. *)
Definition id_in_last_segment (pre name query : list N) : Prop :=
  (pre = [] ∨ last pre = Some 47%N)
  ∧ (47%N ∉ name) ∧ (63%N ∉ name)
  ∧ (query = [] ∨ head query = Some 63%N)
  ∧ 47%N ∉ query.

(** The identifiers of the pages written, in order, and the condition that
    no page was processed twice: the record of fetches and the record of
    files written hold no identifier twice, the fetched identifiers are
    exactly the visited ones, and only fetched pages were written. *)
Definition written_ids (self : Exporter.exporter) : list (list N) :=
  (λ w, w.1.2) <$> Exporter.written self.



(** The two ways [_export_page] goes from a page to another one: a live
    block of the page's record map, other than the page itself, that is a
    child page, and a live database view on it whose first view lists the
    other page. *)
Definition child_page_of (net : remote) (parent sub : list N) : Prop :=
  ∃ blocks unread bid bval,
    Exporter.fetch_record_map (page_chunks net parent)
    = Exporter.RecordMap blocks unread
    ∧ blocks !! bid = Some bval
    ∧ b_alive bval = true
    ∧ b_id bval ≠ parent
    ∧ Exporter.is_type (b_type bval) "child_page"
      || Exporter.is_type (b_type bval) "page" = true
    ∧ b_id bval = sub.

Definition database_member_of (net : remote) (parent sub : list N) : Prop :=
  ∃ blocks unread bid bval c cs view views,
    Exporter.fetch_record_map (page_chunks net parent)
    = Exporter.RecordMap blocks unread
    ∧ blocks !! bid = Some bval
    ∧ b_alive bval = true
    ∧ b_id bval ≠ parent
    ∧ Exporter.is_type (b_type bval) "collection_view" = true
    ∧ f_collection_id bval = Some (c :: cs)
    ∧ b_view_ids bval = view :: views
    ∧ sub ∈ Exporter.query_collection net (c :: cs) view.

(** A page the exporter can write: its record map is fetched and holds the
    page's own block, and its title is not one to skip. *)
Definition exportable (net : remote) (skip : gset (list N)) (id : list N) : Prop :=
  ∃ blocks unread page_block,
    Exporter.fetch_record_map (page_chunks net id)
    = Exporter.RecordMap blocks unread
    ∧ blocks !! id = Some page_block
    ∧ (or_str (Some (Exporter._rich_text_to_plain (b_title page_block)))
         (py "untitled") ∉ skip).

(** What a part of a run that returned has done, from the state [a] to the
    state [b]: no page is forgotten, the titles to skip are the same, the
    pages written in between have all
    the pages they lead to visited, and if every visited page that can be
    written was written before, the same holds after. *)
Definition all_written (net : remote) (self : Exporter.exporter) : Prop :=
  ∀ id, id ∈ Exporter.seen_pages self →
        exportable net (Exporter.skip_titles self) id →
        id ∈ written_ids self.

Definition export_progress (net : remote) (a b : Exporter.exporter) : Prop :=
  Exporter.seen_pages a ⊆ Exporter.seen_pages b
  ∧ Exporter.skip_titles b = Exporter.skip_titles a
  ∧ (∀ id sub,
       id ∈ written_ids b → id ∉ written_ids a →
       child_page_of net id sub ∨ database_member_of net id sub →
       sub ∈ Exporter.seen_pages b)
  ∧ (all_written net a → all_written net b).


(** A block with a type, a plain title and children, and nothing else. *)
Definition simple_block (id type title : list N) (content : list (list N)) : block :=
  Block id type true None content
    (match title with [] => [] | _ => [Part title []] end)
    [] [] [] None None None None None None None None [].





(** The opening and closing text of the table the [column_list] branch
    writes, and one cell of it. *)
Definition table_open : list N := nl ++ py "<table><tr>" ++ nl.
Definition table_close : list N := py "</tr></table>" ++ nl ++ nl.
Definition table_cell (body : list N) : list N :=
  py "<td valign=" ++ dq ++ py "top" ++ dq ++ py ">" ++ nl ++ nl
  ++ body ++ nl ++ py "</td>" ++ nl.

(** The space identifier handed to the children of a block. *)
Definition space_for (space_id : option (list N)) (b : block) : option (list N) :=
  if truthy space_id then space_id else b_space_id b.

(** A callout without text of its own whose first child says "Note: hello"
    and whose second child says "More". *)
Definition callout_page : gmap (list N) block :=
  {[ py "callout1" := simple_block (py "callout1") (py "callout") []
                        [py "first"; py "second"];
     py "first" := simple_block (py "first") (py "text") (py "Note: hello") [];
     py "second" := simple_block (py "second") (py "text") (py "More") [] ]}.

(** A column list with an empty first column and one paragraph in the
    second. *)
Definition lopsided_columns : gmap (list N) block :=
  {[ py "cols" := simple_block (py "cols") (py "column_list") []
                    [py "left"; py "right"];
     py "left" := simple_block (py "left") (py "column") [] [];
     py "right" := simple_block (py "right") (py "column") [] [py "para"];
     py "para" := simple_block (py "para") (py "text") (py "x") [] ]}.

(** The guards of the dispatch chain of [_parse_markdown], rule by rule as
    the specification numbers them. *)
Definition rule_heading (line : list N) : bool :=
  startswith (py "# ") line || startswith (py "## ") line
  || startswith (py "### ") line.
Definition rule_divider (line : list N) : bool := str_eqb (strip line) (py "---").
Definition rule_bulleted (line : list N) : bool := startswith (py "- ") (strip line).
Definition rule_numbered (h : host) (line : list N) : bool :=
  match Importer.match_numbered h line with Some _ => true | None => false end.
Definition rule_quote (line : list N) : bool := startswith (py "> ") line.
Definition rule_fence (line : list N) : bool := startswith (py "```") line.
Definition rule_table (line : list N) : bool := startswith (py "<table>") (strip line).
Definition rule_details (line : list N) : bool :=
  startswith (py "<details>") (strip line).
Definition rule_image (line : list N) : bool := startswith (py "![") (strip line).
Definition rule_media (line : list N) : bool :=
  startswith Importer.video_marker (strip line)
  || startswith Importer.audio_marker (strip line).
Definition rule_link (line : list N) : bool := Importer.whole_line_link (strip line).

Definition rules_1_to_9 (h : host) (line : list N) : bool :=
  rule_heading line || rule_divider line || rule_bulleted line
  || rule_numbered h line || rule_quote line || rule_fence line
  || rule_table line || rule_details line || rule_image line || rule_media line.

Definition blank (line : list N) : bool := str_eqb (strip line) [].

(** The lines the paragraph loop refuses: blank, starting with one of the
    five prefixes it looks for, or a divider. *)
Definition refused (next : list N) : bool :=
  blank next || startswith (py "#") next || startswith (py "-") next
  || startswith (py ">") next || startswith (py "```") next
  || startswith (py "![") next || rule_divider next.

(** The condition the claim gives for a line to be absorbed. *)
Definition absorbed_as_claimed (h : host) (next : list N) : bool :=
  negb (blank next) && negb (rules_1_to_9 h next).

(** A host with the ASCII digits and letters only, without files. *)
Definition ascii_host : host := Host is_ascii_digit lower (λ _ _, None).

(** No formatting pattern of the encoder matches at the start of [text]. *)
Definition no_pattern (text : list N) : Prop :=
  Importer.match_span "color" text = None
  ∧ Importer.match_span "background-color" text = None
  ∧ Importer.match_tag "<u>" "</u>" text = None
  ∧ Importer.match_delim "***" text = None
  ∧ Importer.match_delim "**" text = None
  ∧ Importer.match_delim "*" text = None
  ∧ Importer.match_delim "~~" text = None
  ∧ Importer.match_code text = None
  ∧ Importer.match_link text = None.

(** The annotation list of a text run that is bold, italic, code or
    colored, in the remote format. *)
Definition annotations_of (b i c : bool) (col : option (list N)) : list annotation :=
  (if b then [Ann (py "b")] else [])
  ++ (if i then [Ann (py "i")] else [])
  ++ (if c then [Ann (py "c")] else [])
  ++ match col with Some k => [AnnArg (py "h") k] | None => [] end.

(** A color of the fixed table. *)
Definition known_color (col : option (list N)) : Prop :=
  match col with
  | Some k => is_Some (Exporter.table_get Exporter.COLOR_MAP k)
  | None => True
  end.

(** A text run the round trip is proved for: not empty, without a special
    character of the encoder, and without a space at either end. *)
Definition plain_run (t : list N) : Prop :=
  t ≠ []
  ∧ Forall (λ x, Importer.is_special x = false) t
  ∧ head t ≠ Some 32%N
  ∧ last t ≠ Some 32%N.

(** The characters of a segment list, each with the annotation set and the
    link of its segment: two segment lists are equivalent when these
    agree. *)
Definition annotated_chars (segs : list Importer.segment)
    : list (N * option Importer.annotations * option (list N)) :=
  segs ≫= λ seg,
    (λ x, (x, Importer.seg_annotations seg, Importer.link seg))
      <$> Importer.content seg.

(** What is checked of an entry of the color table. *)
Definition color_entry_ok (k css : list N) : bool :=
  negb (str_eqb k []) && negb (str_eqb k (py "default"))
  && bool_decide (Importer.table_get Importer.CSS_TO_NOTION_COLOR css = Some k)
  && negb (str_eqb css []) && bool_decide (34%N ∉ css)
  && str_eqb (strip (32%N :: css)) css.

(** The encoder, given enough fuel, returns [segs] on [text] under the
    annotation set [ann]. *)
Definition parses_to (text : list N) (ann : Importer.annotations)
    (segs : list Importer.segment) : Prop :=
  ∃ enough, ∀ fuel, enough ≤ fuel →
    Importer._parse_rich_text_recursive fuel text ann = Some segs.

(** * Vocabulary of the further properties *)

(** An identifier in the normalised spelling: five groups of 8, 4, 4, 4 and
    12 digits of [0-9a-f], joined by hyphens. *)
Definition is_lower_hex (c : N) : bool :=
  is_ascii_digit c || ((97 <=? c) && (c <=? 102))%N.

Definition lower_hex_string (n : nat) (s : list N) : Prop :=
  length s = n ∧ Forall (λ c, is_lower_hex c = true) s.

Definition canonical_id (s : list N) : Prop :=
  ∃ a b c d e,
    lower_hex_string 8 a ∧ lower_hex_string 4 b ∧ lower_hex_string 4 c
    ∧ lower_hex_string 4 d ∧ lower_hex_string 12 e
    ∧ s = hyphenated a b c d e.

(** A block map whose child links go down a rank: no block is reached
    from itself, and a block of rank [n] heads a tree of depth at most
    [n]. *)
Definition ranked (blocks : gmap (list N) block) (rank : list N → nat) : Prop :=
  ∀ id b c, blocks !! id = Some b → c ∈ b_content b → rank c < rank id.

(** The title of every block of the map is rendered: the page mentions in
    it, if any, are answered. *)
Definition titles_render (net : remote) (cache : gmap (list N) (list N))
    (blocks : gmap (list N) block) : Prop :=
  ∀ id b, blocks !! id = Some b →
    is_Some (Exporter._rich_text_to_markdown net cache true (b_title b)).

(** The blocks whose branch of the renderer goes through all their
    children: every type but [column_list], [column] and [callout]. *)
Definition renders_all_children (b : block) : Prop :=
  Exporter.is_type (b_type b) "column_list" = false
  ∧ Exporter.is_type (b_type b) "column" = false
  ∧ Exporter.is_type (b_type b) "callout" = false.

(** A set of identifiers each of which is a live block of the map, of a
    type that renders all its children, with a child in the set: from a
    member, the child links lead round and round inside the set. *)
Definition trapped (blocks : gmap (list N) block) (loop : list N → Prop) : Prop :=
  ∀ id, loop id →
    ∃ b c, blocks !! id = Some b ∧ b_alive b = true ∧ renders_all_children b
           ∧ c ∈ b_content b ∧ loop c.

(** A parent block with one child, and a block that is its own child. *)
Definition parent_and_child : gmap (list N) block :=
  <[ py "p" := simple_block (py "p") (py "bulleted_list") (py "one") [py "c"] ]>
    {[ py "c" := simple_block (py "c") (py "bulleted_list") (py "two") [] ]}.

Definition self_child : gmap (list N) block :=
  {[ py "s" := simple_block (py "s") (py "text") (py "again") [py "s"] ]}.

(** The title under which [_export_page] exports a page block, and what is
    recorded of a file it wrote: the page was fetched, its title is not
    skipped, the directory is made of slugs below the output directory and
    ends with the slug of the title, and the file opens with the cover
    line, if any, and the title heading. *)
Definition page_title (page_block : block) : list N :=
  or_str (Some (Exporter._rich_text_to_plain (b_title page_block))) (py "untitled").

Definition is_slug (net : remote) (s : list N) : Prop :=
  ∃ text, s = Exporter._slugify net text.

Definition written_ok (net : remote) (out : list (list N)) (skip : gset (list N))
    (w : list (list N) * list N * list N) : Prop :=
  let '(dir, id, md) := w in
  ∃ blocks unread page_block slugs body,
    Exporter.fetch_record_map (page_chunks net id) = Exporter.RecordMap blocks unread
    ∧ blocks !! id = Some page_block
    ∧ (page_title page_block ∉ skip)
    ∧ Forall (is_slug net) slugs
    ∧ dir = out ++ slugs ++ [Exporter._slugify net (page_title page_block)]
    ∧ md = Exporter.cover_line net id (b_space_id page_block) page_block
           ++ py "# " ++ page_title page_block ++ nl ++ nl ++ body.

Definition export_ok (net : remote) (out : list (list N)) (skip : gset (list N))
    (self : Exporter.exporter) : Prop :=
  Exporter.output_dir self = out
  ∧ Exporter.skip_titles self = skip
  ∧ Forall (written_ok net out skip) (Exporter.written self).

(** One path component that is safe to create: not empty, made of word
    characters, hyphens and the letters of [page]. *)
Definition slug_like (net : remote) (s : list N) : Prop :=
  s ≠ [] ∧ Forall (λ c, is_word net c = true ∨ c = 45%N ∨ c ∈ py "page") s.

(** The text a list of segments holds, in order. *)
Definition plain_of (segs : list Importer.segment) : list N :=
  concat (Importer.content <$> segs).

(** What holds of the segments the encoder makes from [text]: none is
    empty, their text is [text] with characters left out (the markers),
    in the same order, and a link is an address that starts with [http]. *)
Definition segments_of (text : list N) (segs : list Importer.segment) : Prop :=
  Forall (λ s, Importer.content s ≠ []) segs
  ∧ plain_of segs `sublist_of` text
  ∧ Forall (λ s, ∀ u, Importer.link s = Some u → startswith (py "http") u = true)
      segs.

(** The size of a list of lines: the length of the text they come from,
    plus one. *)
Fixpoint weight (lines : list (list N)) : nat :=
  match lines with
  | [] => 0
  | l :: lines' => S (length l) + weight lines'
  end.

(** The blocks that export followed by import is followed through: a
    heading of level 1 to 3, a paragraph, the two list items, a quote, a
    callout with a one-character icon, a divider and a code block, with
    their text. *)
Inductive simple : Type :=
| SHeading (level : nat) (t : list N)
| SText (t : list N)
| SBulleted (t : list N)
| SNumbered (t : list N)
| SQuote (t : list N)
| SCallout (icon : N) (t : list N)
| SDivider
| SCode (language code : list N).

Definition simple_type (k : simple) : list N :=
  match k with
  | SHeading 1 _ => py "header"
  | SHeading 2 _ => py "sub_header"
  | SHeading _ _ => py "sub_sub_header"
  | SText _ => py "text"
  | SBulleted _ => py "bulleted_list"
  | SNumbered _ => py "numbered_list"
  | SQuote _ => py "quote"
  | SCallout _ _ => py "callout"
  | SDivider => py "divider"
  | SCode _ _ => py "code"
  end.

Definition simple_text (k : simple) : list N :=
  match k with
  | SHeading _ t | SText t | SBulleted t | SNumbered t | SQuote t
  | SCallout _ t => t
  | SDivider => []
  | SCode _ code => code
  end.

Definition simple_language (k : simple) : list N :=
  match k with
  | SCode language _ => language
  | _ => []
  end.

(** A remote block that is such a block: alive, without children, of the
    type, its title without annotations and reading as the text; for a
    callout, the icon the exporter writes is the one character. *)
Definition is_simple (b : block) (k : simple) : Prop :=
  b_alive b = true
  ∧ b_content b = []
  ∧ b_type b = simple_type k
  ∧ Forall (λ p, p_anns p = []) (b_title b)
  ∧ Exporter._rich_text_to_plain (b_title b) = simple_text k
  ∧ Exporter._rich_text_to_plain (b_language b) = simple_language k
  ∧ match k with
    | SCallout icon _ => Exporter.callout_icon b = [icon]
    | _ => True
    end.

(** The text of one line the round trip is proved for: not empty, made of
    printable ASCII characters other than the special characters of the
    encoder, without a space at either end. *)
Definition line_ok (t : list N) : Prop :=
  t ≠ []
  ∧ Forall (λ c, (32 ≤ c)%N ∧ (c < 127)%N ∧ Importer.is_special c = false) t
  ∧ head t ≠ Some 32%N
  ∧ last t ≠ Some 32%N.

(** A paragraph must not open like another kind of line. *)
Definition paragraph_start (t : list N) : Prop :=
  match head t with
  | Some c => c ≠ 35%N ∧ c ≠ 45%N ∧ c ≠ 62%N ∧ is_ascii_digit c = false
  | None => False
  end.

(** No white space at either end. *)
Definition trimmed (s : list N) : Prop :=
  match head s with Some c => is_space c = false | None => True end
  ∧ match last s with Some c => is_space c = false | None => True end.

Definition simple_ok (k : simple) : Prop :=
  match k with
  | SHeading level t => 1 ≤ level ≤ 3 ∧ line_ok t
  | SText t => line_ok t ∧ paragraph_start t
  | SBulleted t | SNumbered t | SQuote t => line_ok t
  | SCallout icon t => (127744 ≤ icon)%N ∧ (icon ≤ 129535)%N ∧ line_ok t
  | SDivider => True
  | SCode language code =>
      (10%N ∉ language) ∧ trimmed language
      ∧ Forall (λ l, startswith (py "```") l = false) (split 10 code)
  end.

(** In a sequence, a numbered item must not come right after a paragraph
    (the paragraph would take its line). *)
Fixpoint separated (ks : list simple) : Prop :=
  match ks with
  | SText _ :: (SNumbered _ :: _) as ks' => False
  | _ :: ks' => separated ks'
  | [] => True
  end.

(** What the exporter writes for such a block at indentation 0, line by
    line (each line is followed by a line feed), and the block the importer
    makes of it. *)
Definition simple_lines (k : simple) : list (list N) :=
  match k with
  | SHeading level t => [[]; replicate level 35%N ++ py " " ++ t; []]
  | SText t => [[]; t]
  | SBulleted t => [py "- " ++ t]
  | SNumbered t => [py "1. " ++ t]
  | SQuote t => [py "> " ++ t; []]
  | SCallout icon t => [py "> " ++ icon :: py " " ++ t; []]
  | SDivider => [[]; py "---"; []]
  | SCode language code => [[]; py "```" ++ language] ++ split 10 code ++ [py "```"; []]
  end.

Definition simple_markdown (k : simple) : list N :=
  concat ((λ l, l ++ nl) <$> simple_lines k).

Definition simple_iblock (h : host) (k : simple) : Importer.iblock :=
  match k with
  | SHeading level t => Importer.Heading level [Importer.Segment t None None]
  | SText t => Importer.Paragraph [Importer.Segment t None None]
  | SBulleted t => Importer.Bulleted [Importer.Segment t None None]
  | SNumbered t => Importer.Numbered [Importer.Segment t None None]
  | SQuote t => Importer.Quote [Importer.Segment t None None]
  | SCallout icon t => Importer.Callout [Importer.Segment t None None] [icon]
  | SDivider => Importer.Divider
  | SCode language code => Importer._code_block h code language
  end.

(** A host whose class of decimal digits is [0-9] on the ASCII range. *)
Definition ascii_digits (h : host) : Prop :=
  ∀ c, (c < 128)%N → decimal_digit h c = is_ascii_digit c.

(** The number of turns the parser's scan takes on the lines of such a
    block. *)
Definition steps (k : simple) : nat :=
  match k with
  | SHeading _ _ | SDivider | SCode _ _ => 3
  | SText _ | SQuote _ | SCallout _ _ => 2
  | SBulleted _ | SNumbered _ => 1
  end.

Fixpoint total_steps (ks : list simple) : nat :=
  match ks with
  | [] => 0
  | k :: ks' => steps k + total_steps ks'
  end.

(** A page body of five such blocks. *)
Definition sample_body : gmap (list N) block :=
  <[ py "h" := simple_block (py "h") (py "header") (py "Plan") [] ]>
  (<[ py "p" := simple_block (py "p") (py "text") (py "Read me first.") [] ]>
  (<[ py "b" := simple_block (py "b") (py "bulleted_list") (py "one item") [] ]>
  (<[ py "n" := simple_block (py "n") (py "callout") (py "mind the gap") [] ]>
   {[ py "c" := Block (py "c") (py "code") true None []
                  [Part (py "x = 1" ++ nl ++ py "y = 2") []] [] [Part (py "py") []] []
                  None None None None None None None None [] ]}))).

Definition sample_kinds : list simple :=
  [SHeading 1 (py "Plan"); SText (py "Read me first."); SBulleted (py "one item");
   SCallout 128161%N (py "mind the gap");
   SCode (py "py") (py "x = 1" ++ nl ++ py "y = 2")].

(** Whether the client accepts a call (does not raise on it). *)
Definition accepted (c : Importer.client) (call : Importer.api_call) : Prop :=
  match call with
  | Importer.pages_create parent_id title children cover =>
      is_Some (Importer.created_id c parent_id title children cover)
  | Importer.blocks_children_append block_id children =>
      Importer.appended c block_id children = true
  end.

(** Two posts in a row that raise. *)
Fixpoint fails_twice {B} (answers : list (option (chunk B))) : Prop :=
  match answers with
  | None :: (None :: _) => True
  | _ :: answers' => fails_twice answers'
  | [] => False
  end.

(** The line [_export_page] writes for a cover address, followed by the
    blank line; nothing without a cover. *)
Definition cover_text (cover : option (list N)) : list N :=
  match cover with
  | Some u => py "![cover](" ++ u ++ py ")" ++ nl ++ nl
  | None => []
  end.

(** The page a creation was attempted under: the parent named by its first
    call. *)
Definition attached_to (result : list Importer.api_call * Importer.outcome)
    : option (list N) :=
  match result.1 with
  | Importer.pages_create parent_id _ _ _ :: _ => Some parent_id
  | _ => None
  end.

(** The directory above a page's directory, and the identifier under which
    the page of a directory was created, if it was. *)
Definition parent_path (rel_path : list (list N)) : list (list N) :=
  take (length rel_path - 1) rel_path.

Definition created_as
    (results : list (list (list N) * (list Importer.api_call * Importer.outcome)))
    (rel_path : list (list N)) (page_id : list N) : Prop :=
  ∃ calls, (rel_path, (calls, Importer.Created page_id)) ∈ results.

Definition depth_le {A} (x y : list (list N) * A) : Prop :=
  length x.1 ≤ length y.1.

(** An exported tree of three pages, found in an order that puts the
    deepest first, and a client that numbers nothing: it names every page
    it creates by the title. *)
Definition sample_tree : list (list (list N) * list N) :=
  [([py "home"; py "notes"], py "# Notes" ++ nl ++ nl ++ py "- one" ++ nl);
   ([py "home"], py "# Home" ++ nl ++ nl);
   ([py "home"; py "notes"; py "deep"], py "no heading" ++ nl)].

Definition naming_client : Importer.client :=
  Importer.Client (λ _ title _ _, Some title) (λ _ _, true).

(** A page with a cover from the gallery, a title with spaces around it
    and the five blocks of [sample_body] as its children. *)
Definition covered_page : block :=
  Block (py "r") (py "page") true None [py "h"; py "p"; py "b"; py "n"; py "c"]
    [Part (py " Field notes ") []] [] [] [] None
    (Some (py "/images/page-cover/woodcuts_1.jpg"))
    None None None None None None [].
(** * Properties *)

(** ** Page creation in chunks (importer, [create_page]) *)

Lemma append_remaining_spec fuel c page_id bs calls r :
  length bs ≤ fuel →
  Importer.append_remaining fuel c page_id bs = (calls, r) →
  r ≠ Importer.OutOfFuel
  ∧ Forall (λ call, is_append_to page_id call
                    ∧ 1 ≤ length (call_children call) ≤ 100) calls
  ∧ concat (call_children <$> calls) `prefix_of` bs
  ∧ (∀ id, r = Importer.Created id →
           id = page_id ∧ concat (call_children <$> calls) = bs).
Proof.
  revert bs calls r.
  induction fuel as [|fuel IH]; intros bs calls r Hlen Hrun.
  - destruct bs as [|b bs]; [|simpl in Hlen; lia].
    simpl in Hrun. injection Hrun as <- <-.
    split_and!; [done|constructor|apply prefix_nil|].
    intros id [= <-]. done.
  - destruct bs as [|b bs].
    { simpl in Hrun. injection Hrun as <- <-.
      split_and!; [done|constructor|apply prefix_nil|].
      intros id [= <-]. done. }
    cbn [Importer.append_remaining] in Hrun.
    set (chunk := take 100 (b :: bs)) in *.
    assert (Hchunk : 1 ≤ length chunk ≤ 100).
    { unfold chunk. rewrite length_take. cbn [length]. lia. }
    destruct (Importer.appended c page_id chunk).
    + destruct (Importer.append_remaining fuel c page_id (drop 100 (b :: bs)))
        as [calls' r'] eqn:Hrest.
      injection Hrun as <- <-.
      apply IH in Hrest as (Hfuel & Hall & Hpre & Hall_sent).
      2:{ rewrite length_drop. cbn [length] in *. lia. }
      split; [done|]. split.
      { constructor; [|done]. by split. }
      rewrite fmap_cons. cbn [concat call_children].
      split.
      * destruct Hpre as [k Hk]. exists k.
        rewrite <- app_assoc, <- Hk. symmetry. apply take_drop.
      * intros id Hid. destruct (Hall_sent id Hid) as [-> ->].
        split; [done|]. apply take_drop.
    + injection Hrun as <- <-.
      split; [done|]. split.
      { constructor; [by split|constructor]. }
      split; [|done].
      change (chunk ++ [] `prefix_of` b :: bs).
      rewrite app_nil_r. apply prefix_take.
Qed.

(** C9.  Every run of [create_page] on a block list of length n ends (the
    loop never runs out of fuel); its first call is the page creation and
    carries exactly the first min(n, 100) blocks; every later call is an
    append to the created page and carries between 1 and 100 blocks; the
    blocks carried, in call order, are a prefix of the original list, and
    the whole list when the page was created and every append went
    through. *)
Theorem create_page_chunks (c : Importer.client) (title parent_id : list N)
    (content_blocks : list Importer.iblock) (cover_url : option (list N)) :
  ∃ cover rest,
    (Importer.create_page c title parent_id content_blocks cover_url).1
      = Importer.pages_create parent_id title (take 100 content_blocks) cover :: rest
    ∧ length (take 100 content_blocks) = min (length content_blocks) 100
    ∧ (Importer.create_page c title parent_id content_blocks cover_url).2
        ≠ Importer.OutOfFuel
    ∧ Forall (λ call, length (call_children call) ≤ 100)
        (Importer.create_page c title parent_id content_blocks cover_url).1
    ∧ concat (call_children <$>
                (Importer.create_page c title parent_id content_blocks cover_url).1)
        `prefix_of` content_blocks
    ∧ ∀ page_id,
        (Importer.create_page c title parent_id content_blocks cover_url).2
          = Importer.Created page_id →
        Forall (λ call, is_append_to page_id call
                        ∧ 1 ≤ length (call_children call) ≤ 100) rest
        ∧ take 100 content_blocks ++ concat (call_children <$> rest)
            = content_blocks.
Proof.
  unfold Importer.create_page.
  set (cover := match cover_url with
                | Some u => if startswith (py "http") u then Some u else None
                | None => None
                end).
  set (first := Importer.pages_create parent_id title (take 100 content_blocks) cover).
  assert (Hfirst : length (take 100 content_blocks) ≤ 100)
    by (rewrite length_take; lia).
  destruct (Importer.created_id c parent_id title (take 100 content_blocks) cover)
    as [pid|].
  - destruct (Importer.append_remaining (length (drop 100 content_blocks)) c pid
                (drop 100 content_blocks)) as [calls r] eqn:Hrun.
    apply append_remaining_spec in Hrun as (Hfuel & Hall & Hpre & Hsent); [|done].
    exists cover, calls. cbn [fst snd].
    split; [done|]. split; [rewrite length_take; lia|]. split; [done|].
    split.
    { constructor; [done|].
      eapply Forall_impl; [exact Hall|]. intros call [_ ?]. lia. }
    split.
    { rewrite fmap_cons. cbn [concat call_children first].
      destruct Hpre as [k Hk]. exists k.
      rewrite <- app_assoc, <- Hk. symmetry. apply take_drop. }
    intros page_id Hr. destruct (Hsent page_id Hr) as [-> Hcat].
    split; [done|]. rewrite Hcat. apply take_drop.
  - exists cover, []. cbn [fst snd].
    split; [done|]. split; [rewrite length_take; lia|]. split; [done|].
    split; [constructor; [done|constructor]|].
    split; [|done].
    change (take 100 content_blocks ++ [] `prefix_of` content_blocks).
    rewrite app_nil_r. apply prefix_take.
Qed.

Lemma create_page_chunks_witness :
  ∃ cover rest,
    (Importer.create_page obliging_client (py "Title") (py "parent") long_page None).1
      = Importer.pages_create (py "parent") (py "Title") (take 100 long_page) cover
        :: rest
    ∧ length rest = 2
    ∧ take 100 long_page ++ concat (call_children <$> rest) = long_page.
Proof.
  destruct (create_page_chunks obliging_client (py "Title") (py "parent")
              long_page None) as (cover & rest & Hcalls & _ & _ & _ & _ & Hdone).
  exists cover, rest.
  split; [exact Hcalls|].
  split.
  - vm_compute in Hcalls. injection Hcalls as _ <-. reflexivity.
  - apply (Hdone (py "new-page-id")). vm_compute. reflexivity.
Defined.

(** ** Paginated assembly of the record map (exporter, [fetch_record_map]) *)

Lemma union_latest_lookup {B} (chunks : list (gmap (list N) B)) start id :
  union_latest start chunks !! id
  = match latest_entry chunks id with
    | Some v => Some v
    | None => start !! id
    end.
Proof.
  unfold union_latest, latest_entry.
  induction chunks as [|blocks chunks IH] using rev_ind; [done|].
  rewrite !foldl_app. cbn [foldl].
  destruct (blocks !! id) as [v|] eqn:Hv.
  - by rewrite (lookup_union_Some_l _ _ _ _ Hv).
  - rewrite (lookup_union_r _ _ _ Hv). apply IH.
Qed.

Lemma union_latest_dom {B} (chunks : list (gmap (list N) B)) start :
  dom (union_latest start chunks) = ⋃ (dom <$> chunks) ∪ dom start.
Proof.
  unfold union_latest. revert start.
  induction chunks as [|blocks chunks IH]; intros start; cbn [foldl].
  - cbn. set_solver.
  - rewrite IH, dom_union_L, fmap_cons. cbn [union_list]. set_solver.
Qed.

Lemma fetch_loop_merges {B} n :
  ∀ (answers : list (option (chunk B))) cur k start merged unread,
    length answers ≤ n →
    Exporter.fetch_loop answers cur k start = Exporter.RecordMap merged unread →
    ∃ consumed,
      answers = consumed ++ unread
      ∧ merged = union_latest start (chunk_mappings consumed).
Proof.
  assert (Hstep : ∀ (data : chunk B) rest cur k start merged unread
                    (pre : list (option (chunk B))),
    (∀ cur k start, Exporter.fetch_loop rest cur k start
                    = Exporter.RecordMap merged unread →
       ∃ consumed, rest = consumed ++ unread
                   ∧ merged = union_latest start (chunk_mappings consumed)) →
    chunk_mappings pre = [] →
    (if bool_decide (recordMap_block data = ∅)
     then Exporter.RecordMap start rest
     else if Exporter.cursor_stops (chunk_cursor data) cur
          then Exporter.RecordMap (recordMap_block data ∪ start) rest
          else Exporter.fetch_loop rest (chunk_cursor data) (S k)
                 (recordMap_block data ∪ start))
    = Exporter.RecordMap merged unread →
    ∃ consumed, pre ++ Some data :: rest = consumed ++ unread
                ∧ merged = union_latest start (chunk_mappings consumed)).
  { intros data rest cur k start merged unread pre IH Hpre Hrun.
    assert (Hmap : ∀ l, chunk_mappings (pre ++ Some data :: l)
                        = recordMap_block data :: chunk_mappings l).
    { intros l. unfold chunk_mappings in *.
      rewrite omap_app, fmap_app. rewrite Hpre. done. }
    case_bool_decide as Hempty.
    - injection Hrun as <- <-. exists (pre ++ [Some data]).
      split; [by rewrite <- app_assoc|].
      rewrite Hmap. unfold union_latest. cbn [chunk_mappings foldl fmap omap list_fmap].
      rewrite Hempty. by rewrite (left_id_L ∅ (∪)).
    - destruct (Exporter.cursor_stops _ _).
      + injection Hrun as <- <-. exists (pre ++ [Some data]).
        split; [by rewrite <- app_assoc|].
        by rewrite Hmap.
      + apply IH in Hrun as (consumed & -> & ->).
        exists (pre ++ Some data :: consumed).
        split; [by rewrite <- app_assoc|].
        by rewrite Hmap. }
  induction n as [|n IH]; intros answers cur k start merged unread Hlen Hrun.
  - destruct answers; [done|cbn in Hlen; lia].
  - destruct answers as [|[data|] rest]; [done| |].
    + apply (Hstep data rest cur k start merged unread []); [|done|exact Hrun].
      intros. eapply IH; [|done]. cbn in Hlen. lia.
    + destruct rest as [|[data|] rest]; [done| |done].
      apply (Hstep data rest cur k start merged unread [None]); [|done|exact Hrun].
      intros. eapply IH; [|done]. cbn in Hlen. lia.
Qed.

(** C2, as amended.  When [fetch_record_map] has read all the chunk answers
    and returned, the mapping it returns is the union of the chunk
    mappings in which a later chunk's entry replaces an earlier one for the
    same identifier ([dict.update]): its identifiers are exactly those of
    the chunks, and each one carries the entry of the latest chunk that has
    it. *)
Theorem fetch_record_map_union {B} (answers : list (option (chunk B)))
    (merged : gmap (list N) B) :
  Exporter.fetch_record_map answers = Exporter.RecordMap merged [] →
  merged = union_latest ∅ (chunk_mappings answers)
  ∧ dom merged = ⋃ (dom <$> chunk_mappings answers)
  ∧ ∀ id, merged !! id = latest_entry (chunk_mappings answers) id.
Proof.
  intros Hrun. unfold Exporter.fetch_record_map in Hrun.
  eapply fetch_loop_merges in Hrun as (consumed & -> & ->); [|done].
  rewrite app_nil_r.
  split; [done|]. split.
  - rewrite union_latest_dom. set_solver.
  - intros id. rewrite union_latest_lookup.
    destruct (latest_entry _ _); [done|apply lookup_empty].
Qed.

Lemma fetch_record_map_union_witness :
  union_latest ∅ (chunk_mappings [Some chunk_one; None; Some chunk_two]) !! py "a"
  = latest_entry (chunk_mappings [Some chunk_one; None; Some chunk_two]) (py "a").
Proof.
  assert (Hrun : Exporter.fetch_record_map [Some chunk_one; None; Some chunk_two]
                 = Exporter.RecordMap
                     (union_latest ∅ (chunk_mappings [Some chunk_one; None; Some chunk_two]))
                     []).
  { vm_compute. reflexivity. }
  exact (proj2 (proj2 (fetch_record_map_union _ _ Hrun)) (py "a")).
Defined.

(** C2, the claim as stated fails: the second chunk's entry for ["a"]
    replaces the entry the first chunk had put in the mapping. *)
Lemma fetch_record_map_overwrites :
  recordMap_block chunk_one !! py "a" = Some 1
  ∧ ∃ merged,
      Exporter.fetch_record_map [Some chunk_one; Some chunk_two]
        = Exporter.RecordMap merged []
      ∧ merged !! py "a" = Some 2.
Proof.
  split; [vm_compute; reflexivity|].
  eexists. split; [vm_compute; reflexivity|].
  vm_compute. reflexivity.
Qed.

(** ** Facts about the string and pattern primitives *)

Lemma strip_prefix_Some p s r : strip_prefix p s = Some r ↔ s = p ++ r.
Proof.
  revert s. induction p as [|a p IH]; intros s; cbn.
  - split; [by intros [= ->]|by intros ->].
  - destruct s as [|b s]; [by split|].
    destruct (N.eqb_spec a b) as [->|Hne].
    + rewrite IH. split; [by intros ->|by intros [= ->]].
    + split; [done|]. intros [= ? _]. done.
Qed.

Lemma strip_prefix_app p r : strip_prefix p (p ++ r) = Some r.
Proof. by apply strip_prefix_Some. Qed.

Lemma startswith_true p s : startswith p s = true ↔ ∃ r, s = p ++ r.
Proof.
  unfold startswith. destruct (strip_prefix p s) as [r|] eqn:H.
  - apply strip_prefix_Some in H. split; [by exists r|done].
  - split; [done|]. intros [r ->]. by rewrite strip_prefix_app in H.
Qed.

Lemma lstrip_suffix s : lstrip s `suffix_of` s.
Proof.
  induction s as [|c s IH]; cbn; [done|].
  destruct (is_space c); [by apply suffix_cons_r|done].
Qed.

Lemma eat_hex_exact h r :
  Forall (λ c, is_hex c = true) h → eat_hex (length h) (h ++ r) = Some (h, r).
Proof.
  induction 1 as [|c h Hc _ IH]; cbn; [done|]. by rewrite Hc, IH.
Qed.

Lemma eat_hex_Some n s h r :
  eat_hex n s = Some (h, r)
  ↔ s = h ++ r ∧ length h = n ∧ Forall (λ c, is_hex c = true) h.
Proof.
  split.
  - revert s h r. induction n as [|n IH]; intros s h r; cbn.
    + intros [= <- <-]. by split_and!.
    + destruct s as [|c s]; [done|].
      destruct (is_hex c) eqn:Hc; [|done].
      destruct (eat_hex n s) as [[h' r']|] eqn:Heat; [|done].
      intros [= <- <-]. apply IH in Heat as (-> & <- & Hall).
      split_and!; [done|done|by constructor].
  - intros (-> & <- & Hall). by apply eat_hex_exact.
Qed.

Lemma re_search_None {A} (m : list N → option A) s :
  re_search m s = None ↔ ∀ t, t `suffix_of` s → m t = None.
Proof.
  induction s as [|c s IH]; cbn.
  - destruct (m []) eqn:Hm.
    + split; [done|]. intros H. rewrite H in Hm; [done|]. done.
    + split; [|done]. intros _ t Ht. apply suffix_nil_inv in Ht as ->. done.
  - destruct (m (c :: s)) eqn:Hm.
    + split; [done|]. intros H. rewrite H in Hm; done.
    + rewrite IH. split.
      * intros H t [k Hk]. destruct k as [|c' k].
        -- cbn in Hk. by subst t.
        -- injection Hk as _ ->. apply H. by exists k.
      * intros H t Ht. apply H. by apply suffix_cons_r.
Qed.

Lemma re_search_first {A} (m : list N → option A) p t r :
  m t = Some r →
  (∀ k, k < length p → m (drop k p ++ t) = None) →
  re_search m (p ++ t) = Some r.
Proof.
  intros Hm. induction p as [|c p IH]; intros Hnone.
  - cbn. destruct t; cbn; by rewrite Hm.
  - assert (H0 : m (c :: p ++ t) = None) by (apply (Hnone 0); cbn; lia).
    cbn. rewrite H0.
    apply IH. intros k Hk. apply (Hnone (S k)). cbn. lia.
Qed.

Lemma re_search_here {A} (m : list N → option A) t r :
  m t = Some r → re_search m t = Some r.
Proof. intros Hm. apply (re_search_first m [] t r Hm). cbn. lia. Qed.

(** A match of the JSON pattern holds a match of the identifier pattern. *)
Lemma match_page_id_json_uuid s :
  re_search match_uuid s = None → re_search match_page_id_json s = None.
Proof.
  intros Hnone. apply re_search_None. intros t Ht.
  destruct (match_page_id_json t) as [u|] eqn:Hm; [exfalso|done].
  unfold match_page_id_json in Hm.
  apply bind_Some in Hm as (s1 & H1 & Hm).
  apply bind_Some in Hm as (s2 & H2 & Hm).
  apply bind_Some in Hm as (s3 & H3 & Hm).
  apply bind_Some in Hm as ([u' s4] & H4 & Hm).
  apply strip_prefix_Some in H1, H2, H3.
  assert (Hsuf : s3 `suffix_of` s).
  { etrans; [|exact Ht]. rewrite H1.
    apply suffix_app_r. etrans; [|apply lstrip_suffix].
    unfold skip_ws in *. rewrite H2.
    apply suffix_app_r. etrans; [|apply lstrip_suffix].
    rewrite H3. by apply suffix_app_r. }
  pose proof (proj1 (re_search_None match_uuid s) Hnone s3 Hsuf) as Hu.
  unfold match_uuid in Hu. by rewrite H4 in Hu.
Qed.

Lemma split_nonempty c s : split c s ≠ [].
Proof.
  destruct s as [|x s]; cbn; [done|].
  destruct (x =? c)%N; [done|]. by destruct (split c s).
Qed.

Lemma split_single c s w : split c s = [w] → w = s.
Proof.
  revert w. induction s as [|x s IH]; intros w; cbn.
  - by intros [= <-].
  - destruct (x =? c)%N.
    + intros [= _ H]. by apply split_nonempty in H.
    + destruct (split c s) as [|w' ws] eqn:Hs; [by apply split_nonempty in Hs|].
      intros [= <- ->]. by rewrite (IH w').
Qed.

Lemma split_last_suffix c s : default [] (last (split c s)) `suffix_of` s.
Proof.
  induction s as [|x s IH]; cbn; [done|].
  pose proof (split_nonempty c s) as Hne.
  destruct (x =? c)%N.
  - destruct (split c s) as [|w ws] eqn:Hs; [done|].
    change (last ([] :: w :: ws)) with (last (w :: ws)).
    by apply suffix_cons_r.
  - destruct (split c s) as [|w ws] eqn:Hs; [done|].
    destruct ws as [|w2 ws].
    + apply split_single in Hs as ->. done.
    + change (last ((x :: w) :: w2 :: ws)) with (last (w :: w2 :: ws)).
      by apply suffix_cons_r.
Qed.

Lemma split_head_prefix c s : default [] (head (split c s)) `prefix_of` s.
Proof.
  induction s as [|x s IH]; cbn; [done|].
  destruct (x =? c)%N; cbn; [apply prefix_nil|].
  destruct (split c s) as [|w ws] eqn:Hs; cbn in *.
  - by apply split_nonempty in Hs.
  - by apply prefix_cons.
Qed.

(** The segment [_normalize_id] works on is a piece of its argument. *)
Lemma last_segment_inside s : ∃ k1 k2, s = k1 ++ last_segment s ++ k2.
Proof.
  unfold last_segment.
  set (s1 := if contains (py "/") s then default [] (last (split 47%N s)) else s).
  assert (H1 : s1 `suffix_of` s).
  { unfold s1. destruct (contains _ s); [apply split_last_suffix|done]. }
  assert (H2 : (if contains (py "?") s1 then default [] (head (split 63%N s1)) else s1)
               `prefix_of` s1).
  { destruct (contains _ s1); [apply split_head_prefix|done]. }
  clearbody s1. destruct H1 as [k1 ->]. destruct H2 as [k2 H2]. exists k1, k2.
  by rewrite <- H2.
Qed.

Lemma eat_hex_extend n t h r b :
  eat_hex n t = Some (h, r) → eat_hex n (t ++ b) = Some (h, r ++ b).
Proof.
  intros (-> & <- & Hall)%eat_hex_Some. rewrite <- app_assoc.
  by apply eat_hex_exact.
Qed.

Lemma strip_prefix_extend p t r b :
  strip_prefix p t = Some r → strip_prefix p (t ++ b) = Some (r ++ b).
Proof.
  intros ->%strip_prefix_Some. rewrite <- app_assoc. apply strip_prefix_app.
Qed.

Lemma eat_uuid_extend t u r b :
  eat_uuid t = Some (u, r) → eat_uuid (t ++ b) = Some (u, r ++ b).
Proof.
  unfold eat_uuid. intros H.
  repeat (apply bind_Some in H as ([??] & ?%(eat_hex_extend _ _ _ _ b) & H)
          || apply bind_Some in H as (? & ?%(strip_prefix_extend _ _ _ b) & H)).
  injection H as <- <-.
  repeat match goal with
         | E : ?x = Some _ |- context [?x] => rewrite E; clear E; cbn [mbind option_bind]
         end.
  done.
Qed.

Lemma has_no_id_segment s :
  has_no_id s →
  re_search match_hex32_end (last_segment s) = None
  ∧ re_search match_uuid (last_segment s) = None.
Proof.
  intros [Hhex Huuid].
  destruct (last_segment_inside s) as (k1 & k2 & Hs).
  assert (Hin : ∀ t, t `suffix_of` last_segment s → t ++ k2 `suffix_of` s).
  { intros t [a Ha]. exists (k1 ++ a). rewrite Hs at 1. rewrite Ha.
    by rewrite <- !app_assoc. }
  split; apply re_search_None; intros t Ht; apply Hin in Ht.
  - pose proof (proj1 (re_search_None _ _) Hhex _ Ht) as Hnone.
    unfold match_hex32 in Hnone. unfold match_hex32_end.
    destruct (eat_hex 32 t) as [[h r]|] eqn:Heat; [|done].
    by rewrite (eat_hex_extend _ _ _ _ k2 Heat) in Hnone.
  - pose proof (proj1 (re_search_None _ _) Huuid _ Ht) as Hnone.
    unfold match_uuid in *.
    destruct (eat_uuid t) as [[u r]|] eqn:Heat; [|done].
    by rewrite (eat_uuid_extend _ _ _ k2 Heat) in Hnone.
Qed.

(** ** Identifiers that cannot be normalized *)

(** C10, as amended.  When neither identifier pattern matches anywhere in
    the input and the exporter's fallback recovers nothing (the input is
    not a URL, or fetching it fails, or the page fetched holds no
    identifier either), the exporter's [_normalize_page_id] raises
    [ValueError] to its caller, while the importer's [_normalize_id] raises
    nothing and returns the last path segment of its input (the text after
    the last slash, up to the first question mark) unchanged. *)
Theorem unnormalizable_identifier (net : remote) (url_or_id : list N) :
  has_no_id url_or_id →
  unrecoverable net url_or_id →
  Exporter._normalize_page_id net url_or_id = Raise (py "ValueError")
  ∧ _normalize_id_outcome url_or_id = Ok (last_segment url_or_id).
Proof.
  intros Hno Hrec. split.
  - destruct Hno as [Hhex Huuid].
    unfold Exporter._normalize_page_id. rewrite Hhex, Huuid.
    rewrite !bool_decide_eq_true_2 by done. cbn [andb].
    destruct Hrec as [Hurl|[Hget|(html & Hget & Hhtml_hex & Hhtml_uuid)]].
    + by rewrite Hurl.
    + rewrite Hget. by destruct (_ || _).
    + rewrite Hget, (match_page_id_json_uuid _ Hhtml_uuid), Hhtml_uuid, Hhtml_hex.
      by destruct (_ || _).
  - unfold _normalize_id_outcome. f_equal.
    destruct (has_no_id_segment _ Hno) as [Hhex Huuid].
    unfold Importer._normalize_id. fold (last_segment url_or_id).
    by rewrite Hhex, Huuid.
Qed.

Lemma unnormalizable_identifier_witness :
  Exporter._normalize_page_id offline (py "not-an-id") = Raise (py "ValueError")
  ∧ _normalize_id_outcome (py "https://example.org/not-an-id?x=1")
    = Ok (py "not-an-id").
Proof.
  split.
  - apply (unnormalizable_identifier offline (py "not-an-id")).
    + split; vm_compute; reflexivity.
    + left. vm_compute. reflexivity.
  - apply (unnormalizable_identifier offline (py "https://example.org/not-an-id?x=1")).
    + split; vm_compute; reflexivity.
    + right. left. reflexivity.
Defined.

(** C10, the claim as stated fails for the importer: on an input that
    holds no identifier, [_normalize_id] returns the input instead of
    raising. *)
Lemma _normalize_id_returns_unnormalized :
  has_no_id (py "not-an-id")
  ∧ unrecoverable offline (py "not-an-id")
  ∧ _normalize_id_outcome (py "not-an-id") = Ok (py "not-an-id").
Proof.
  split_and!.
  - split; vm_compute; reflexivity.
  - left. vm_compute. reflexivity.
  - vm_compute. reflexivity.
Qed.

(** ** Identifier normalization *)

Lemma contains_char c s : contains [c] s = bool_decide (c ∈ s).
Proof.
  unfold contains. induction s as [|x s IH]; cbn.
  - by rewrite bool_decide_eq_false_2 by apply not_elem_of_nil.
  - unfold startswith. cbn. destruct (N.eqb_spec c x) as [->|Hne].
    + by rewrite bool_decide_eq_true_2 by left.
    + destruct (find [c] s) as [k|] eqn:Hf; cbn; symmetry in IH.
      * apply bool_decide_eq_true in IH.
        symmetry. apply bool_decide_eq_true_2. by right.
      * apply bool_decide_eq_false in IH.
        symmetry. apply bool_decide_eq_false_2.
        by intros [?|?]%elem_of_cons.
Qed.

Lemma split_notin c s : c ∉ s → split c s = [s].
Proof.
  induction s as [|x s IH]; [done|].
  intros [Hx Hs]%not_elem_of_cons. cbn.
  destruct (N.eqb_spec x c) as [->|_]; [done|]. by rewrite IH.
Qed.

Lemma split_app_sep c a b : c ∉ a → split c (a ++ c :: b) = a :: split c b.
Proof.
  induction a as [|x a IH]; cbn.
  - intros _. by rewrite N.eqb_refl.
  - intros [Hx Ha]%not_elem_of_cons.
    destruct (N.eqb_spec x c) as [->|_]; [done|]. by rewrite IH.
Qed.

Lemma split_sep_last c a b :
  last (split c (a ++ c :: b)) = last (split c b).
Proof.
  assert (Hlen : ∀ a, 2 ≤ length (split c (a ++ c :: b))).
  { clear a. intros a. pose proof (split_nonempty c b).
    induction a as [|x a IH]; cbn.
    - rewrite N.eqb_refl. destruct (split c b); cbn; [done|lia].
    - destruct (x =? c)%N; cbn; [lia|].
      destruct (split c (a ++ c :: b)) as [|w [|w2 ws]]; cbn in *; lia. }
  induction a as [|x a IH]; cbn.
  - rewrite N.eqb_refl. pose proof (split_nonempty c b).
    by destruct (split c b).
  - specialize (Hlen a).
    destruct (x =? c)%N.
    + destruct (split c (a ++ c :: b)) as [|w ws]; [cbn in Hlen; lia|].
      by rewrite <- IH.
    + destruct (split c (a ++ c :: b)) as [|w [|w2 ws]]; [cbn in Hlen; lia..|].
      by rewrite <- IH.
Qed.

Lemma last_segment_url pre name id query :
  id_in_last_segment pre name query →
  47%N ∉ id → 63%N ∉ id →
  last_segment (pre ++ name ++ id ++ query) = name ++ id.
Proof.
  intros (Hpre & Hn47 & Hn63 & Hq & Hq47) Hi47 Hi63.
  assert (Hrest : 47%N ∉ name ++ id ++ query).
  { rewrite !elem_of_app. tauto. }
  assert (Hseg : (if contains (py "/") (pre ++ name ++ id ++ query)
                  then default [] (last (split 47%N (pre ++ name ++ id ++ query)))
                  else pre ++ name ++ id ++ query) = name ++ id ++ query).
  { destruct Hpre as [->|Hlast].
    - cbn [app]. change (py "/") with [47%N]. rewrite contains_char.
      by rewrite bool_decide_eq_false_2.
    - apply last_Some in Hlast as [pre' ->].
      rewrite <- app_assoc. cbn [app].
      change (py "/") with [47%N]. rewrite contains_char.
      rewrite bool_decide_eq_true_2 by (rewrite elem_of_app; right; left).
      rewrite split_sep_last, split_notin by done. done. }
  unfold last_segment. rewrite Hseg.
  change (py "?") with [63%N]. rewrite contains_char.
  destruct Hq as [->|Hhead].
  - rewrite app_nil_r.
    rewrite bool_decide_eq_false_2; [done|]. rewrite elem_of_app. tauto.
  - destruct query as [|x query]; [done|]. injection Hhead as ->.
    rewrite bool_decide_eq_true_2.
    2:{ rewrite !elem_of_app. right. right. left. }
    rewrite (app_assoc name id). rewrite split_app_sep; [done|].
    rewrite elem_of_app. tauto.
Qed.

Lemma eat_hex_string n a r : hex_string n a → eat_hex n (a ++ r) = Some (a, r).
Proof. intros [<- Hall]. by apply eat_hex_exact. Qed.

Lemma eat_uuid_exact a b c d e r :
  hex_string 8 a → hex_string 4 b → hex_string 4 c → hex_string 4 d →
  hex_string 12 e →
  eat_uuid (hyphenated a b c d e ++ r) = Some (hyphenated a b c d e, r).
Proof.
  intros Ha Hb Hc Hd He. unfold eat_uuid, hyphenated.
  rewrite <- !app_assoc.
  rewrite (eat_hex_string 8 a _ Ha). cbn [mbind option_bind].
  rewrite strip_prefix_app. cbn [mbind option_bind].
  rewrite (eat_hex_string 4 b _ Hb). cbn [mbind option_bind].
  rewrite strip_prefix_app. cbn [mbind option_bind].
  rewrite (eat_hex_string 4 c _ Hc). cbn [mbind option_bind].
  rewrite strip_prefix_app. cbn [mbind option_bind].
  rewrite (eat_hex_string 4 d _ Hd). cbn [mbind option_bind].
  rewrite strip_prefix_app. cbn [mbind option_bind].
  rewrite (eat_hex_string 12 e _ He). cbn [mbind option_bind].
  done.
Qed.

Lemma eat_uuid_Some t u r :
  eat_uuid t = Some (u, r) →
  ∃ a b c d e,
    hex_string 8 a ∧ hex_string 4 b ∧ hex_string 4 c ∧ hex_string 4 d
    ∧ hex_string 12 e ∧ u = hyphenated a b c d e ∧ t = u ++ r.
Proof.
  unfold eat_uuid. change (py "-") with [45%N]. intros H.
  apply bind_Some in H as ([a s1] & (-> & Ha1 & Ha2)%eat_hex_Some & H).
  apply bind_Some in H as (s1' & ->%strip_prefix_Some & H).
  apply bind_Some in H as ([b s2] & (-> & Hb1 & Hb2)%eat_hex_Some & H).
  apply bind_Some in H as (s2' & ->%strip_prefix_Some & H).
  apply bind_Some in H as ([c s3] & (-> & Hc1 & Hc2)%eat_hex_Some & H).
  apply bind_Some in H as (s3' & ->%strip_prefix_Some & H).
  apply bind_Some in H as ([d s4] & (-> & Hd1 & Hd2)%eat_hex_Some & H).
  apply bind_Some in H as (s4' & ->%strip_prefix_Some & H).
  apply bind_Some in H as ([e s5] & (-> & He1 & He2)%eat_hex_Some & H).
  injection H as <- <-.
  exists a, b, c, d, e. split_and!; try done.
  unfold hyphenated. change (py "-") with [45%N].
  by repeat (rewrite <- app_assoc; cbn [app]).
Qed.

Lemma hyphenated_length a b c d e :
  hex_string 8 a → hex_string 4 b → hex_string 4 c → hex_string 4 d →
  hex_string 12 e → length (hyphenated a b c d e) = 36.
Proof.
  intros [Ha _] [Hb _] [Hc _] [Hd _] [He _]. unfold hyphenated.
  rewrite !length_app, Ha, Hb, Hc, Hd, He. done.
Qed.

Lemma hyphenated_chars a b c d e :
  hex_string 8 a → hex_string 4 b → hex_string 4 c → hex_string 4 d →
  hex_string 12 e →
  Forall (λ x, is_uuid_char x = true) (hyphenated a b c d e).
Proof.
  assert (Hhex : ∀ n s, hex_string n s → Forall (λ x, is_uuid_char x = true) s).
  { intros n s [_ H]. eapply Forall_impl; [exact H|].
    intros x Hx. unfold is_uuid_char. by rewrite Hx. }
  intros Ha Hb Hc Hd He. unfold hyphenated.
  repeat (apply Forall_app; split); eauto; by repeat constructor.
Qed.

Lemma hyphenated_dash a b c d e :
  hex_string 8 a → hyphenated a b c d e !! 8 = Some 45%N.
Proof.
  intros [Ha _]. unfold hyphenated.
  rewrite lookup_app_r by lia. by rewrite Ha.
Qed.

(** A pattern that reads a window of [w] characters, all from the class
    [ok], does not match at a position of a clear prefix, whatever
    follows the prefix. *)
Lemma no_early_match {A} (m : list N → option A) (w : nat) (ok : N → bool) :
  (∀ t r, m t = Some r →
          w ≤ length t ∧ ∀ i c, i < w → t !! i = Some c → ok c = true) →
  (∀ x y r, w ≤ length x → m (x ++ y) = Some r → m x ≠ None) →
  ∀ p y, re_search m p = None → ends_outside ok p →
         ∀ k, k < length p → m (drop k p ++ y) = None.
Proof.
  intros Hwindow Hlocal p y Hnone Hend k Hk.
  destruct (m (drop k p ++ y)) as [r|] eqn:Hm; [exfalso|done].
  set (p' := drop k p) in *.
  assert (Hlen : 0 < length p') by (unfold p'; rewrite length_drop; lia).
  assert (Hlast : last p' = last p).
  { unfold p'. rewrite !last_lookup, lookup_drop, length_drop.
    f_equal. lia. }
  destruct (decide (length p' ≤ w)) as [Hshort|Hlong].
  - destruct (Hwindow _ _ Hm) as [_ Hok].
    unfold ends_outside in Hend. rewrite <- Hlast, last_lookup in Hend.
    destruct (p' !! pred (length p')) as [c|] eqn:Hc.
    + rewrite (Hok (pred (length p')) c) in Hend; [done|lia|].
      by rewrite lookup_app_l by lia.
    + apply lookup_ge_None in Hc. lia.
  - apply (Hlocal p' y r); [lia|done|].
    apply (proj1 (re_search_None m p) Hnone). apply suffix_drop.
Qed.



Lemma match_uuid_window t r :
  match_uuid t = Some r →
  36 ≤ length t ∧ ∀ i c, i < 36 → t !! i = Some c → is_uuid_char c = true.
Proof.
  unfold match_uuid. intros H.
  apply fmap_Some in H as ([u r'] & Hu & _).
  apply eat_uuid_Some in Hu as (a & b & c & d & e & Ha & Hb & Hc & Hd & He & -> & ->).
  pose proof (hyphenated_length a b c d e Ha Hb Hc Hd He) as Hlen.
  split; [rewrite length_app; lia|].
  intros i x Hi Hx. rewrite lookup_app_l in Hx by lia.
  by eapply (Forall_lookup_1 _ _ _ _ (hyphenated_chars a b c d e Ha Hb Hc Hd He)).
Qed.

Lemma match_uuid_local x y r :
  36 ≤ length x → match_uuid (x ++ y) = Some r → match_uuid x ≠ None.
Proof.
  unfold match_uuid. intros Hlen H.
  apply fmap_Some in H as ([u r'] & Hu & _).
  apply eat_uuid_Some in Hu as (a & b & c & d & e & Ha & Hb & Hc & Hd & He & -> & Heq).
  pose proof (hyphenated_length a b c d e Ha Hb Hc Hd He) as Hu.
  assert (x = hyphenated a b c d e ++ drop 36 x) as ->.
  { rewrite <- (take_drop 36 x) at 1. f_equal.
    apply (f_equal (take 36)) in Heq.
    rewrite take_app_le in Heq by lia.
    by rewrite Heq, take_app_length' by done. }
  by rewrite eat_uuid_exact.
Qed.


Lemma is_hex_lower c : is_hex c = true → is_hex (lower_char c) = true.
Proof.
  unfold is_hex, is_ascii_digit, lower_char. intros H.
  destruct ((65 <=? c)%N && (c <=? 90)%N) eqn:Hup.
  - apply andb_true_iff in Hup as [?%N.leb_le ?%N.leb_le].
    rewrite !orb_true_iff, !andb_true_iff, !N.leb_le in *. lia.
  - rewrite !orb_true_iff, !andb_true_iff, !N.leb_le in *. lia.
Qed.

Lemma hex_string_lower n s : hex_string n s → hex_string n (lower s).
Proof.
  intros [Hlen Hall]. split.
  - unfold lower. by rewrite length_fmap.
  - unfold lower. apply Forall_fmap. eapply Forall_impl; [exact Hall|].
    intros c Hc. by apply is_hex_lower.
Qed.


Lemma lower_app a b : lower (a ++ b) = lower a ++ lower b.
Proof. unfold lower. apply fmap_app. Qed.

Lemma lower_hyphenated a b c d e :
  lower (hyphenated a b c d e)
  = hyphenated (lower a) (lower b) (lower c) (lower d) (lower e).
Proof. unfold hyphenated. by rewrite !lower_app. Qed.

Lemma hyphenate_groups a b c d e :
  hex_string 8 a → hex_string 4 b → hex_string 4 c → hex_string 4 d →
  hex_string 12 e →
  hyphenate (a ++ b ++ c ++ d ++ e) = hyphenated a b c d e.
Proof.
  intros [Ha _] [Hb _] [Hc _] [Hd _] [He _].
  assert (H8 : drop 8 (a ++ b ++ c ++ d ++ e) = b ++ c ++ d ++ e)
    by by apply drop_app_length'.
  assert (H12 : drop 12 (a ++ b ++ c ++ d ++ e) = c ++ d ++ e).
  { change 12 with (8 + 4). rewrite <- drop_drop, H8. by apply drop_app_length'. }
  assert (H16 : drop 16 (a ++ b ++ c ++ d ++ e) = d ++ e).
  { change 16 with (12 + 4). rewrite <- drop_drop, H12. by apply drop_app_length'. }
  assert (H20 : drop 20 (a ++ b ++ c ++ d ++ e) = e).
  { change 20 with (16 + 4). rewrite <- drop_drop, H16. by apply drop_app_length'. }
  unfold hyphenate, hyphenated, slice.
  rewrite H8, H12, H16, H20. cbn [drop Nat.sub].
  change (drop 0 (a ++ b ++ c ++ d ++ e)) with (a ++ b ++ c ++ d ++ e).
  rewrite !take_app_length' by done.
  rewrite (take_ge e) by lia. done.
Qed.


Lemma hyphenated_notin a b c d e x :
  hex_string 8 a → hex_string 4 b → hex_string 4 c → hex_string 4 d →
  hex_string 12 e → is_uuid_char x = false → x ∉ hyphenated a b c d e.
Proof.
  intros Ha Hb Hc Hd He Hx Hin.
  pose proof (proj1 (Forall_forall _ _) (hyphenated_chars a b c d e Ha Hb Hc Hd He)
                x Hin).
  congruence.
Qed.


Lemma search_uuid_first p a b c d e q :
  hex_string 8 a → hex_string 4 b → hex_string 4 c → hex_string 4 d →
  hex_string 12 e → clear_before_uuid p →
  re_search match_uuid (p ++ hyphenated a b c d e ++ q)
  = Some (hyphenated a b c d e).
Proof.
  intros Ha Hb Hc Hd He [Hnone Hend]. apply re_search_first.
  - unfold match_uuid. by rewrite eat_uuid_exact.
  - by apply (no_early_match match_uuid 36 is_uuid_char
                match_uuid_window match_uuid_local).
Qed.


Lemma search_hex32_end_dashed name a b c d e :
  hex_string 8 a → hex_string 4 b → hex_string 4 c → hex_string 4 d →
  hex_string 12 e →
  re_search match_hex32_end (name ++ hyphenated a b c d e) = None.
Proof.
  intros Ha Hb Hc Hd He. apply re_search_None. intros t [k Hk].
  unfold match_hex32_end.
  destruct (eat_hex 32 t) as [[h r]|] eqn:Heat; [|done].
  destruct (str_eqb r [] || str_eqb r nl) eqn:Hr; [exfalso|done].
  apply eat_hex_Some in Heat as (-> & Hh & Hall).
  pose proof (hyphenated_length a b c d e Ha Hb Hc Hd He) as Hlen.
  pose proof (hyphenated_dash a b c d e Ha) as Hdash.
  assert (Hrlen : length r ≤ 1).
  { unfold str_eqb in Hr. apply orb_true_iff in Hr as [Hr|Hr];
      apply bool_decide_eq_true in Hr; subst r; cbn; lia. }
  set (u := hyphenated a b c d e) in *.
  assert (Hsuf : h ++ r = drop (length u - length (h ++ r)) u).
  { assert (Hl : length name + length u = length k + length (h ++ r)).
    { apply (f_equal length) in Hk. rewrite !length_app in Hk.
      rewrite length_app. lia. }
    apply (f_equal (drop (length k))) in Hk.
    rewrite drop_app_length in Hk.
    rewrite length_app in Hl.
    rewrite (drop_app_ge name) in Hk by lia.
    rewrite <- Hk at 1. f_equal. rewrite length_app. lia. }
  rewrite length_app in Hsuf.
  assert (Hin : (h ++ r) !! (8 - (length u - (length h + length r))) = Some 45%N).
  { rewrite Hsuf, lookup_drop. rewrite <- Hdash. f_equal. lia. }
  rewrite lookup_app_l in Hin by lia.
  pose proof (Forall_lookup_1 _ _ _ _ Hall Hin) as Hbad.
  vm_compute in Hbad. done.
Qed.


Lemma exporter_finds_dashed net p a b c d e q :
  hex_string 8 a → hex_string 4 b → hex_string 4 c → hex_string 4 d →
  hex_string 12 e → clear_before_uuid p →
  Exporter._normalize_page_id net (p ++ hyphenated a b c d e ++ q)
  = Ok (lower (hyphenated a b c d e)).
Proof.
  intros Ha Hb Hc Hd He Hp. unfold Exporter._normalize_page_id.
  rewrite (search_uuid_first p a b c d e q Ha Hb Hc Hd He Hp).
  rewrite (bool_decide_eq_false_2 (Some _ = None)) by done.
  rewrite andb_false_r. cbn [andb].
  by destruct (re_search match_hex32 _).
Qed.


Lemma importer_finds_dashed pre name a b c d e query :
  hex_string 8 a → hex_string 4 b → hex_string 4 c → hex_string 4 d →
  hex_string 12 e → id_in_last_segment pre name query → clear_before_uuid name →
  Importer._normalize_id (pre ++ name ++ hyphenated a b c d e ++ query)
  = lower (hyphenated a b c d e).
Proof.
  intros Ha Hb Hc Hd He Hshape Hname. unfold Importer._normalize_id.
  fold (last_segment (pre ++ name ++ hyphenated a b c d e ++ query)).
  rewrite (last_segment_url pre name _ query Hshape)
    by (by apply hyphenated_notin).
  rewrite search_hex32_end_dashed by done.
  rewrite <- (app_nil_r (hyphenated a b c d e)) at 1.
  by rewrite search_uuid_first.
Qed.

Lemma clear_nil : clear_before_hex [] ∧ clear_before_uuid [].
Proof. by repeat split. Qed.

Lemma id_in_last_segment_nil : id_in_last_segment [] [] [].
Proof.
  unfold id_in_last_segment. split_and!; try (by left); apply not_elem_of_nil.
Qed.





(** ** Each page is exported once (exporter, [_export_page]) *)

Lemma for_each_invariant {A S} (P : S → Prop)
    (body : S → A → S * Exporter.status) (st : S) (l : list A) :
  (∀ s a, P s → P (body s a).1) → P st → P (Exporter.for_each body st l).1.
Proof.
  intros Hbody. revert st. induction l as [|a l IH]; intros st Hst; [done|].
  cbn. specialize (Hbody st a Hst).
  destruct (body st a) as [st' []]; cbn in *; [by apply IH|done..].
Qed.







#[local] Instance export_progress_refl net : Reflexive (export_progress net).
Proof. intros a. by split_and!. Qed.

#[local] Instance export_progress_trans net : Transitive (export_progress net).
Proof.
  intros a b c (Hab & Hsab & Hlab & Hwab) (Hbc & Hsbc & Hlbc & Hwbc). split_and!.
  - set_solver.
  - congruence.
  - intros id sub Hc Ha Hlink.
    destruct (decide (id ∈ written_ids b)) as [Hb|Hb].
    + apply Hbc. by eapply Hlab.
    + by eapply Hlbc.
  - auto.
Qed.








(** ** The renderer (exporter, [_render_block]) *)

(** Evaluates the type tests of the renderer on a known block type. *)
Ltac eval_is_type :=
  repeat match goal with
         | |- context [Exporter.is_type (py ?a) ?b] =>
             let v := eval vm_compute in (Exporter.is_type (py a) b) in
             change (Exporter.is_type (py a) b) with v
         end.

(** C5.  A callout block whose own rich text is empty and whose first
    child is in the block map is rendered as the callout line, made of the
    quote mark, the icon and the first child's text, followed by the
    rendering of the children after the first: the first child is not
    rendered again, and the other children are rendered as usual below. *)
Theorem callout_hoists_first_child (fuel : nat) (net : remote)
    (cache : gmap (list N) (list N)) (blocks : gmap (list N) block)
    (block_id : list N) (indent : nat) (page_dir : list (list N))
    (space_id : option (list N)) (b first_child : block)
    (first : list N) (others : list (list N)) :
  blocks !! block_id = Some b →
  b_alive b = true →
  b_type b = py "callout" →
  b_title b = [] →
  b_content b = first :: others →
  blocks !! first = Some first_child →
  Exporter._render_block (S fuel) net cache blocks block_id indent page_dir space_id
  = (text ← Exporter._rich_text_to_markdown net cache true (b_title first_child);
     rest ← Exporter.render_each
              (λ cid, Exporter._render_block fuel net cache blocks cid indent
                        page_dir (space_for space_id b)) others;
     Some (py "> " ++ Exporter.callout_icon b ++ py " " ++ text ++ nl ++ nl ++ rest)).
Proof.
  intros Hb Halive Htype Htitle Hcontent Hfirst.
  cbn [Exporter._render_block].
  rewrite Hb, Halive, Htitle, Htype, Hcontent. cbn [negb].
  eval_is_type.
  cbn [Exporter._rich_text_to_markdown mbind option_bind].
  change (strip []) with (@nil N). rewrite Hfirst. unfold space_for.
  destruct (Exporter._rich_text_to_markdown net cache true (b_title first_child))
    as [text|]; cbn [mbind option_bind]; [|done].
  by destruct (Exporter.render_each _ others).
Qed.

Lemma callout_hoists_first_child_witness :
  Exporter._render_block 3 offline ∅ callout_page (py "callout1") 0 [] None
  = Some (py "> " ++ [128161%N] ++ py " Note: hello" ++ nl ++ nl
          ++ nl ++ py "More" ++ nl).
Proof.
  rewrite (callout_hoists_first_child 2 offline ∅ callout_page (py "callout1") 0 []
             None (simple_block (py "callout1") (py "callout") []
                     [py "first"; py "second"])
             (simple_block (py "first") (py "text") (py "Note: hello") [])
             (py "first") [py "second"]);
    [vm_compute; reflexivity|vm_compute; reflexivity|reflexivity..].
Defined.

Lemma column_list_unfold (fuel : nat) (net : remote)
    (cache : gmap (list N) (list N)) (blocks : gmap (list N) block)
    (block_id : list N) (indent : nat) (page_dir : list (list N))
    (space_id : option (list N)) (b : block) (text : list N) :
  blocks !! block_id = Some b →
  b_alive b = true →
  b_type b = py "column_list" →
  Exporter._rich_text_to_markdown net cache true (b_title b) = Some text →
  let columns := Exporter.columns_content blocks (b_content b) in
  let render ind cid :=
    Exporter._render_block fuel net cache blocks cid ind page_dir
      (space_for space_id b) in
  Exporter._render_block (S fuel) net cache blocks block_id indent page_dir space_id
  = if 1 <? length columns
    then cells ← mapM (λ col, body ← Exporter.render_each (render 0) col;
                              Some (table_cell body)) columns;
         Some (table_open ++ concat cells ++ table_close)
    else outs ← mapM (Exporter.render_each (render indent)) columns;
         Some (concat outs).
Proof.
  intros Hb Halive Htype Htext columns render.
  cbn [Exporter._render_block].
  rewrite Hb, Halive, Htype, Htext. cbn [negb mbind option_bind]. eval_is_type.
  fold columns. unfold space_for, render, table_cell, table_open, table_close.
  destruct (1 <? length columns).
  - destruct (mapM _ columns) as [cells|]; cbn [mbind option_bind]; [|done].
    by rewrite <- !app_assoc.
  - by destruct (mapM _ columns).
Qed.

(** C8, as amended.  A [column_list] block is rendered from its columns,
    the children that are in the block map with type ["column"], whether
    or not they have content.  With two columns or more the output is the
    HTML table: its opening, one cell per column in source order holding
    the rendering of that column's children, and its closing.  With exactly
    one column the output is the rendering of that column's children and
    nothing else; with none it is empty. *)
Theorem column_list_rendering (fuel : nat) (net : remote)
    (cache : gmap (list N) (list N)) (blocks : gmap (list N) block)
    (block_id : list N) (indent : nat) (page_dir : list (list N))
    (space_id : option (list N)) (b : block) (text : list N) :
  blocks !! block_id = Some b →
  b_alive b = true →
  b_type b = py "column_list" →
  Exporter._rich_text_to_markdown net cache true (b_title b) = Some text →
  let columns := Exporter.columns_content blocks (b_content b) in
  let render ind cid :=
    Exporter._render_block fuel net cache blocks cid ind page_dir
      (space_for space_id b) in
  let output :=
    Exporter._render_block (S fuel) net cache blocks block_id indent page_dir
      space_id in
  (∀ bodies,
     2 ≤ length columns →
     Forall2 (λ col body, Exporter.render_each (render 0) col = Some body)
       columns bodies →
     output = Some (table_open ++ concat (table_cell <$> bodies) ++ table_close))
  ∧ (∀ col body,
       columns = [col] →
       Exporter.render_each (render indent) col = Some body →
       output = Some body)
  ∧ (columns = [] → output = Some []).
Proof.
  intros Hb Halive Htype Htext columns render output.
  assert (Hout : output
    = if 1 <? length columns
      then cells ← mapM (λ col, body ← Exporter.render_each (render 0) col;
                                Some (table_cell body)) columns;
           Some (table_open ++ concat cells ++ table_close)
      else outs ← mapM (Exporter.render_each (render indent)) columns;
           Some (concat outs)).
  { exact (column_list_unfold fuel net cache blocks block_id indent page_dir
             space_id b text Hb Halive Htype Htext). }
  clearbody output columns render.
  split_and!.
  - intros bodies Hlen Hbodies. rewrite Hout.
    rewrite (proj2 (Nat.ltb_lt 1 (length columns))) by lia.
    rewrite (mapM_Some_2 _ columns (table_cell <$> bodies)); [done|].
    apply Forall2_fmap_r. eapply Forall2_impl; [exact Hbodies|].
    intros col body Hcol. cbn beta. by rewrite Hcol.
  - intros col body Hcolumns Hbody. rewrite Hout, Hcolumns.
    change (1 <? length [col]) with false. cbv iota.
    rewrite (mapM_Some_2 _ [col] [body]) by (by repeat constructor).
    cbn [mbind option_bind concat]. by rewrite app_nil_r.
  - intros Hcolumns. rewrite Hout, Hcolumns. reflexivity.
Qed.

Lemma column_list_rendering_witness :
  Exporter._render_block 4 offline ∅ lopsided_columns (py "cols") 0 [] None
  = Some (table_open
          ++ concat (table_cell <$> [[]; nl ++ py "x" ++ nl])
          ++ table_close).
Proof.
  assert (Hb : lopsided_columns !! py "cols"
               = Some (simple_block (py "cols") (py "column_list") []
                         [py "left"; py "right"]))
    by (vm_compute; reflexivity).
  pose proof (column_list_rendering 3 offline ∅ lopsided_columns (py "cols") 0 []
                None _ [] Hb eq_refl eq_refl eq_refl) as [Htable _].
  apply Htable.
  - vm_compute. lia.
  - assert (Hcolumns : Exporter.columns_content lopsided_columns
                         (b_content (simple_block (py "cols") (py "column_list") []
                                       [py "left"; py "right"]))
                       = [[]; [py "para"]]) by (vm_compute; reflexivity).
    rewrite Hcolumns.
    repeat constructor; vm_compute; reflexivity.
Defined.

(** C8, the claim as stated fails: with an empty first column and content
    in the second only, exactly one column is not empty, and the renderer
    still writes the table, with a cell for the empty column. *)
Lemma column_list_table_for_one_nonempty_column :
  Exporter.columns_content lopsided_columns [py "left"; py "right"]
  = [[]; [py "para"]]
  ∧ Exporter._render_block 4 offline ∅ lopsided_columns (py "cols") 0 [] None
    = Some (table_open ++ table_cell [] ++ table_cell (nl ++ py "x" ++ nl)
            ++ table_close)
  ∧ Exporter._render_block 4 offline ∅ lopsided_columns (py "para") 0 [] None
    = Some (nl ++ py "x" ++ nl).
Proof. split_and!; vm_compute; reflexivity. Qed.

(** ** The paragraph accumulator (importer, [_parse_markdown]) *)

Lemma lstrip_head s c t : lstrip s = c :: t → is_space c = false.
Proof.
  induction s as [|x s IH]; cbn; [done|].
  destruct (is_space x) eqn:Hx; [done|]. by intros [= <- _].
Qed.

Lemma lstrip_nil s : lstrip s = [] ↔ Forall (λ c, is_space c = true) s.
Proof.
  induction s as [|x s IH]; cbn; [by split|].
  destruct (is_space x) eqn:Hx.
  - rewrite IH. split; [by constructor|by intros [_ ?]%Forall_cons].
  - split; [done|]. intros [? _]%Forall_cons. congruence.
Qed.

Lemma strip_nil s : strip s = [] ↔ Forall (λ c, is_space c = true) s.
Proof.
  unfold strip, rstrip. rewrite <- lstrip_nil.
  destruct (lstrip s) as [|c t] eqn:Hs; [done|].
  split; [|done]. intros Hrev. exfalso.
  apply (f_equal reverse) in Hrev. rewrite reverse_involutive in Hrev.
  change (reverse []) with (@nil N) in Hrev. apply lstrip_nil in Hrev.
  apply (proj1 (Forall_reverse _ _)) in Hrev.
  apply Forall_cons in Hrev as [Hc _].
  apply lstrip_head in Hs. congruence.
Qed.

Lemma join_first sep line more :
  ∃ tail, Py.join sep (line :: more) = line ++ tail.
Proof.
  destruct more as [|l more]; cbn; [exists []; by rewrite app_nil_r|by eexists].
Qed.

Lemma paragraph_lines_spec rest absorbed remaining :
  Importer.paragraph_lines rest = (absorbed, remaining) →
  rest = absorbed ++ remaining
  ∧ Forall (λ l, Importer.continues_paragraph l = true) absorbed
  ∧ match remaining with
    | next :: _ => Importer.continues_paragraph next = false
    | [] => True
    end.
Proof.
  revert absorbed remaining.
  induction rest as [|next rest IH]; intros absorbed remaining; cbn.
  - by intros [= <- <-].
  - destruct (Importer.continues_paragraph next) eqn:Hnext.
    + destruct (Importer.paragraph_lines rest) as [a r].
      intros [= <- <-]. destruct (IH a r eq_refl) as (-> & Hall & Hstop).
      split_and!; [done|by constructor|done].
    + intros [= <- <-]. by split_and!.
Qed.

Lemma continues_paragraph_refused next :
  Importer.continues_paragraph next = negb (refused next).
Proof.
  unfold Importer.continues_paragraph, refused, blank, rule_divider.
  by rewrite !negb_orb.
Qed.

Lemma startswith_longer p q s :
  startswith p s = false → startswith (p ++ q) s = false.
Proof.
  intros Hp. destruct (startswith (p ++ q) s) eqn:Hpq; [|done].
  apply startswith_true in Hpq as [r ->].
  assert (startswith p ((p ++ q) ++ r) = true); [|congruence].
  apply startswith_true. exists (q ++ r). by rewrite <- app_assoc.
Qed.

(** C7, as amended.  When a line opens a paragraph (it is not blank and
    none of the guards of the dispatch chain holds for it), the lines that
    follow it split into the lines absorbed and the lines left to the scan.
    No absorbed line is blank, starts with [#], [-], [>], three backquotes
    or [![], or is [---] once stripped, so that no line the heading,
    divider, quote or code-fence rule matches is absorbed.  The first line
    left, if any, is blank, or matched by one of the rules 1 to 9, or
    starts with [#], [-], [>] or [![]: a line that is not blank, that no
    rule matches and that starts with none of these is absorbed.  The
    paragraph block holds the opening line and the absorbed lines joined
    with single spaces. *)
Theorem paragraph_absorbs (fuel : nat) (h : host) (assets_dir : list (list N))
    (line : list N) (rest : list (list N)) :
  blank line = false →
  rules_1_to_9 h line = false →
  rule_link line = false →
  ∃ absorbed remaining,
    rest = absorbed ++ remaining
    ∧ Forall (λ l, refused l = false
                   ∧ rule_heading l = false ∧ rule_divider l = false
                   ∧ rule_quote l = false ∧ rule_fence l = false) absorbed
    ∧ match remaining with
      | next :: _ =>
          blank next = true ∨ rules_1_to_9 h next = true
          ∨ startswith (py "#") next = true ∨ startswith (py "-") next = true
          ∨ startswith (py ">") next = true ∨ startswith (py "![") next = true
      | [] => True
      end
    ∧ Importer.parse_lines (S fuel) h assets_dir (line :: rest)
      = (rt ← Importer._rich_text (Py.join (py " ") (line :: absorbed));
         blocks ← Importer.parse_lines fuel h assets_dir remaining;
         Some (Importer.Paragraph rt :: blocks)).
Proof.
  intros Hblank Hrules Hlink.
  destruct (Importer.paragraph_lines rest) as [absorbed remaining] eqn:Hpara.
  exists absorbed, remaining.
  destruct (paragraph_lines_spec _ _ _ Hpara) as (Hrest & Hall & Hstop).
  split; [exact Hrest|]. split; [|split].
  - eapply Forall_impl; [exact Hall|]. intros next Hnext. cbv beta in Hnext.
    rewrite continues_paragraph_refused in Hnext.
    apply negb_true_iff in Hnext. split; [done|].
    unfold refused in Hnext.
    repeat (apply orb_false_iff in Hnext as [Hnext ?]).
    unfold rule_heading, rule_quote, rule_fence.
    change (py "# ") with (py "#" ++ py " ").
    change (py "## ") with (py "#" ++ py "# ").
    change (py "### ") with (py "#" ++ py "## ").
    change (py "> ") with (py ">" ++ py " ").
    by rewrite !startswith_longer.
  - destruct remaining as [|next remaining]; [done|].
    rewrite continues_paragraph_refused in Hstop.
    apply negb_false_iff in Hstop. unfold refused in Hstop.
    repeat (apply orb_true_iff in Hstop as [Hstop|Hstop]); try tauto.
    + right. left. unfold rules_1_to_9, rule_fence. rewrite Hstop.
      by rewrite !orb_true_r.
    + right. left. unfold rules_1_to_9. rewrite Hstop.
      by rewrite !orb_true_r.
  - unfold rules_1_to_9 in Hrules.
    repeat (apply orb_false_iff in Hrules as [Hrules ?]).
    unfold rule_heading in Hrules.
    repeat (apply orb_false_iff in Hrules as [Hrules ?]).
    unfold rule_media in *.
    match goal with
    | H : _ || _ = false |- _ => apply orb_false_iff in H as [??]
    end.
    unfold blank, rule_divider, rule_bulleted, rule_numbered, rule_quote,
      rule_fence, rule_table, rule_details, rule_image, rule_link in *.
    destruct (Importer.match_numbered h line) eqn:Hnum; [done|].
    cbn [Importer.parse_lines].
    repeat match goal with
           | H : ?x = false |- context [?x] => rewrite H
           end.
    rewrite Hnum, Hpara.
    destruct (str_eqb (strip (Py.join (py " ") (line :: absorbed))) []) eqn:Hjoin.
    + exfalso. unfold str_eqb in *.
      apply bool_decide_eq_true in Hjoin. apply bool_decide_eq_false in Hblank.
      apply Hblank. apply strip_nil. apply strip_nil in Hjoin.
      destruct (join_first (py " ") line absorbed) as [tail Htail].
      rewrite Htail in Hjoin. by apply Forall_app in Hjoin as [? _].
    + done.
Qed.

Lemma paragraph_absorbs_witness :
  ∃ absorbed remaining,
    [py "1. two"; py "<table>"; py "# Head"] = absorbed ++ remaining
    ∧ Forall (λ l, refused l = false) absorbed
    ∧ Importer.parse_lines 6 ascii_host []
        [py "one"; py "1. two"; py "<table>"; py "# Head"]
      = (rt ← Importer._rich_text (Py.join (py " ") (py "one" :: absorbed));
         blocks ← Importer.parse_lines 5 ascii_host [] remaining;
         Some (Importer.Paragraph rt :: blocks)).
Proof.
  destruct (paragraph_absorbs 5 ascii_host [] (py "one")
              [py "1. two"; py "<table>"; py "# Head"] eq_refl eq_refl eq_refl)
    as (absorbed & remaining & Hrest & Hall & _ & Hparse).
  exists absorbed, remaining. split_and!; [done| |done].
  eapply Forall_impl; [exact Hall|]. by intros l [? _].
Defined.

(** C7, the claim as stated fails in both directions: a numbered-list line
    (rule 3) after an open paragraph is absorbed into it, and a line that
    starts with [#] without being a heading is not absorbed although rules
    1 to 9 do not match it. *)
Lemma paragraph_absorbs_numbered_line :
  rules_1_to_9 ascii_host (py "1. two") = true
  ∧ absorbed_as_claimed ascii_host (py "1. two") = false
  ∧ Importer.continues_paragraph (py "1. two") = true
  ∧ Importer._parse_markdown 5 ascii_host (py "one" ++ nl ++ py "1. two") []
    = Some [Importer.Paragraph [Importer.Segment (py "one 1. two") None None]]
  ∧ Importer._parse_markdown 5 ascii_host (py "1. two") []
    = Some [Importer.Numbered [Importer.Segment (py "two") None None]]
  ∧ absorbed_as_claimed ascii_host (py "#tag") = true
  ∧ Importer.continues_paragraph (py "#tag") = false
  ∧ Importer._parse_markdown 5 ascii_host (py "one" ++ nl ++ py "#tag") []
    = Some [Importer.Paragraph [Importer.Segment (py "one") None None];
            Importer.Paragraph [Importer.Segment (py "#tag") None None]].
Proof. split_and!; vm_compute; reflexivity. Qed.

(** ** The recursive rich-text encoder (importer) *)

Lemma strip_prefix_length p s r :
  strip_prefix p s = Some r → length s = length p + length r.
Proof. intros ->%strip_prefix_Some. apply length_app. Qed.

Lemma lazy_until_length close s inner rest :
  Importer.lazy_until close s = Some (inner, rest) →
  length s = length inner + length close + length rest.
Proof.
  revert inner rest. induction s as [|c s IH]; intros inner rest; cbn.
  - destruct (strip_prefix close []) as [r|] eqn:Hp; [|done].
    intros [= <- <-]. apply strip_prefix_length in Hp. cbn in *. lia.
  - destruct (strip_prefix close (c :: s)) as [r|] eqn:Hp.
    + intros [= <- <-]. apply strip_prefix_length in Hp. cbn in *. lia.
    + destruct (Importer.lazy_until close s) as [[i r]|]; [|done].
      intros [= <- <-]. specialize (IH i r eq_refl). cbn. lia.
Qed.

Lemma lazy_until1_length close s inner rest :
  Importer.lazy_until1 close s = Some (inner, rest) →
  length s = length inner + length close + length rest ∧ 0 < length inner.
Proof.
  destruct s as [|c s]; cbn; [done|].
  destruct (Importer.lazy_until close s) as [[i r]|] eqn:Hl; [|done].
  intros [= <- <-]. apply lazy_until_length in Hl. cbn. lia.
Qed.

Lemma span_not_app x s a b : Importer.span_not x s = (a, b) → s = a ++ b.
Proof.
  revert a b. induction s as [|c s IH]; intros a b; cbn.
  - by intros [= <- <-].
  - destruct (c =? x)%N; [by intros [= <- <-]|].
    destruct (Importer.span_not x s) as [a' b'].
    intros [= <- <-]. by rewrite (IH a' b' eq_refl).
Qed.

Lemma run_not_length x after s v r :
  Importer.run_not x after s = Some (v, r) →
  length s = length v + length after + length r ∧ 0 < length v.
Proof.
  unfold Importer.run_not.
  destruct (Importer.span_not x s) as [a b] eqn:Hs.
  apply span_not_app in Hs as ->.
  destruct a as [|c a]; [done|].
  intros (r' & Hp & [= <- <-])%bind_Some.
  apply strip_prefix_length in Hp. rewrite length_app. cbn in *. lia.
Qed.

Lemma match_span_length prop s css inner remaining :
  Importer.match_span prop s = Some (css, inner, remaining) →
  length inner < length s ∧ length remaining < length s.
Proof.
  unfold Importer.match_span.
  intros (s1 & H1 & H)%bind_Some.
  apply bind_Some in H as ([v s2] & H2 & H).
  apply bind_Some in H as ([i r] & H3 & [= _ <- <-]).
  apply strip_prefix_length in H1. apply run_not_length in H2 as [H2 _].
  apply lazy_until_length in H3. rewrite length_app in H1. cbn in *. lia.
Qed.

Lemma match_tag_length open close s inner remaining :
  open ≠ ""%string →
  Importer.match_tag open close s = Some (inner, remaining) →
  length inner < length s ∧ length remaining < length s.
Proof.
  unfold Importer.match_tag. intros Hopen (s1 & H1 & H)%bind_Some.
  apply strip_prefix_length in H1. apply lazy_until_length in H.
  assert (0 < length (py open)) by (destruct open; [done|cbn; lia]).
  lia.
Qed.

Lemma match_delim_length d s inner remaining :
  d ≠ ""%string →
  Importer.match_delim d s = Some (inner, remaining) →
  length inner < length s ∧ length remaining < length s.
Proof.
  unfold Importer.match_delim. intros Hd (s1 & H1 & H)%bind_Some.
  apply strip_prefix_length in H1. apply lazy_until1_length in H as [H _].
  assert (0 < length (py d)) by (destruct d; [done|cbn; lia]).
  lia.
Qed.

Lemma match_code_length s inner remaining :
  Importer.match_code s = Some (inner, remaining) →
  length inner < length s ∧ length remaining < length s.
Proof.
  unfold Importer.match_code. intros (s1 & H1 & H)%bind_Some.
  apply strip_prefix_length in H1. apply run_not_length in H as [H _].
  cbn in *. lia.
Qed.

Lemma match_link_length s link_text link_url remaining :
  Importer.match_link s = Some (link_text, link_url, remaining) →
  length link_text < length s ∧ length remaining < length s.
Proof.
  unfold Importer.match_link. intros (s1 & H1 & H)%bind_Some.
  apply bind_Some in H as ([t s2] & H2 & H).
  apply bind_Some in H as ([u r] & H3 & [= <- _ <-]).
  apply strip_prefix_length in H1.
  apply run_not_length in H2 as [H2 _]. apply run_not_length in H3 as [H3 _].
  cbn in *. lia.
Qed.

Lemma split_special_app s a b : Importer.split_special s = (a, b) → s = a ++ b.
Proof.
  revert a b. induction s as [|c s IH]; intros a b; cbn.
  - by intros [= <- <-].
  - destruct (Importer.is_special c); [by intros [= <- <-]|].
    destruct (Importer.split_special s) as [a' b'].
    intros [= <- <-]. by rewrite (IH a' b' eq_refl).
Qed.

Lemma split_special_nil c s b :
  Importer.split_special (c :: s) = ([], b) →
  Importer.is_special c = true ∧ b = c :: s.
Proof.
  cbn. destruct (Importer.is_special c); [by intros [= <-]|].
  by destruct (Importer.split_special s).
Qed.

Lemma both_is_Some {A} (x y : option (list A)) :
  is_Some x → is_Some y → is_Some (a ← x; b ← y; Some (a ++ b)).
Proof. intros [a ->] [b ->]. by eexists. Qed.

(** Goes through the pattern tests of one turn of the encoder, naming the
    outcome of each. *)
Ltac encoder_cases text :=
  destruct (Importer.match_span "color" text) as [[[? ?] ?]|] eqn:Ecolor;
  [|destruct (Importer.match_span "background-color" text) as [[[? ?] ?]|] eqn:Ebg;
    [|destruct (Importer.match_tag "<u>" "</u>" text) as [[? ?]|] eqn:Eu;
      [|destruct (Importer.match_delim "***" text) as [[? ?]|] eqn:Ebi;
        [|destruct (Importer.match_delim "**" text) as [[? ?]|] eqn:Eb;
          [|destruct (Importer.match_delim "*" text) as [[? ?]|] eqn:Ei;
            [|destruct (Importer.match_delim "~~" text) as [[? ?]|] eqn:Es;
              [|destruct (Importer.match_code text) as [[? ?]|] eqn:Ec;
                [|destruct (Importer.match_link text) as [[[? ?] ?]|] eqn:El;
                  [|destruct (Importer.split_special text) as [[|? ?] ?] eqn:Ep
                  ]]]]]]]]].

Lemma parse_rich_text_returns fuel :
  ∀ text ann,
    length text ≤ fuel →
    is_Some (Importer._parse_rich_text_recursive fuel text ann).
Proof.
  induction fuel as [|fuel IH]; intros text ann Hlen.
  { destruct text; [by eexists|cbn in Hlen; lia]. }
  destruct text as [|first tail]; [by eexists|].
  cbn [Importer._parse_rich_text_recursive].
  cbn [length] in Hlen.
  encoder_cases (first :: tail).
  - apply match_span_length in Ecolor as [? ?]. cbn [length] in *.
    apply both_is_Some; apply IH; lia.
  - apply match_span_length in Ebg as [? ?]. cbn [length] in *.
    apply both_is_Some; apply IH; lia.
  - apply match_tag_length in Eu as [? ?]; [|done]. cbn [length] in *.
    apply both_is_Some; apply IH; lia.
  - apply match_delim_length in Ebi as [? ?]; [|done]. cbn [length] in *.
    apply both_is_Some; apply IH; lia.
  - apply match_delim_length in Eb as [? ?]; [|done]. cbn [length] in *.
    apply both_is_Some; apply IH; lia.
  - apply match_delim_length in Ei as [? ?]; [|done]. cbn [length] in *.
    apply both_is_Some; apply IH; lia.
  - apply match_delim_length in Es as [? ?]; [|done]. cbn [length] in *.
    apply both_is_Some; apply IH; lia.
  - apply match_code_length in Ec as [? ?]. cbn [length] in *.
    apply both_is_Some; apply IH; lia.
  - apply match_link_length in El as [? ?]. cbn [length] in *.
    match goal with
    | |- is_Some (_ ← Importer._parse_rich_text_recursive fuel ?t ?a; _) =>
        destruct (IH t a ltac:(lia)) as [segs ->]
    end.
    cbn [mbind option_bind].
    match goal with
    | |- is_Some (_ ← Importer._parse_rich_text_recursive fuel ?t ?a; _) =>
        destruct (IH t a ltac:(lia)) as [segs' ->]
    end.
    by eexists.
  - destruct (IH tail ann ltac:(lia)) as [segs ->]. by eexists.
  - apply split_special_app in Ep. apply (f_equal length) in Ep.
    rewrite length_app in Ep. cbn [length] in Ep.
    match goal with
    | |- is_Some (_ ← Importer._parse_rich_text_recursive fuel ?t ?a; _) =>
        destruct (IH t a ltac:(lia)) as [segs ->]
    end.
    by eexists.
Qed.

Lemma parse_rich_text_more_fuel fuel :
  ∀ fuel' text ann segs,
    fuel ≤ fuel' →
    Importer._parse_rich_text_recursive fuel text ann = Some segs →
    Importer._parse_rich_text_recursive fuel' text ann = Some segs.
Proof.
  induction fuel as [|fuel IH]; intros fuel' text ann segs Hle Hrun.
  { destruct text; [by destruct fuel'|done]. }
  destruct text as [|first tail]; [by destruct fuel'|].
  destruct fuel' as [|fuel']; [lia|].
  assert (Hle' : fuel ≤ fuel') by lia.
  cbn [Importer._parse_rich_text_recursive] in *.
  encoder_cases (first :: tail);
    repeat match goal with
           | H : _ ≫= _ = Some _ |- _ =>
               let x := fresh "x" in
               let Hx := fresh "Hx" in
               apply bind_Some in H as (x & Hx & H);
               rewrite (IH fuel' _ _ _ Hle' Hx); cbn [mbind option_bind]
           end;
    done.
Qed.

(** C6.  The recursive rich-text encoder terminates on every input string:
    with fuel for as many nested calls as the text has characters it
    returns, and more fuel does not change what it returns.  Every
    formatting pattern hands strictly shorter texts to the recursive calls.
    When the text begins with a special character and no formatting
    pattern matches, that character is emitted as a one-character literal
    segment and the scan goes on one character further. *)
Theorem parse_rich_text_terminates (text : list N) (ann : Importer.annotations) :
  (∃ segs,
     Importer._parse_rich_text_recursive (length text) text ann = Some segs
     ∧ ∀ fuel, length text ≤ fuel →
               Importer._parse_rich_text_recursive fuel text ann = Some segs)
  ∧ (∀ prop css inner remaining,
       Importer.match_span prop text = Some (css, inner, remaining) →
       length inner < length text ∧ length remaining < length text)
  ∧ (∀ inner remaining,
       Importer.match_tag "<u>" "</u>" text = Some (inner, remaining)
       ∨ Importer.match_delim "***" text = Some (inner, remaining)
       ∨ Importer.match_delim "**" text = Some (inner, remaining)
       ∨ Importer.match_delim "*" text = Some (inner, remaining)
       ∨ Importer.match_delim "~~" text = Some (inner, remaining)
       ∨ Importer.match_code text = Some (inner, remaining) →
       length inner < length text ∧ length remaining < length text)
  ∧ (∀ link_text link_url remaining,
       Importer.match_link text = Some (link_text, link_url, remaining) →
       length link_text < length text ∧ length remaining < length text)
  ∧ (∀ plain_text rest,
       Importer.split_special text = (plain_text, rest) →
       plain_text ≠ [] → length rest < length text)
  ∧ (∀ first tail fuel,
       text = first :: tail →
       Importer.is_special first = true →
       no_pattern text →
       Importer._parse_rich_text_recursive (S fuel) text ann
       = (segs ← Importer._parse_rich_text_recursive fuel tail ann;
          Some (Importer.plain_segment [first] ann :: segs))).
Proof.
  split_and!.
  - destruct (parse_rich_text_returns (length text) text ann (le_n _)) as [segs Hsegs].
    exists segs. split; [done|]. intros fuel Hfuel.
    by apply (parse_rich_text_more_fuel (length text)).
  - intros prop css inner remaining. apply match_span_length.
  - intros inner remaining [H|[H|[H|[H|[H|H]]]]].
    + by apply match_tag_length in H.
    + by apply match_delim_length in H.
    + by apply match_delim_length in H.
    + by apply match_delim_length in H.
    + by apply match_delim_length in H.
    + by apply match_code_length in H.
  - intros link_text link_url remaining. apply match_link_length.
  - intros plain_text rest Hsplit Hne.
    apply split_special_app in Hsplit as ->. rewrite length_app.
    destruct plain_text; [done|cbn; lia].
  - intros first tail fuel -> Hspecial
      (H1 & H2 & H3 & H4 & H5 & H6 & H7 & H8 & H9).
    cbn [Importer._parse_rich_text_recursive].
    rewrite H1, H2, H3, H4, H5, H6, H7, H8, H9.
    cbn [Importer.split_special]. by rewrite Hspecial.
Qed.

Lemma parse_rich_text_terminates_witness :
  Importer._parse_rich_text_recursive 4 (py "*a b") Importer.no_annotations
  = (segs ← Importer._parse_rich_text_recursive 3 (py "a b") Importer.no_annotations;
     Some (Importer.plain_segment [42%N] Importer.no_annotations :: segs)).
Proof.
  destruct (parse_rich_text_terminates (py "*a b") Importer.no_annotations)
    as (_ & _ & _ & _ & _ & Hstep).
  apply (Hstep 42%N (py "a b") 3 eq_refl eq_refl).
  unfold no_pattern. by split_and!; vm_compute.
Defined.

(** ** Round trip of annotated text (exporter decoder, importer encoder) *)

Lemma color_table_entries k css :
  Exporter.table_get Exporter.COLOR_MAP k = Some css →
  color_entry_ok k css = true.
Proof.
  unfold Exporter.COLOR_MAP. cbn [Exporter.table_get].
  repeat match goal with
         | |- (if str_eqb k ?x then _ else _) = _ → _ =>
             destruct (str_eqb k x) eqn:E;
             [apply bool_decide_eq_true in E; subst k; intros [= <-];
              vm_compute; reflexivity
             |clear E]
         end.
  done.
Qed.

Lemma parse_nil fuel ann :
  Importer._parse_rich_text_recursive fuel [] ann = Some [].
Proof. by destruct fuel. Qed.

Lemma special_head_mismatch x c p s :
  Importer.is_special x = true → Importer.is_special c = false →
  strip_prefix (x :: p) (c :: s) = None.
Proof.
  intros Hx Hc. cbn. destruct (N.eqb_spec x c) as [->|]; [congruence|done].
Qed.

Lemma no_pattern_plain c s : Importer.is_special c = false → no_pattern (c :: s).
Proof.
  intros Hc. unfold no_pattern, Importer.match_span, Importer.match_tag,
    Importer.match_delim, Importer.match_code, Importer.match_link.
  change (py "<span style=" ++ dq ++ py "color" ++ py ":")
    with (60%N :: py "span style=" ++ dq ++ py "color" ++ py ":").
  change (py "<span style=" ++ dq ++ py "background-color" ++ py ":")
    with (60%N :: py "span style=" ++ dq ++ py "background-color" ++ py ":").
  change (py "<u>") with (60%N :: py "u>").
  change (py "***") with (42%N :: py "**").
  change (py "**") with (42%N :: py "*").
  change (py "*") with (42%N :: []).
  change (py "~~") with (126%N :: py "~").
  change (py "`") with (96%N :: []).
  change (py "[") with (91%N :: []).
  by rewrite !special_head_mismatch.
Qed.

Lemma split_special_plain t :
  Forall (λ x, Importer.is_special x = false) t →
  Importer.split_special t = (t, []).
Proof.
  induction 1 as [|c t Hc _ IH]; cbn; [done|]. by rewrite Hc, IH.
Qed.

Lemma parse_plain fuel t ann :
  t ≠ [] → Forall (λ x, Importer.is_special x = false) t →
  Importer._parse_rich_text_recursive (S fuel) t ann
  = Some [Importer.plain_segment t ann].
Proof.
  intros Hne Hall. destruct t as [|c t]; [done|].
  pose proof (split_special_plain _ Hall) as Hsplit.
  apply Forall_cons in Hall as [Hc _].
  destruct (no_pattern_plain c t Hc) as (H1 & H2 & H3 & H4 & H5 & H6 & H7 & H8 & H9).
  cbn [Importer._parse_rich_text_recursive].
  rewrite H1, H2, H3, H4, H5, H6, H7, H8, H9, Hsplit.
  by rewrite parse_nil.
Qed.

Lemma span_not_sep x a b :
  x ∉ a → Importer.span_not x (a ++ x :: b) = (a, x :: b).
Proof.
  induction a as [|c a IH]; intros Hx; cbn.
  - by rewrite N.eqb_refl.
  - apply not_elem_of_cons in Hx as [Hne Hx].
    destruct (N.eqb_spec c x) as [->|_]; [done|]. by rewrite IH.
Qed.

Lemma lazy_until_clean x cl inner rest :
  x ∉ inner →
  Importer.lazy_until (x :: cl) (inner ++ x :: cl ++ rest) = Some (inner, rest).
Proof.
  induction inner as [|c inner IH]; intros Hx.
  - cbn [app Importer.lazy_until].
    change (x :: cl ++ rest) with ((x :: cl) ++ rest).
    by rewrite strip_prefix_app.
  - apply not_elem_of_cons in Hx as [Hne Hx].
    change ((c :: inner) ++ x :: cl ++ rest) with (c :: (inner ++ x :: cl ++ rest)).
    cbn [Importer.lazy_until strip_prefix].
    destruct (N.eqb_spec x c) as [->|_]; [done|]. by rewrite IH.
Qed.

Lemma parses_to_plain t ann :
  t ≠ [] → Forall (λ x, Importer.is_special x = false) t →
  parses_to t ann [Importer.plain_segment t ann].
Proof.
  intros Hne Hall. exists 1. intros [|fuel] Hle; [lia|]. by apply parse_plain.
Qed.

Lemma strip_prefix_mismatch p x q c s :
  x ≠ c → strip_prefix (p ++ x :: q) (p ++ c :: s) = None.
Proof.
  intros Hne. induction p as [|a p IH]; cbn.
  - by destruct (N.eqb_spec x c).
  - by rewrite N.eqb_refl.
Qed.

(** The patterns tried before the code pattern do not open with a
    backquote, and those tried before the emphasis patterns do not open
    with a star. *)
Lemma before_code s :
  Importer.match_span "color" (96%N :: s) = None
  ∧ Importer.match_span "background-color" (96%N :: s) = None
  ∧ Importer.match_tag "<u>" "</u>" (96%N :: s) = None
  ∧ Importer.match_delim "***" (96%N :: s) = None
  ∧ Importer.match_delim "**" (96%N :: s) = None
  ∧ Importer.match_delim "*" (96%N :: s) = None
  ∧ Importer.match_delim "~~" (96%N :: s) = None.
Proof. by split_and!. Qed.

Lemma before_emphasis s :
  Importer.match_span "color" (42%N :: s) = None
  ∧ Importer.match_span "background-color" (42%N :: s) = None
  ∧ Importer.match_tag "<u>" "</u>" (42%N :: s) = None.
Proof. by split_and!. Qed.

Lemma match_code_wrap t rest :
  t ≠ [] → 96%N ∉ t →
  Importer.match_code (py "`" ++ t ++ py "`" ++ rest) = Some (t, rest).
Proof.
  intros Hne Ht. unfold Importer.match_code. rewrite strip_prefix_app.
  cbn [mbind option_bind]. unfold Importer.run_not.
  change (py "`" ++ rest) with (96%N :: rest).
  rewrite span_not_sep by done. destruct t as [|c t]; [done|].
  change (96%N :: rest) with (py "`" ++ rest). by rewrite strip_prefix_app.
Qed.

Lemma match_delim_wrap (d : string) cl w rest :
  py d = 42%N :: cl → w ≠ [] → 42%N ∉ w →
  Importer.match_delim d (py d ++ w ++ py d ++ rest) = Some (w, rest).
Proof.
  intros Hd Hne Hw. unfold Importer.match_delim. rewrite strip_prefix_app.
  cbn [mbind option_bind]. destruct w as [|c w]; [done|].
  apply not_elem_of_cons in Hw as [_ Hw].
  rewrite Hd. change ((c :: w) ++ (42%N :: cl) ++ rest) with (c :: (w ++ 42%N :: cl ++ rest)).
  unfold Importer.lazy_until1. by rewrite lazy_until_clean.
Qed.

Lemma parses_to_code t ann r :
  t ≠ [] → 96%N ∉ t →
  parses_to t
    (Importer.Annotations (Importer.bold ann) (Importer.italic ann)
       (Importer.strikethrough ann) (Importer.underline ann) true
       (Importer.color ann)) r →
  parses_to (py "`" ++ t ++ py "`") ann r.
Proof.
  intros Hne Ht [enough Hr]. exists (S enough). intros [|fuel] Hle; [lia|].
  pose proof (match_code_wrap t [] Hne Ht) as Hcode.
  rewrite app_nil_r in Hcode.
  change (py "`" ++ t ++ py "`") with (96%N :: t ++ py "`") in *.
  destruct (before_code (t ++ py "`")) as (H1 & H2 & H3 & H4 & H5 & H6 & H7).
  cbn [Importer._parse_rich_text_recursive].
  rewrite H1, H2, H3, H4, H5, H6, H7, Hcode.
  rewrite Hr by lia. rewrite parse_nil. cbn. by rewrite app_nil_r.
Qed.

Lemma parses_to_bold_italic w ann r :
  head w ≠ Some 42%N → w ≠ [] → 42%N ∉ w →
  parses_to w
    (Importer.Annotations true true (Importer.strikethrough ann)
       (Importer.underline ann) (Importer.code ann) (Importer.color ann)) r →
  parses_to (py "***" ++ w ++ py "***") ann r.
Proof.
  intros _ Hne Hw [enough Hr]. exists (S enough). intros [|fuel] Hle; [lia|].
  pose proof (match_delim_wrap "***" _ w [] eq_refl Hne Hw) as Hm.
  rewrite app_nil_r in Hm.
  change (py "***" ++ w ++ py "***") with (42%N :: py "**" ++ w ++ py "***") in *.
  destruct (before_emphasis (py "**" ++ w ++ py "***")) as (H1 & H2 & H3).
  cbn [Importer._parse_rich_text_recursive].
  rewrite H1, H2, H3, Hm.
  rewrite Hr by lia. rewrite parse_nil. cbn. by rewrite app_nil_r.
Qed.

Lemma parses_to_bold w ann r :
  head w ≠ Some 42%N → w ≠ [] → 42%N ∉ w →
  parses_to w
    (Importer.Annotations true (Importer.italic ann) (Importer.strikethrough ann)
       (Importer.underline ann) (Importer.code ann) (Importer.color ann)) r →
  parses_to (py "**" ++ w ++ py "**") ann r.
Proof.
  intros Hhead Hne Hw [enough Hr]. exists (S enough). intros [|fuel] Hle; [lia|].
  pose proof (match_delim_wrap "**" _ w [] eq_refl Hne Hw) as Hm.
  rewrite app_nil_r in Hm.
  assert (Importer.match_delim "***" (py "**" ++ w ++ py "**") = None) as H4.
  { destruct w as [|c w]; [done|]. unfold Importer.match_delim.
    change (py "***") with (py "**" ++ 42%N :: []).
    change (py "**" ++ (c :: w) ++ py "**") with (py "**" ++ c :: (w ++ py "**")).
    rewrite strip_prefix_mismatch; [done|]. cbn in Hhead. congruence. }
  change (py "**" ++ w ++ py "**") with (42%N :: py "*" ++ w ++ py "**") in *.
  destruct (before_emphasis (py "*" ++ w ++ py "**")) as (H1 & H2 & H3).
  cbn [Importer._parse_rich_text_recursive].
  rewrite H1, H2, H3, H4, Hm.
  rewrite Hr by lia. rewrite parse_nil. cbn. by rewrite app_nil_r.
Qed.

Lemma parses_to_italic w ann r :
  head w ≠ Some 42%N → w ≠ [] → 42%N ∉ w →
  parses_to w
    (Importer.Annotations (Importer.bold ann) true (Importer.strikethrough ann)
       (Importer.underline ann) (Importer.code ann) (Importer.color ann)) r →
  parses_to (py "*" ++ w ++ py "*") ann r.
Proof.
  intros Hhead Hne Hw [enough Hr]. exists (S enough). intros [|fuel] Hle; [lia|].
  pose proof (match_delim_wrap "*" _ w [] eq_refl Hne Hw) as Hm.
  rewrite app_nil_r in Hm.
  assert (Importer.match_delim "***" (py "*" ++ w ++ py "*") = None
          ∧ Importer.match_delim "**" (py "*" ++ w ++ py "*") = None) as [H4 H5].
  { destruct w as [|c w]; [done|]. unfold Importer.match_delim.
    change (py "***") with (py "*" ++ 42%N :: py "*").
    change (py "**") with (py "*" ++ 42%N :: []).
    change (py "*" ++ (c :: w) ++ py "*") with (py "*" ++ c :: (w ++ py "*")).
    rewrite !strip_prefix_mismatch; [done|cbn in Hhead; congruence..]. }
  change (py "*" ++ w ++ py "*") with (42%N :: w ++ py "*") in *.
  destruct (before_emphasis (w ++ py "*")) as (H1 & H2 & H3).
  cbn [Importer._parse_rich_text_recursive].
  rewrite H1, H2, H3, H4, H5, Hm.
  rewrite Hr by lia. rewrite parse_nil. cbn. by rewrite app_nil_r.
Qed.

Lemma color_entry_facts k css :
  Exporter.table_get Exporter.COLOR_MAP k = Some css →
  k ≠ [] ∧ k ≠ py "default"
  ∧ Importer.table_get Importer.CSS_TO_NOTION_COLOR css = Some k
  ∧ css ≠ [] ∧ (34%N ∉ css) ∧ strip (32%N :: css) = css.
Proof.
  intros Hk. pose proof (color_table_entries k css Hk) as Hok.
  unfold color_entry_ok, str_eqb in Hok.
  rewrite !andb_true_iff, !negb_true_iff in Hok.
  rewrite !bool_decide_eq_false, !bool_decide_eq_true in Hok.
  tauto.
Qed.

Lemma match_span_wrap (prop : string) css w rest :
  34%N ∉ css → 60%N ∉ w →
  Importer.match_span prop
    (py "<span style=" ++ dq ++ py prop ++ py ": " ++ css ++ dq ++ py ">"
     ++ w ++ py "</span>" ++ rest)
  = Some (strip (32%N :: css), w, rest).
Proof.
  intros Hcss Hw. unfold Importer.match_span.
  assert (py "<span style=" ++ dq ++ py prop ++ py ": " ++ css ++ dq ++ py ">"
          ++ w ++ py "</span>" ++ rest
          = (py "<span style=" ++ dq ++ py prop ++ py ":")
            ++ (32%N :: css) ++ 34%N :: (py ">" ++ w ++ py "</span>" ++ rest))
    as -> by (by rewrite <- !app_assoc).
  rewrite strip_prefix_app. cbn [mbind option_bind].
  unfold Importer.run_not. rewrite span_not_sep.
  2:{ apply not_elem_of_cons. by split. }
  change (34%N :: (py ">" ++ w ++ py "</span>" ++ rest))
    with ((dq ++ py ">") ++ w ++ py "</span>" ++ rest).
  rewrite strip_prefix_app. cbn [mbind option_bind app].
  change (py "</span>" ++ rest) with (60%N :: py "/span>" ++ rest).
  change (py "</span>") with (60%N :: py "/span>").
  by rewrite lazy_until_clean.
Qed.

Lemma parses_to_color st k css w ann r :
  Exporter.highlight_color st = Some k →
  Exporter.table_get Exporter.COLOR_MAP k = Some css →
  60%N ∉ w →
  parses_to w (Importer.with_color ann k) r →
  parses_to (Exporter.apply_color true st w) ann r.
Proof.
  intros Hst Hk Hw [enough Hr]. exists (S enough). intros [|fuel] Hle; [lia|].
  destruct (color_entry_facts k css Hk) as (_ & _ & Hback & _ & H34 & Hstrip).
  unfold Exporter.apply_color. rewrite Hst, Hk.
  assert (∃ prop : string,
    (if contains (py "_background") k
     then py "<span style=" ++ dq ++ py "background-color: " ++ css
          ++ dq ++ py ">" ++ w ++ py "</span>"
     else py "<span style=" ++ dq ++ py "color: " ++ css
          ++ dq ++ py ">" ++ w ++ py "</span>")
    = 60%N :: (py "span style=" ++ dq ++ py prop ++ py ": " ++ css ++ dq ++ py ">"
       ++ w ++ py "</span>" ++ [])
    ∧ (prop = "color"%string ∨ prop = "background-color"%string))
    as (prop & -> & Hprop).
  { destruct (contains _ _); [exists "background-color"%string|exists "color"%string];
      (split; [by rewrite app_nil_r|tauto]). }
  pose proof (match_span_wrap prop css w [] H34 Hw) as Hm.
  change (py "<span style=" ++ ?x) with (60%N :: (py "span style=" ++ x)) in Hm.
  cbn [Importer._parse_rich_text_recursive].
  destruct Hprop as [-> | ->].
  - rewrite Hm, Hstrip, Hback. cbn [default]. rewrite Hr by lia.
    rewrite parse_nil. cbn. by rewrite app_nil_r.
  - assert (Importer.match_span "color"
              (60%N :: py "span style=" ++ dq ++ py "background-color" ++ py ": "
               ++ css ++ dq ++ py ">" ++ w ++ py "</span>" ++ []) = None) as -> by done.
    rewrite Hm, Hstrip, Hback. cbn [default]. rewrite Hr by lia.
    rewrite parse_nil. cbn. by rewrite app_nil_r.
Qed.

Ltac eval_str_eqb :=
  repeat match goal with
         | |- context [str_eqb (py ?a) (py ?b)] =>
             let v := eval vm_compute in (str_eqb (py a) (py b)) in
             change (str_eqb (py a) (py b)) with v
         end.

Lemma annotate_b net cache t b i s c u l h :
  Exporter.annotate net cache (Exporter.Flags t b i s c u l h) (Ann (py "b"))
  = Some (Exporter.Flags t true i s c u l h).
Proof. reflexivity. Qed.

Lemma annotate_i net cache t b i s c u l h :
  Exporter.annotate net cache (Exporter.Flags t b i s c u l h) (Ann (py "i"))
  = Some (Exporter.Flags t b true s c u l h).
Proof. reflexivity. Qed.

Lemma annotate_c net cache t b i s c u l h :
  Exporter.annotate net cache (Exporter.Flags t b i s c u l h) (Ann (py "c"))
  = Some (Exporter.Flags t b i s true u l h).
Proof. reflexivity. Qed.

Lemma annotate_h net cache t b i s c u l h k :
  k ≠ [] → k ≠ py "default" →
  Exporter.annotate net cache (Exporter.Flags t b i s c u l h) (AnnArg (py "h") k)
  = Some (Exporter.Flags t b i s c u l (Some k)).
Proof.
  intros H1 H2. unfold Exporter.annotate. cbv beta iota zeta. eval_str_eqb.
  cbv beta iota zeta. cbn [andb].
  unfold str_eqb. by rewrite !bool_decide_eq_false_2.
Qed.

Lemma known_color_entry k :
  is_Some (Exporter.table_get Exporter.COLOR_MAP k) → k ≠ [] ∧ k ≠ py "default".
Proof.
  intros [css Hk]. destruct (color_entry_facts k css Hk) as (? & ? & _). done.
Qed.

Lemma annotate_all_of net cache t b i c col :
  known_color col →
  Exporter.annotate_all net cache
    (Exporter.Flags t false false false false false None None)
    (annotations_of b i c col)
  = Some (Exporter.Flags t b i false c false None col).
Proof.
  intros Hcol. unfold annotations_of.
  destruct col as [k|];
    [destruct (known_color_entry k Hcol) as [Hk1 Hk2]|];
    destruct b, i, c; cbn [app Exporter.annotate_all];
    rewrite ?annotate_b; cbn [mbind option_bind Exporter.annotate_all];
    rewrite ?annotate_i; cbn [mbind option_bind Exporter.annotate_all];
    rewrite ?annotate_c; cbn [mbind option_bind Exporter.annotate_all];
    rewrite ?annotate_h by done; reflexivity.
Qed.

Lemma plain_run_chars t :
  Forall (λ x, Importer.is_special x = false) t →
  (42%N ∉ t) ∧ (60%N ∉ t) ∧ (96%N ∉ t).
Proof.
  intros Hall. rewrite Forall_forall in Hall.
  split_and!; intros Hin; by apply Hall in Hin.
Qed.

Lemma plain_run_spaces t :
  plain_run t →
  Exporter.split_leading_space t = ([], t)
  ∧ Exporter.split_trailing_space t = ([], t).
Proof.
  intros (Hne & _ & Hhead & Hlast). split.
  - destruct t as [|x t]; [done|]. cbn in *.
    destruct (N.eqb_spec x 32) as [->|]; done.
  - unfold Exporter.split_trailing_space. destruct (last t) as [x|]; [|done].
    destruct (N.eqb_spec x 32) as [->|]; done.
Qed.

Lemma render_run net cache t b i c col :
  plain_run t → known_color col →
  Exporter._rich_text_to_markdown net cache true [Part t (annotations_of b i c col)]
  = Some (Exporter.apply_color true
            (Exporter.Flags t b i false c false None col)
            (Exporter.apply_formatting
               (Exporter.Flags t b i false c false None col) t)).
Proof.
  intros Hrun Hcol. destruct (plain_run_spaces t Hrun) as [Hl Ht].
  cbn [Exporter._rich_text_to_markdown]. unfold Exporter.part_to_markdown.
  cbn [p_text p_anns]. rewrite annotate_all_of by done.
  cbn [mbind option_bind Exporter.text]. rewrite Hl, Ht.
  cbn [app mbind option_bind]. by rewrite !app_nil_r.
Qed.

Lemma wrapped_notin (x : N) a w b :
  bool_decide (x ∈ a) = false → x ∉ w → bool_decide (x ∈ b) = false →
  x ∉ a ++ w ++ b.
Proof.
  rewrite !bool_decide_eq_false, !elem_of_app. tauto.
Qed.

Lemma formatting_parses t b i c col colr :
  plain_run t →
  parses_to
    (Exporter.apply_formatting (Exporter.Flags t b i false c false None col) t)
    (Importer.Annotations false false false false false colr)
    [Importer.plain_segment t (Importer.Annotations b i false false c colr)]
  ∧ 60%N ∉ Exporter.apply_formatting (Exporter.Flags t b i false c false None col) t.
Proof.
  intros (Hne & Hall & _ & _).
  destruct (plain_run_chars t Hall) as (H42 & H60 & H96).
  assert (head t ≠ Some 42%N) as Hhead.
  { destruct t as [|x t]; [done|]. cbn. intros [= ->]. apply H42. left. }
  unfold Exporter.apply_formatting.
  destruct t as [|x t'] eqn:Et; [done|]. rewrite <- Et in *. clear Et x t'.
  cbn [Exporter.is_code Exporter.is_bold Exporter.is_italic
       Exporter.is_strikethrough Exporter.is_underline Exporter.link_url truthy].
  set (w := if c then py "`" ++ t ++ py "`" else t).
  assert (w ≠ [] ∧ head w ≠ Some 42%N ∧ (42%N ∉ w) ∧ (60%N ∉ w)
          ∧ ∀ bb ii, parses_to w
              (Importer.Annotations bb ii false false false colr)
              [Importer.plain_segment t
                 (Importer.Annotations bb ii false false c colr)])
    as (Hw & Hwhead & Hw42 & Hw60 & Hwp).
  { subst w. destruct c.
    - split_and!; [done|done|by apply wrapped_notin..|].
      intros bb ii. apply parses_to_code; [done..|].
      by apply parses_to_plain.
    - split_and!; [done..|]. intros bb ii. by apply parses_to_plain. }
  clearbody w.
  destruct b, i; cbn [andb].
  - split; [by apply parses_to_bold_italic|by apply wrapped_notin].
  - split; [by apply parses_to_bold|by apply wrapped_notin].
  - split; [by apply parses_to_italic|by apply wrapped_notin].
  - split; [apply Hwp|done].
Qed.

(** C1, as amended.  A text run that is not empty, holds none of the
    characters [<], [*], [~], backquote and [[], and neither starts nor ends
    with a space, carrying any combination of bold, italic and code and
    possibly a color of the fixed table, is rendered by the exporter's
    decoder to a text that the importer's encoder, given fuel for the
    length of that text, parses to the one segment with the same text and
    the same annotation set. *)
Theorem render_then_parse_plain_run (net : remote)
    (cache : gmap (list N) (list N)) (t : list N) (b i c : bool)
    (col : option (list N)) :
  plain_run t → known_color col →
  ∃ md,
    Exporter._rich_text_to_markdown net cache true
      [Part t (annotations_of b i c col)] = Some md
    ∧ ∀ fuel, length md ≤ fuel →
        Importer._parse_rich_text_recursive fuel md Importer.no_annotations
        = Some [Importer.plain_segment t
                  (Importer.Annotations b i false false c col)].
Proof.
  intros Hrun Hcol. eexists. split; [by apply render_run|].
  set (st := Exporter.Flags t b i false c false None col).
  assert (parses_to (Exporter.apply_color true st (Exporter.apply_formatting st t))
            Importer.no_annotations
            [Importer.plain_segment t
               (Importer.Annotations b i false false c col)])
    as [enough Hparse].
  { destruct col as [k|].
    - destruct Hcol as [css Hk].
      destruct (formatting_parses t b i c (Some k) (Some k) Hrun) as [Hp H60].
      by eapply parses_to_color.
    - destruct (formatting_parses t b i c None None Hrun) as [Hp _].
      exact Hp. }
  intros fuel Hlen.
  destruct (parse_rich_text_returns fuel _ Importer.no_annotations Hlen)
    as [segs Hsegs].
  pose proof (parse_rich_text_more_fuel fuel (fuel `max` enough) _ _ _
                ltac:(lia) Hsegs) as Hmore.
  rewrite Hparse in Hmore by lia. congruence.
Qed.

Lemma render_then_parse_plain_run_witness :
  plain_run (py "hi there") ∧ known_color (Some (py "red"))
  ∧ ∃ md,
      Exporter._rich_text_to_markdown offline ∅ true
        [Part (py "hi there") (annotations_of true false true (Some (py "red")))]
      = Some md
      ∧ Importer._parse_rich_text_recursive (length md) md Importer.no_annotations
        = Some [Importer.plain_segment (py "hi there")
                  (Importer.Annotations true false false false true
                     (Some (py "red")))].
Proof.
  assert (plain_run (py "hi there")) as Hrun.
  { unfold plain_run. split_and!; [done| |done|done].
    apply Forall_forall. intros x Hx. vm_compute in Hx.
    repeat (apply elem_of_cons in Hx as [->|Hx]; [reflexivity|]).
    by apply elem_of_nil in Hx. }
  assert (known_color (Some (py "red"))) as Hcol by (by eexists).
  split_and!; [done..|].
  destruct (render_then_parse_plain_run offline ∅ (py "hi there")
              true false true (Some (py "red")) Hrun Hcol) as (md & Hmd & Hp).
  exists md. split; [done|]. by apply Hp.
Defined.

Lemma leading_space_loses_annotations :
  Exporter._rich_text_to_markdown offline ∅ true
    [Part (py " hi") (annotations_of true true false None)]
  = Some (py " ***hi***")
  ∧ Importer._parse_rich_text_recursive 9 (py " ***hi***") Importer.no_annotations
    = Some [Importer.Segment (py " ") None None;
            Importer.Segment (py "hi")
              (Some (Importer.Annotations true true false false false None)) None]
  ∧ annotated_chars
      [Importer.Segment (py " ") None None;
       Importer.Segment (py "hi")
         (Some (Importer.Annotations true true false false false None)) None]
    ≠ annotated_chars
        [Importer.Segment (py " hi")
           (Some (Importer.Annotations true true false false false None)) None].
Proof. split_and!; [by vm_compute..|]. vm_compute. discriminate. Qed.

(** * Further properties of the two programs *)

(** ** The identifier normalisers *)

Lemma re_search_Some {A} (m : list N → option A) s r :
  re_search m s = Some r → ∃ t, t `suffix_of` s ∧ m t = Some r.
Proof.
  induction s as [|c s IH]; cbn.
  - destruct (m []) eqn:Hm; [|done]. intros [= <-]. by exists [].
  - destruct (m (c :: s)) eqn:Hm.
    + intros [= <-]. by exists (c :: s).
    + intros (t & Ht & Hr)%IH. exists t. split; [|done].
      by apply suffix_cons_r.
Qed.

Lemma is_lower_hex_lower c : is_hex c = true → is_lower_hex (lower_char c) = true.
Proof.
  unfold is_hex, is_lower_hex, is_ascii_digit, lower_char. intros H.
  destruct ((65 <=? c)%N && (c <=? 90)%N) eqn:Hup.
  - apply andb_true_iff in Hup as [?%N.leb_le ?%N.leb_le].
    rewrite !orb_true_iff, !andb_true_iff, !N.leb_le in *. lia.
  - apply andb_false_iff in Hup.
    rewrite !orb_true_iff, !andb_true_iff, !N.leb_le in *.
    rewrite !N.leb_gt in Hup. lia.
Qed.

Lemma is_lower_hex_fixed c : is_lower_hex c = true → lower_char c = c ∧ is_hex c = true.
Proof.
  unfold is_hex, is_lower_hex, is_ascii_digit, lower_char. intros H.
  rewrite !orb_true_iff, !andb_true_iff, !N.leb_le in *.
  destruct ((65 <=? c)%N && (c <=? 90)%N) eqn:Hup.
  - apply andb_true_iff in Hup as [?%N.leb_le ?%N.leb_le]. lia.
  - split; [done|lia].
Qed.

Lemma lower_hex_string_lower n s : hex_string n s → lower_hex_string n (lower s).
Proof.
  intros [Hlen Hall]. unfold lower. split; [by rewrite length_fmap|].
  apply Forall_fmap. eapply Forall_impl; [exact Hall|].
  intros c Hc. by apply is_lower_hex_lower.
Qed.

Lemma lower_hex_string_fixed n s :
  lower_hex_string n s → lower s = s ∧ hex_string n s.
Proof.
  intros [Hlen Hall]. split; [|split; [done|]].
  - clear Hlen. induction Hall as [|c s Hc _ IH]; [done|].
    cbn. f_equal; [by apply is_lower_hex_fixed|exact IH].
  - eapply Forall_impl; [exact Hall|]. intros c Hc. by apply is_lower_hex_fixed.
Qed.

Lemma canonical_id_lower a b c d e :
  hex_string 8 a → hex_string 4 b → hex_string 4 c → hex_string 4 d →
  hex_string 12 e → canonical_id (lower (hyphenated a b c d e)).
Proof.
  intros. rewrite lower_hyphenated.
  exists (lower a), (lower b), (lower c), (lower d), (lower e).
  split_and!; by try apply lower_hex_string_lower.
Qed.

Lemma hex_string_split raw :
  hex_string 32 raw →
  ∃ a b c d e,
    hex_string 8 a ∧ hex_string 4 b ∧ hex_string 4 c ∧ hex_string 4 d
    ∧ hex_string 12 e ∧ raw = a ++ b ++ c ++ d ++ e.
Proof.
  intros [Hlen Hall].
  exists (take 8 raw), (take 4 (drop 8 raw)), (take 4 (drop 12 raw)),
    (take 4 (drop 16 raw)), (drop 20 raw).
  assert (∀ k n, k + n ≤ 32 → hex_string n (take n (drop k raw))) as Hpiece.
  { intros k n Hk. split.
    - rewrite length_take, length_drop. lia.
    - by apply Forall_take, Forall_drop. }
  split_and!.
  - apply (Hpiece 0 8). lia.
  - apply (Hpiece 8 4). lia.
  - apply (Hpiece 12 4). lia.
  - apply (Hpiece 16 4). lia.
  - split; [rewrite length_drop; lia|by apply Forall_drop].
  - rewrite <- (take_drop 8 raw) at 1. f_equal.
    rewrite <- (take_drop 4 (drop 8 raw)) at 1. f_equal. rewrite drop_drop.
    rewrite <- (take_drop 4 (drop (8 + 4) raw)) at 1. f_equal. rewrite drop_drop.
    rewrite <- (take_drop 4 (drop (8 + 4 + 4) raw)) at 1. f_equal.
    by rewrite drop_drop.
Qed.

Lemma canonical_id_hyphenate raw :
  hex_string 32 raw → canonical_id (hyphenate (lower raw)).
Proof.
  intros Hraw.
  destruct (hex_string_split raw Hraw) as (a & b & c & d & e & Ha & Hb & Hc & Hd & He & ->).
  rewrite !lower_app.
  rewrite hyphenate_groups by (by apply hex_string_lower).
  rewrite <- lower_hyphenated. by apply canonical_id_lower.
Qed.

Lemma search_uuid_canonical s u :
  re_search match_uuid s = Some u → canonical_id (lower u).
Proof.
  intros (t & _ & Hm)%re_search_Some. unfold match_uuid in Hm.
  destruct (eat_uuid t) as [[u' r]|] eqn:Hu; [|done]. injection Hm as <-.
  apply eat_uuid_Some in Hu as (a & b & c & d & e & ? & ? & ? & ? & ? & -> & _).
  by apply canonical_id_lower.
Qed.

Lemma search_json_canonical s u :
  re_search match_page_id_json s = Some u → canonical_id (lower u).
Proof.
  intros (t & _ & Hm)%re_search_Some. unfold match_page_id_json in Hm.
  repeat match type of Hm with
         | (?x ≫= _) = Some _ =>
             let E := fresh "E" in
             destruct x as [[]|] eqn:E; cbn [mbind option_bind] in Hm; [|done]
         | (?x ≫= _) = Some _ =>
             let E := fresh "E" in
             destruct x eqn:E; cbn [mbind option_bind] in Hm; [|done]
         end.
  injection Hm as <-.
  match goal with
  | H : eat_uuid _ = Some _ |- _ =>
      apply eat_uuid_Some in H as (a & b & c & d & e & ? & ? & ? & ? & ? & -> & _)
  end.
  by apply canonical_id_lower.
Qed.

Lemma search_hex32_canonical s raw :
  re_search match_hex32 s = Some raw → canonical_id (hyphenate (lower raw)).
Proof.
  intros (t & _ & Hm)%re_search_Some. unfold match_hex32 in Hm.
  destruct (eat_hex 32 t) as [[h r]|] eqn:Hh; [|done]. injection Hm as <-.
  apply eat_hex_Some in Hh as (_ & Hlen & Hall).
  by apply canonical_id_hyphenate.
Qed.

Lemma search_hex32_end_canonical s raw :
  re_search match_hex32_end s = Some raw → canonical_id (hyphenate (lower raw)).
Proof.
  intros (t & _ & Hm)%re_search_Some. unfold match_hex32_end in Hm.
  destruct (eat_hex 32 t) as [[h r]|] eqn:Hh; [|done].
  destruct (str_eqb r [] || str_eqb r nl); [|done]. injection Hm as <-.
  apply eat_hex_Some in Hh as (_ & Hlen & Hall).
  by apply canonical_id_hyphenate.
Qed.

Lemma normalized_is_canonical net url_or_id id :
  Exporter._normalize_page_id net url_or_id = Ok id → canonical_id id.
Proof.
  unfold Exporter._normalize_page_id.
  assert (∀ m m_uuid,
            (∀ raw, m = Some raw → canonical_id (hyphenate (lower raw))) →
            (∀ u, m_uuid = Some u → canonical_id (lower u)) →
            match m, m_uuid with
            | None, None => Raise (py "ValueError")
            | _, Some u => Ok (lower u)
            | Some raw, None => Ok (hyphenate (lower raw))
            end = Ok id → canonical_id id) as Hfinish.
  { intros [raw|] [u|] Hm Hu [= <-]; eauto. }
  destruct (_ && _).
  - destruct (http_get net url_or_id) as [html|]; [|done].
    apply Hfinish.
    + intros raw Hraw.
      destruct (re_search match_page_id_json html);
        [by eapply search_hex32_canonical|].
      destruct (re_search match_uuid html);
        by eapply search_hex32_canonical.
    + intros u Hu.
      destruct (re_search match_page_id_json html) eqn:Hj.
      * injection Hu as ->. by eapply search_json_canonical.
      * by eapply search_uuid_canonical.
  - apply Hfinish.
    + intros raw. apply search_hex32_canonical.
    + intros u. apply search_uuid_canonical.
Qed.

(** X1.  Whenever the exporter's [_normalize_page_id] returns, what it
    returns is an identifier in the normalised spelling: five groups of 8,
    4, 4, 4 and 12 digits of [0-9a-f] joined by hyphens, whatever the input
    and whatever the network answered. *)
Theorem _normalize_page_id_canonical (net : remote) (url_or_id id : list N) :
  Exporter._normalize_page_id net url_or_id = Ok id → canonical_id id.
Proof. apply normalized_is_canonical. Qed.

Lemma _normalize_page_id_canonical_witness :
  canonical_id (py "1a2b3c4d-5e6f-7890-1a2b-3c4d5e6f7890").
Proof.
  apply (_normalize_page_id_canonical offline
           (py "https://www.notion.so/My-Page-1A2B3C4D5E6F78901A2B3C4D5E6F7890?pvs=4")).
  by vm_compute.
Defined.

Lemma canonical_id_fixed net id :
  canonical_id id → Exporter._normalize_page_id net id = Ok id.
Proof.
  intros (a & b & c & d & e & Ha & Hb & Hc & Hd & He & ->).
  apply lower_hex_string_fixed in Ha as [Hla Ha], Hb as [Hlb Hb], Hc as [Hlc Hc],
    Hd as [Hld Hd], He as [Hle He].
  pose proof (exporter_finds_dashed net [] a b c d e [] Ha Hb Hc Hd He
                (proj2 clear_nil)) as Hrun.
  rewrite app_nil_r in Hrun. cbn [app] in Hrun. rewrite Hrun.
  by rewrite lower_hyphenated, Hla, Hlb, Hlc, Hld, Hle.
Qed.

(** X2.  The exporter's [_normalize_page_id] is idempotent: an identifier
    it returned is returned unchanged when it is normalised again, on any
    network (no request is needed for it). *)
Theorem _normalize_page_id_idempotent (net net' : remote) (url_or_id id : list N) :
  Exporter._normalize_page_id net url_or_id = Ok id →
  Exporter._normalize_page_id net' id = Ok id.
Proof.
  intros Hid. eapply canonical_id_fixed, normalized_is_canonical, Hid.
Qed.

Lemma _normalize_page_id_idempotent_witness :
  Exporter._normalize_page_id offline (py "1a2b3c4d-5e6f-7890-1a2b-3c4d5e6f7890")
  = Ok (py "1a2b3c4d-5e6f-7890-1a2b-3c4d5e6f7890").
Proof.
  apply (_normalize_page_id_idempotent offline offline
           (py "https://www.notion.so/My-Page-1A2B3C4D5E6F78901A2B3C4D5E6F7890?pvs=4")).
  by vm_compute.
Defined.

Lemma split_pieces c s : Forall (λ w, c ∉ w) (split c s).
Proof.
  induction s as [|x s IH]; cbn.
  - constructor; [apply not_elem_of_nil|constructor].
  - destruct (N.eqb_spec x c) as [->|Hne].
    + constructor; [apply not_elem_of_nil|done].
    + destruct (split c s) as [|w ws].
      * constructor; [|constructor].
        apply not_elem_of_cons. split; [done|apply not_elem_of_nil].
      * apply Forall_cons in IH as [Hw Hws].
        constructor; [|done]. apply not_elem_of_cons. by split.
Qed.

Lemma last_segment_clean s : (47%N ∉ last_segment s) ∧ (63%N ∉ last_segment s).
Proof.
  unfold last_segment.
  change (py "/") with [47%N]. change (py "?") with [63%N].
  rewrite !contains_char.
  set (t := if bool_decide (47%N ∈ s) then default [] (last (split 47 s)) else s).
  assert (47%N ∉ t) as Ht.
  { subst t. case_bool_decide; [|done].
    pose proof (split_pieces 47 s) as Hall.
    destruct (last (split 47 s)) as [w|] eqn:Hlast; [|apply not_elem_of_nil].
    apply last_Some_elem_of in Hlast.
    rewrite Forall_forall in Hall. by apply Hall. }
  case_bool_decide as Hq; [|done].
  pose proof (split_pieces 63 t) as Hall.
  pose proof (split_head_prefix 63 t) as [k Hk].
  destruct (head (split 63 t)) as [w|] eqn:Hhead; cbn [default] in *.
  - split.
    + intros Hin. apply Ht. rewrite Hk. apply elem_of_app. by left.
    + apply head_Some_elem_of in Hhead. rewrite Forall_forall in Hall. by apply Hall.
  - split; apply not_elem_of_nil.
Qed.

Lemma last_segment_fixed s : 47%N ∉ s → 63%N ∉ s → last_segment s = s.
Proof.
  intros H1 H2. unfold last_segment.
  change (py "/") with [47%N]. change (py "?") with [63%N].
  rewrite !contains_char. rewrite (bool_decide_eq_false_2 _ H1).
  by rewrite (bool_decide_eq_false_2 _ H2).
Qed.

Lemma _normalize_id_segment s :
  Importer._normalize_id s
  = match re_search match_hex32_end (last_segment s) with
    | Some raw => hyphenate (lower raw)
    | None =>
        match re_search match_uuid (last_segment s) with
        | Some u => lower u
        | None => last_segment s
        end
    end.
Proof. reflexivity. Qed.

Lemma canonical_id_chars id x : canonical_id id → is_uuid_char x = false → x ∉ id.
Proof.
  intros (a & b & c & d & e & Ha & Hb & Hc & Hd & He & ->) Hx.
  apply lower_hex_string_fixed in Ha as [_ Ha], Hb as [_ Hb], Hc as [_ Hc],
    Hd as [_ Hd], He as [_ He].
  by apply hyphenated_notin.
Qed.

Lemma canonical_id_fixed_importer id :
  canonical_id id → Importer._normalize_id id = id.
Proof.
  intros (a & b & c & d & e & Ha & Hb & Hc & Hd & He & ->).
  apply lower_hex_string_fixed in Ha as [Hla Ha], Hb as [Hlb Hb], Hc as [Hlc Hc],
    Hd as [Hld Hd], He as [Hle He].
  pose proof (importer_finds_dashed [] [] a b c d e [] Ha Hb Hc Hd He
                id_in_last_segment_nil (proj2 clear_nil)) as Hrun.
  rewrite app_nil_r in Hrun. cbn [app] in Hrun. rewrite Hrun.
  by rewrite lower_hyphenated, Hla, Hlb, Hlc, Hld, Hle.
Qed.

Lemma _normalize_id_result s :
  canonical_id (Importer._normalize_id s)
  ∨ (Importer._normalize_id s = last_segment s
     ∧ re_search match_hex32_end (last_segment s) = None
     ∧ re_search match_uuid (last_segment s) = None).
Proof.
  rewrite _normalize_id_segment.
  destruct (re_search match_hex32_end (last_segment s)) as [raw|] eqn:Hraw.
  { left. by eapply search_hex32_end_canonical. }
  destruct (re_search match_uuid (last_segment s)) as [u|] eqn:Hu.
  { left. by eapply search_uuid_canonical. }
  by right.
Qed.

(** X3.  The importer's [_normalize_id] is idempotent on every string:
    what it returns, an identifier in the normalised spelling or the part
    of its argument it could not read, is returned unchanged when
    normalised again. *)
Theorem _normalize_id_idempotent (page_id : list N) :
  Importer._normalize_id (Importer._normalize_id page_id)
  = Importer._normalize_id page_id.
Proof.
  destruct (_normalize_id_result page_id) as [Hcan|(Heq & Hraw & Hu)].
  - by apply canonical_id_fixed_importer.
  - rewrite Heq. rewrite _normalize_id_segment.
    destruct (last_segment_clean page_id) as [H1 H2].
    rewrite (last_segment_fixed _ H1 H2). by rewrite Hraw, Hu.
Qed.

(** X4.  What the importer's [_normalize_id] returns is either an
    identifier in the normalised spelling or, when its argument holds no
    identifier where it looks, the text between the last slash and the
    first question mark after it, in which neither pattern matches; it
    holds neither a slash nor a question mark in both cases. *)
Theorem _normalize_id_shape (page_id : list N) :
  (canonical_id (Importer._normalize_id page_id)
   ∨ (Importer._normalize_id page_id = last_segment page_id
      ∧ re_search match_hex32_end (last_segment page_id) = None
      ∧ re_search match_uuid (last_segment page_id) = None))
  ∧ (47%N ∉ Importer._normalize_id page_id)
  ∧ (63%N ∉ Importer._normalize_id page_id).
Proof.
  destruct (_normalize_id_result page_id) as [Hcan|(Heq & Hraw & Hu)].
  - split; [by left|]. split; by apply canonical_id_chars.
  - split; [by right|]. rewrite Heq. apply last_segment_clean.
Qed.

(** ** Slugs *)

Lemma lstrip_char_suffix x s : lstrip_char x s `suffix_of` s.
Proof.
  induction s as [|c s IH]; cbn; [done|].
  destruct (c =? x)%N; [by apply suffix_cons_r|done].
Qed.

Lemma lstrip_char_head x s : head (lstrip_char x s) ≠ Some x.
Proof.
  induction s as [|c s IH]; cbn; [done|].
  destruct (N.eqb_spec c x) as [->|Hne]; [done|]. cbn. congruence.
Qed.

Lemma last_reverse {A} (l : list A) : last (reverse l) = head l.
Proof. destruct l as [|a l]; [done|]. by rewrite reverse_cons, last_snoc. Qed.

Lemma head_reverse {A} (l : list A) : head (reverse l) = last l.
Proof. by rewrite <- (reverse_involutive l) at 2; rewrite last_reverse. Qed.

Lemma strip_char_ends x s :
  head (strip_char x s) ≠ Some x ∧ last (strip_char x s) ≠ Some x.
Proof.
  unfold strip_char. split.
  - pose proof (lstrip_char_suffix x (reverse (lstrip_char x s))) as [k Hk].
    apply (f_equal reverse) in Hk.
    rewrite reverse_involutive, reverse_app in Hk.
    pose proof (lstrip_char_head x s) as Hhead. rewrite Hk in Hhead.
    destruct (reverse (lstrip_char x (reverse (lstrip_char x s)))); [done|].
    exact Hhead.
  - rewrite last_reverse. apply lstrip_char_head.
Qed.

Lemma strip_char_Forall (P : N → Prop) x s :
  Forall P s → Forall P (strip_char x s).
Proof.
  intros Hs. unfold strip_char.
  destruct (lstrip_char_suffix x s) as [k Hk]. rewrite Hk in Hs.
  apply Forall_app in Hs as [_ Hs]. apply Forall_reverse in Hs.
  destruct (lstrip_char_suffix x (reverse (lstrip_char x s))) as [k' Hk'].
  rewrite Hk' in Hs. apply Forall_app in Hs as [_ Hs].
  by apply Forall_reverse.
Qed.

Lemma sub_non_word_chars is_word in_run s :
  Forall (λ c, is_word c = true ∨ c = 45%N)
    (Exporter.sub_non_word is_word in_run s).
Proof.
  revert in_run. induction s as [|c s IH]; intros in_run; cbn; [done|].
  destruct (is_word c || (c =? 45)%N) eqn:Hc.
  - constructor; [|apply IH].
    apply orb_true_iff in Hc as [?|?%N.eqb_eq]; auto.
  - destruct in_run; [apply IH|]. constructor; [by right|apply IH].
Qed.

Lemma slug_shape net text :
  Exporter._slugify net text ≠ []
  ∧ head (Exporter._slugify net text) ≠ Some 45%N
  ∧ last (Exporter._slugify net text) ≠ Some 45%N
  ∧ Forall (λ c, is_word net c = true ∨ c = 45%N ∨ c ∈ py "page")
      (Exporter._slugify net text).
Proof.
  unfold Exporter._slugify.
  set (sub := Exporter.sub_non_word (is_word net) false (unicode_lower net text)).
  destruct (strip_char_ends 45 sub) as [Hhead Hlast].
  pose proof (strip_char_Forall _ 45 sub
                (sub_non_word_chars (is_word net) false (unicode_lower net text)))
    as Hall.
  destruct (strip_char 45 sub) as [|c slug] eqn:Hslug.
  - split_and!; [done..|].
    apply Forall_forall. intros c Hc. by right; right.
  - split_and!; [done..|].
    eapply Forall_impl; [exact Hall|]. cbn. tauto.
Qed.

(** X5.  A slug is usable as one directory name: [_slugify] never returns
    the empty string, what it returns neither starts nor ends with a
    hyphen, and each of its characters is a word character, a hyphen, or a
    letter of the default name [page]. *)
Theorem _slugify_shape (net : remote) (text : list N) :
  Exporter._slugify net text ≠ []
  ∧ head (Exporter._slugify net text) ≠ Some 45%N
  ∧ last (Exporter._slugify net text) ≠ Some 45%N
  ∧ Forall (λ c, is_word net c = true ∨ c = 45%N ∨ c ∈ py "page")
      (Exporter._slugify net text).
Proof. apply slug_shape. Qed.

(** ** The exporter's rich text *)

Lemma split_spaces_rejoin t :
  let '(leading_space, t1) := Exporter.split_leading_space t in
  let '(trailing_space, t2) := Exporter.split_trailing_space t1 in
  leading_space ++ t2 ++ trailing_space = t.
Proof.
  assert (∀ u, let '(trailing_space, t2) := Exporter.split_trailing_space u in
               t2 ++ trailing_space = u) as Htrail.
  { intros u. unfold Exporter.split_trailing_space.
    destruct (last u) as [c|] eqn:Hlast; [|by rewrite app_nil_r].
    destruct (N.eqb_spec c 32) as [->|_]; [|by rewrite app_nil_r].
    apply last_Some in Hlast as [u' ->].
    rewrite length_app, Nat.add_sub. cbn [length]. by rewrite take_app_length. }
  unfold Exporter.split_leading_space.
  destruct t as [|c t]; [apply (Htrail [])|].
  destruct (N.eqb_spec c 32) as [->|_].
  - specialize (Htrail t). destruct (Exporter.split_trailing_space t).
    cbn. by rewrite Htrail.
  - specialize (Htrail (c :: t)). by destruct (Exporter.split_trailing_space (c :: t)).
Qed.

Lemma part_to_markdown_plain net cache use_html_colors t :
  Exporter.part_to_markdown net cache use_html_colors (Part t []) = Some t.
Proof.
  unfold Exporter.part_to_markdown. cbn [p_text p_anns Exporter.annotate_all].
  cbn [mbind option_bind Exporter.text].
  pose proof (split_spaces_rejoin t) as Hjoin.
  destruct (Exporter.split_leading_space t) as [leading_space t1].
  destruct (Exporter.split_trailing_space t1) as [trailing_space t2].
  unfold Exporter.apply_formatting, Exporter.apply_color.
  cbn [Exporter.is_code Exporter.is_bold Exporter.is_italic
       Exporter.is_strikethrough Exporter.is_underline Exporter.link_url
       Exporter.highlight_color truthy andb].
  destruct t2; by rewrite Hjoin.
Qed.

Lemma markdown_of_unannotated net cache use_html_colors rich :
  Forall (λ p, p_anns p = []) rich →
  Exporter._rich_text_to_markdown net cache use_html_colors rich
  = Some (Exporter._rich_text_to_plain rich).
Proof.
  unfold Exporter._rich_text_to_plain.
  induction 1 as [|[t anns] rich Hp _ IH]; [done|].
  cbn in Hp. subst anns. cbn [Exporter._rich_text_to_markdown].
  rewrite part_to_markdown_plain, IH. done.
Qed.

(** X6.  Rich text without annotations is rendered as it stands: for a
    list of parts none of which carries an annotation, the Markdown the
    exporter produces is the plain text of the parts, with or without HTML
    colors and on any network. *)
Theorem unannotated_markdown_is_plain (net : remote)
    (cache : gmap (list N) (list N)) (use_html_colors : bool) (rich : list part) :
  Forall (λ p, p_anns p = []) rich →
  Exporter._rich_text_to_markdown net cache use_html_colors rich
  = Some (Exporter._rich_text_to_plain rich).
Proof. apply markdown_of_unannotated. Qed.

Lemma unannotated_markdown_is_plain_witness :
  Exporter._rich_text_to_markdown offline ∅ true
    [Part (py " a *b* ") []; Part (py "c ") []]
  = Some (py " a *b* c ").
Proof.
  apply (unannotated_markdown_is_plain offline ∅ true
           [Part (py " a *b* ") []; Part (py "c ") []]).
  by repeat constructor.
Defined.

(** The annotations that carry no argument leave the text, the link and
    the color as they are. *)
Lemma annotate_all_flags net cache anns :
  Forall (λ a, ∃ tag, a = Ann tag) anns →
  ∀ st, ∃ st',
    Exporter.annotate_all net cache st anns = Some st'
    ∧ Exporter.text st' = Exporter.text st
    ∧ Exporter.link_url st' = Exporter.link_url st
    ∧ Exporter.highlight_color st' = Exporter.highlight_color st.
Proof.
  induction 1 as [|a anns [tag ->] _ IH]; intros st; [by exists st|].
  cbn [Exporter.annotate_all].
  assert (∃ st1, Exporter.annotate net cache st (Ann tag) = Some st1
                 ∧ Exporter.text st1 = Exporter.text st
                 ∧ Exporter.link_url st1 = Exporter.link_url st
                 ∧ Exporter.highlight_color st1 = Exporter.highlight_color st)
    as (st1 & -> & H1 & H2 & H3).
  { destruct st as [t b i s c u l h]. unfold Exporter.annotate.
    cbv beta iota zeta. rewrite !andb_false_r.
    repeat (destruct (str_eqb tag _); [by eexists|]). by eexists. }
  cbn [mbind option_bind]. destruct (IH st1) as (st' & -> & ? & ? & ?).
  exists st'. split_and!; congruence.
Qed.

(** X7.  No markers are put around nothing: a part whose text is empty,
    one space or two spaces is rendered as that text whatever flags (bold,
    italic, strikethrough, code, underline) its annotations set. *)
Theorem blank_part_has_no_markers (net : remote)
    (cache : gmap (list N) (list N)) (use_html_colors : bool)
    (t : list N) (anns : list annotation) :
  Forall (λ a, ∃ tag, a = Ann tag) anns →
  t ∈ [[]; py " "; py "  "] →
  Exporter._rich_text_to_markdown net cache use_html_colors [Part t anns] = Some t.
Proof.
  intros Hanns Ht. cbn [Exporter._rich_text_to_markdown].
  unfold Exporter.part_to_markdown. cbn [p_text p_anns].
  destruct (annotate_all_flags net cache anns Hanns
              (Exporter.Flags t false false false false false None None))
    as (st & -> & Htext & Hlink & Hcolor).
  cbn [mbind option_bind]. cbn in Htext, Hlink, Hcolor.
  unfold Exporter.apply_color. rewrite Htext, Hcolor.
  repeat (apply elem_of_cons in Ht as [->|Ht]); [..|by apply elem_of_nil in Ht];
    cbn; by rewrite ?app_nil_r.
Qed.

Lemma blank_part_has_no_markers_witness :
  Exporter._rich_text_to_markdown offline ∅ true
    [Part (py " ") [Ann (py "b"); Ann (py "c")]]
  = Some (py " ").
Proof.
  apply (blank_part_has_no_markers offline ∅ true (py " ")
           [Ann (py "b"); Ann (py "c")]).
  - repeat constructor; by eexists.
  - apply elem_of_cons. right. apply elem_of_cons. by left.
Defined.

(** ** The renderer: when it returns *)

Lemma render_each_is_Some (f : list N → option (list N)) ids :
  (∀ c, c ∈ ids → is_Some (f c)) → is_Some (Exporter.render_each f ids).
Proof.
  intros Hall. unfold Exporter.render_each.
  destruct (mapM_is_Some_2 f ids) as [outs ->]; [|by eexists].
  apply Forall_forall. intros c Hc. by apply Hall.
Qed.

Lemma render_returns net cache blocks rank :
  ranked blocks rank → titles_render net cache blocks →
  ∀ fuel block_id indent page_dir space_id,
    rank block_id < fuel →
    is_Some (Exporter._render_block fuel net cache blocks block_id indent
               page_dir space_id).
Proof.
  intros Hrank Htitles.
  induction fuel as [|fuel IH]; intros block_id indent page_dir space_id Hfuel;
    [lia|].
  cbn [Exporter._render_block].
  destruct (blocks !! block_id) as [b|] eqn:Hb; [|by eexists].
  destruct (b_alive b); cbn [negb]; [|by eexists].
  destruct (Htitles _ _ Hb) as [text ->]. cbn [mbind option_bind].
  set (space := if truthy space_id then space_id else b_space_id b).
  assert (∀ ind ids, (∀ c, c ∈ ids → rank c < fuel) →
            is_Some (Exporter.render_each
                       (λ cid, Exporter._render_block fuel net cache blocks cid ind
                                 page_dir space) ids)) as Hkids.
  { intros ind ids Hids. apply render_each_is_Some.
    intros c Hc. apply IH. by apply Hids. }
  assert (∀ c, c ∈ b_content b → rank c < fuel) as Hcontent.
  { intros c Hc. specialize (Hrank _ _ _ Hb Hc). lia. }
  assert (∀ col cid, col ∈ Exporter.columns_content blocks (b_content b) →
            cid ∈ col → rank cid < fuel) as Hcols.
  { intros col cid Hcol Hcid. unfold Exporter.columns_content in Hcol.
    apply list_elem_of_omap in Hcol as (col_id & Hin & Hcol).
    destruct (blocks !! col_id) as [col_block|] eqn:Hcb; [|done].
    destruct (str_eqb _ _); [|done]. injection Hcol as <-.
    pose proof (Hrank _ _ _ Hb Hin). pose proof (Hrank _ _ _ Hcb Hcid). lia. }
  destruct (Exporter.is_type (b_type b) "column_list").
  { destruct (1 <? length _).
    - destruct (mapM_is_Some_2
        (λ col_children,
           Exporter.render_each
             (λ cid, Exporter._render_block fuel net cache blocks cid 0 page_dir space)
             col_children
           ≫= λ body, Some (py "<td valign=" ++ dq ++ py "top" ++ dq ++ py ">"
                            ++ nl ++ nl ++ body ++ nl ++ py "</td>" ++ nl))
        (Exporter.columns_content blocks (b_content b))) as [cells ->];
        [|by eexists].
      apply Forall_forall. intros col Hcol. cbn.
      destruct (Hkids 0 col) as [body ->]; [by eauto|by eexists].
    - destruct (mapM_is_Some_2
        (Exporter.render_each
           (λ cid, Exporter._render_block fuel net cache blocks cid indent
                     page_dir space))
        (Exporter.columns_content blocks (b_content b))) as [outs ->];
        [|by eexists].
      apply Forall_forall. intros col Hcol. cbn. apply Hkids. by eauto. }
  repeat first
    [ progress cbn [mbind option_bind]
    | match goal with
      | |- is_Some (Some _) => by eexists
      | Hin : blocks !! ?x = Some ?fc,
        Hno : Exporter._rich_text_to_markdown net cache true (b_title ?fc) = None
        |- _ => destruct (Htitles _ _ Hin) as [? ?]; congruence
      | |- context [Exporter.render_each
                      (λ cid, Exporter._render_block _ _ _ _ cid ?ind _ _) ?ids] =>
          let r := fresh "r" in
          destruct (Hkids ind ids) as [r ->];
          [first [exact Hcontent|intros ? ?; apply Hcontent; set_solver]|]
      | |- context [Exporter._rich_text_to_markdown net cache true (b_title ?fc)] =>
          let t := fresh "t" in
          destruct (Exporter._rich_text_to_markdown net cache true (b_title fc))
            as [t|] eqn:?
      | |- context [if ?c then _ else _] => destruct c eqn:?
      | |- context [match ?x with [] => _ | _ :: _ => _ end] => destruct x eqn:?
      | |- context [match ?x with Some _ => _ | None => _ end] => destruct x eqn:?
      end ].
Qed.

(** X8.  The renderer returns on every block map without cycles: when the
    child links go down a rank and the titles of the blocks are rendered,
    [_render_block] on a block of rank below the fuel returns a text, for
    every block type, indentation and space. *)
Theorem _render_block_returns (net : remote) (cache : gmap (list N) (list N))
    (blocks : gmap (list N) block) (rank : list N → nat) (fuel : nat)
    (block_id : list N) (indent : nat) (page_dir : list (list N))
    (space_id : option (list N)) :
  ranked blocks rank → titles_render net cache blocks →
  rank block_id < fuel →
  is_Some (Exporter._render_block fuel net cache blocks block_id indent
             page_dir space_id).
Proof. intros. by eapply render_returns. Qed.

Lemma parent_and_child_lookup id b :
  parent_and_child !! id = Some b →
  (id = py "p"
   ∧ b = simple_block (py "p") (py "bulleted_list") (py "one") [py "c"])
  ∨ (id = py "c"
     ∧ b = simple_block (py "c") (py "bulleted_list") (py "two") []).
Proof.
  unfold parent_and_child. intros [[<- <-]|[_ H]]%lookup_insert_Some; [by left|].
  apply lookup_singleton_Some in H as [<- <-]. by right.
Qed.

Lemma _render_block_returns_witness :
  is_Some (Exporter._render_block 2 offline ∅ parent_and_child (py "p") 0 [] None).
Proof.
  apply (_render_block_returns offline ∅ parent_and_child
           (λ id, if bool_decide (id = py "p") then 1 else 0)).
  - intros id b c [[-> ->]|[-> ->]]%parent_and_child_lookup Hc.
    + apply list_elem_of_singleton in Hc as ->. by vm_compute.
    + by apply elem_of_nil in Hc.
  - intros id b [[-> ->]|[-> ->]]%parent_and_child_lookup; by eexists.
  - by vm_compute.
Defined.

Lemma render_each_None (f : list N → option (list N)) ids c :
  c ∈ ids → f c = None → Exporter.render_each f ids = None.
Proof.
  intros Hc Hf. unfold Exporter.render_each.
  rewrite (mapM_None_2 f ids); [done|].
  apply Exists_exists. by exists c.
Qed.

Lemma render_trapped net cache blocks loop :
  trapped blocks loop →
  ∀ fuel block_id indent page_dir space_id,
    loop block_id →
    Exporter._render_block fuel net cache blocks block_id indent page_dir space_id
    = None.
Proof.
  intros Htrap.
  induction fuel as [|fuel IH]; intros block_id indent page_dir space_id Hloop;
    [done|].
  destruct (Htrap _ Hloop) as (b & c & Hb & Halive & (Ht1 & Ht2 & Ht3) & Hc & Hloopc).
  cbn [Exporter._render_block]. rewrite Hb, Halive. cbn [negb].
  destruct (Exporter._rich_text_to_markdown net cache true (b_title b)) as [text|];
    [|done].
  cbn [mbind option_bind]. rewrite Ht1, Ht2, Ht3.
  set (space := if truthy space_id then space_id else b_space_id b).
  assert (∀ ind, Exporter.render_each
                   (λ cid, Exporter._render_block fuel net cache blocks cid ind
                             page_dir space) (b_content b) = None) as Hkids.
  { intros ind. apply (render_each_None _ _ c Hc). by apply IH. }
  repeat first
    [ progress cbn [mbind option_bind]
    | rewrite Hkids
    | reflexivity
    | match goal with
      | |- context [if ?x then _ else _] => destruct x eqn:?
      | |- context [match ?x with [] => _ | _ :: _ => _ end] => destruct x eqn:?
      end ].
Qed.

(** X9.  The renderer has no guard against cycles: from a block that its
    child links lead back to, through live blocks of types that render all
    their children, [_render_block] never returns a text, whatever the
    fuel (the Python run ends in a [RecursionError]). *)
Theorem _render_block_cycle (net : remote) (cache : gmap (list N) (list N))
    (blocks : gmap (list N) block) (loop : list N → Prop) (fuel : nat)
    (block_id : list N) (indent : nat) (page_dir : list (list N))
    (space_id : option (list N)) :
  trapped blocks loop → loop block_id →
  Exporter._render_block fuel net cache blocks block_id indent page_dir space_id
  = None.
Proof. intros. by eapply render_trapped. Qed.

Lemma _render_block_cycle_witness :
  Exporter._render_block 1000 offline ∅ self_child (py "s") 0 [] None = None.
Proof.
  apply (_render_block_cycle offline ∅ self_child (λ id, id = py "s")); [|done].
  intros id ->.
  exists (simple_block (py "s") (py "text") (py "again") [py "s"]), (py "s").
  split_and!; [by apply lookup_singleton_Some|done|by vm_compute| |done].
  apply list_elem_of_singleton. done.
Defined.

(** ** The export pipeline: what is written, and where *)

Lemma _export_page_ok fuel net out skip :
  ∀ self page_id parent_dir,
    export_ok net out skip self →
    (∃ slugs, parent_dir = out ++ slugs ∧ Forall (is_slug net) slugs) →
    export_ok net out skip (Exporter._export_page fuel net self page_id parent_dir).1.
Proof.
  induction fuel as [|fuel IH]; intros self page_id parent_dir Hself Hdir; [done|].
  cbn [Exporter._export_page].
  case_bool_decide as Hseen; [done|].
  destruct Hself as (Hout & Hskip & Hwritten).
  destruct (Exporter.fetch_record_map (page_chunks net page_id))
    as [blocks unread| |] eqn:Hfetch; [|done..].
  destruct (blocks !! page_id) as [page_block|] eqn:Hpage; [|done].
  cbn [Exporter.skip_titles]. fold (page_title page_block).
  case_bool_decide as Hskipped; [done|].
  destruct (Exporter.render_each _ _) as [body|]; [|done].
  destruct Hdir as (slugs & -> & Hslugs).
  apply for_each_invariant.
  - intros s [bid bval] Hs.
    destruct (negb (b_alive bval)); [done|].
    destruct (str_eqb (b_id bval) page_id); [done|].
    assert (Hdatabase : ∀ s' st, export_ok net out skip s' →
      export_ok net out skip
        (match st with
         | Exporter.Returned =>
             if Exporter.is_type (b_type bval) "collection_view" then
               match f_collection_id bval, b_view_ids bval with
               | Some (c :: cs), view :: _ =>
                   Exporter.for_each
                     (λ self sub_page_id,
                        Exporter._export_page fuel net self sub_page_id
                          (Exporter.output_dir self))
                     s' (Exporter.query_collection net (c :: cs) view)
               | _, _ => (s', Exporter.Returned)
               end
             else (s', Exporter.Returned)
         | _ => (s', st)
         end).1).
    { intros s' st Hs'. destruct st; [|done..].
      destruct (Exporter.is_type _ "collection_view"); [|done].
      destruct (f_collection_id bval) as [[|c cs]|]; [done| |done].
      destruct (b_view_ids bval) as [|view views]; [done|].
      apply for_each_invariant; [|done].
      intros s2 sub_page_id Hs2. apply IH; [done|].
      exists []. destruct Hs2 as (-> & _). by rewrite app_nil_r. }
    destruct (_ || _).
    + match goal with
      | |- context [Exporter._export_page fuel net s ?i ?d] =>
          assert (export_ok net out skip (Exporter._export_page fuel net s i d).1)
            as Hrec;
          [|destruct (Exporter._export_page fuel net s i d) as [s' st]]
      end.
      { apply IH; [done|].
        exists (slugs ++ [Exporter._slugify net (page_title page_block)]).
        split; [by rewrite app_assoc|].
        apply Forall_app. split; [done|]. constructor; [by eexists|constructor]. }
      exact (Hdatabase s' st Hrec).
    + exact (Hdatabase s Exporter.Returned Hs).
  - split_and!; [done..|]. cbn [Exporter.written].
    apply Forall_app. split; [done|]. constructor; [|constructor].
    exists blocks, unread, page_block, slugs, body.
    split_and!; [done|done|by rewrite <- Hskip|done|by rewrite <- app_assoc|done].
Qed.

Lemma export_tree_ok fuel net out skip root_url :
  export_ok net out skip
    (Exporter.export_tree fuel net (Exporter.new_exporter out skip) root_url).1.
Proof.
  assert (export_ok net out skip (Exporter.new_exporter out skip)) as Hnew.
  { split_and!; [done..|constructor]. }
  unfold Exporter.export_tree.
  destruct (Exporter._normalize_page_id net root_url) as [root_id|e]; [|done].
  apply _export_page_ok; [done|]. exists []. by rewrite app_nil_r.
Qed.

(** X10.  Every file of an export is written strictly below the output
    directory, in a directory reached through path components that are
    slugs: each is non-empty and made of word characters, hyphens and the
    letters of [page] only, whatever titles the remote pages have. *)
Theorem export_tree_stays_below_output_dir (fuel : nat) (net : remote)
    (output_dir : list (list N)) (skip : gset (list N)) (root_url : list N) :
  Forall (λ w, ∃ slugs,
            w.1.1 = output_dir ++ slugs ∧ slugs ≠ [] ∧ Forall (slug_like net) slugs)
    (Exporter.written
       (Exporter.export_tree fuel net
          (Exporter.new_exporter output_dir skip) root_url).1).
Proof.
  destruct (export_tree_ok fuel net output_dir skip root_url) as (_ & _ & Hwritten).
  eapply Forall_impl; [exact Hwritten|].
  intros [[dir id] md] (blocks & unread & page_block & slugs & body
                         & _ & _ & _ & Hslugs & -> & _).
  exists (slugs ++ [Exporter._slugify net (page_title page_block)]).
  split_and!; [done|by destruct slugs|].
  apply Forall_app. split.
  - eapply Forall_impl; [exact Hslugs|]. intros s [text ->].
    destruct (slug_shape net text) as (? & _ & _ & ?). by split.
  - constructor; [|constructor].
    destruct (slug_shape net (page_title page_block)) as (? & _ & _ & ?). by split.
Qed.

(** X11.  Every file of an export belongs to a page that was fetched and
    whose title (["untitled"] when it has none) is not among the titles to
    skip; its directory is named by the slug of that title, and its text
    opens with the cover line, if the page has a cover, followed by the
    title as a first-level heading and a blank line. *)
Theorem export_tree_written_pages (fuel : nat) (net : remote)
    (output_dir : list (list N)) (skip : gset (list N)) (root_url : list N) :
  Forall (λ w, ∃ blocks unread page_block body,
            Exporter.fetch_record_map (page_chunks net w.1.2)
              = Exporter.RecordMap blocks unread
            ∧ blocks !! w.1.2 = Some page_block
            ∧ (page_title page_block ∉ skip)
            ∧ last w.1.1 = Some (Exporter._slugify net (page_title page_block))
            ∧ w.2 = Exporter.cover_line net w.1.2 (b_space_id page_block) page_block
                    ++ py "# " ++ page_title page_block ++ nl ++ nl ++ body)
    (Exporter.written
       (Exporter.export_tree fuel net
          (Exporter.new_exporter output_dir skip) root_url).1).
Proof.
  destruct (export_tree_ok fuel net output_dir skip root_url) as (_ & _ & Hwritten).
  eapply Forall_impl; [exact Hwritten|].
  intros [[dir id] md] (blocks & unread & page_block & slugs & body
                         & Hfetch & Hpage & Hskip & _ & -> & ->).
  exists blocks, unread, page_block, body. cbn [fst snd].
  split_and!; [done..| |done].
  by rewrite !app_assoc, last_snoc.
Qed.

(** ** The importer's rich text: what the segments hold *)

Lemma lazy_until_split close s inner rest :
  Importer.lazy_until close s = Some (inner, rest) → s = inner ++ close ++ rest.
Proof.
  revert inner rest. induction s as [|c s IH]; intros inner rest; cbn.
  - destruct (strip_prefix close []) as [r|] eqn:Hp; [|done].
    intros [= <- <-]. by apply strip_prefix_Some in Hp.
  - destruct (strip_prefix close (c :: s)) as [r|] eqn:Hp.
    + intros [= <- <-]. by apply strip_prefix_Some in Hp.
    + destruct (Importer.lazy_until close s) as [[i r]|]; [|done].
      intros [= <- <-]. by rewrite (IH i r eq_refl).
Qed.

Lemma lazy_until1_split close s inner rest :
  Importer.lazy_until1 close s = Some (inner, rest) → s = inner ++ close ++ rest.
Proof.
  destruct s as [|c s]; cbn; [done|].
  destruct (Importer.lazy_until close s) as [[i r]|] eqn:Hl; [|done].
  intros [= <- <-]. by rewrite (lazy_until_split _ _ _ _ Hl).
Qed.

Lemma run_not_split x after s v r :
  Importer.run_not x after s = Some (v, r) → s = v ++ after ++ r.
Proof.
  unfold Importer.run_not.
  destruct (Importer.span_not x s) as [a b] eqn:Hs.
  apply span_not_app in Hs as ->.
  destruct a as [|c a]; [done|].
  intros (r' & Hp & [= <- <-])%bind_Some.
  by apply strip_prefix_Some in Hp as ->.
Qed.

(** Each pattern of the encoder cuts its two pieces out of the text, the
    inner one before the remaining one. *)
Lemma match_span_pieces prop s css inner remaining :
  Importer.match_span prop s = Some (css, inner, remaining) →
  ∃ p m, s = p ++ inner ++ m ++ remaining.
Proof.
  unfold Importer.match_span.
  intros (s1 & H1 & H)%bind_Some.
  apply bind_Some in H as ([v s2] & H2 & H).
  apply bind_Some in H as ([i r] & H3 & [= _ <- <-]).
  apply strip_prefix_Some in H1 as ->. apply run_not_split in H2 as ->.
  apply lazy_until_split in H3 as ->.
  exists ((py "<span style=" ++ dq ++ py prop ++ py ":") ++ v ++ dq ++ py ">"),
    (py "</span>").
  by rewrite <- !app_assoc.
Qed.

Lemma match_tag_pieces open close s inner remaining :
  Importer.match_tag open close s = Some (inner, remaining) →
  ∃ p m, s = p ++ inner ++ m ++ remaining.
Proof.
  unfold Importer.match_tag. intros (s1 & H1 & H)%bind_Some.
  apply strip_prefix_Some in H1 as ->. apply lazy_until_split in H as ->.
  by eexists _, _.
Qed.

Lemma match_delim_pieces d s inner remaining :
  Importer.match_delim d s = Some (inner, remaining) →
  ∃ p m, s = p ++ inner ++ m ++ remaining.
Proof.
  unfold Importer.match_delim. intros (s1 & H1 & H)%bind_Some.
  apply strip_prefix_Some in H1 as ->. apply lazy_until1_split in H as ->.
  by eexists _, _.
Qed.

Lemma match_code_pieces s inner remaining :
  Importer.match_code s = Some (inner, remaining) →
  ∃ p m, s = p ++ inner ++ m ++ remaining.
Proof.
  unfold Importer.match_code. intros (s1 & H1 & H)%bind_Some.
  apply strip_prefix_Some in H1 as ->. apply run_not_split in H as ->.
  by eexists _, _.
Qed.

Lemma match_link_pieces s link_text link_url remaining :
  Importer.match_link s = Some (link_text, link_url, remaining) →
  ∃ p m, s = p ++ link_text ++ m ++ remaining.
Proof.
  unfold Importer.match_link. intros (s1 & H1 & H)%bind_Some.
  apply bind_Some in H as ([t s2] & H2 & H).
  apply bind_Some in H as ([u r] & H3 & [= <- _ <-]).
  apply strip_prefix_Some in H1 as ->. apply run_not_split in H2 as ->.
  apply run_not_split in H3 as ->.
  exists (py "["), (py "](" ++ u ++ py ")").
  by rewrite <- !app_assoc.
Qed.

Lemma segments_of_nil text : segments_of text [].
Proof. split_and!; [constructor|apply sublist_nil_l|constructor]. Qed.

Lemma segments_of_pieces s p inner m remaining a b :
  s = p ++ inner ++ m ++ remaining →
  segments_of inner a → segments_of remaining b → segments_of s (a ++ b).
Proof.
  intros -> (Ha1 & Ha2 & Ha3) (Hb1 & Hb2 & Hb3).
  split_and!; [by apply Forall_app| |by apply Forall_app].
  unfold plain_of. rewrite fmap_app, concat_app.
  apply sublist_inserts_l, sublist_app; [done|]. by apply sublist_inserts_l.
Qed.

Lemma segments_of_plain s t rest ann b :
  s = t ++ rest → t ≠ [] →
  segments_of rest b → segments_of s (Importer.plain_segment t ann :: b).
Proof.
  intros -> Ht (Hb1 & Hb2 & Hb3).
  split_and!; [by constructor| |by constructor].
  unfold plain_of. cbn. by apply sublist_app.
Qed.

Lemma segments_of_linked text url segs :
  startswith (py "http") url = true →
  segments_of text segs →
  segments_of text
    ((λ seg, Importer.Segment (Importer.content seg) (Importer.seg_annotations seg)
               (Some url)) <$> segs).
Proof.
  intros Hurl (H1 & H2 & H3). split_and!.
  - apply Forall_fmap. eapply Forall_impl; [exact H1|]. done.
  - unfold plain_of in *. by rewrite <- list_fmap_compose.
  - apply Forall_fmap, Forall_forall. intros seg _ u [= <-]. done.
Qed.

Lemma parse_segments fuel :
  ∀ text ann segs,
    Importer._parse_rich_text_recursive fuel text ann = Some segs →
    segments_of text segs.
Proof.
  induction fuel as [|fuel IH]; intros text ann segs.
  { destruct text; [|done]. intros [= <-]. apply segments_of_nil. }
  destruct text as [|first tail]; [intros [= <-]; apply segments_of_nil|].
  cbn [Importer._parse_rich_text_recursive].
  assert (∀ p inner m remaining new,
            first :: tail = p ++ inner ++ m ++ remaining →
            (a ← Importer._parse_rich_text_recursive fuel inner new;
             b ← Importer._parse_rich_text_recursive fuel remaining ann;
             Some (a ++ b)) = Some segs →
            segments_of (first :: tail) segs) as Hboth.
  { intros p inner m remaining new Heq (a & Ha & H)%bind_Some.
    apply bind_Some in H as (b & Hb & [= <-]).
    eapply segments_of_pieces; [exact Heq|by eapply IH..]. }
  encoder_cases (first :: tail).
  - apply match_span_pieces in Ecolor as (p & m & Heq). by eapply Hboth.
  - apply match_span_pieces in Ebg as (p & m & Heq). by eapply Hboth.
  - apply match_tag_pieces in Eu as (p & m & Heq). by eapply Hboth.
  - apply match_delim_pieces in Ebi as (p & m & Heq). by eapply Hboth.
  - apply match_delim_pieces in Eb as (p & m & Heq). by eapply Hboth.
  - apply match_delim_pieces in Ei as (p & m & Heq). by eapply Hboth.
  - apply match_delim_pieces in Es as (p & m & Heq). by eapply Hboth.
  - apply match_code_pieces in Ec as (p & m & Heq). by eapply Hboth.
  - apply match_link_pieces in El as (p & m & Heq).
    intros (a & Ha & H)%bind_Some. apply bind_Some in H as (b & Hb & [= <-]).
    eapply segments_of_pieces; [exact Heq| |by eapply IH].
    apply IH in Ha.
    destruct (startswith (py "http") _) eqn:Hhttp; [|done].
    by apply segments_of_linked.
  - intros (b & Hb & [= <-])%bind_Some.
    apply (segments_of_plain _ [first] tail); [done..|by eapply IH].
  - intros (b & Hb & [= <-])%bind_Some.
    apply split_special_app in Ep.
    eapply segments_of_plain; [exact Ep|done|by eapply IH].
Qed.

Lemma _rich_text_returns text :
  ∃ segs, Importer._rich_text text = Some segs
          ∧ (segs = [] ↔ text = [])
          ∧ segments_of text segs.
Proof.
  unfold Importer._rich_text. destruct text as [|c text].
  { exists []. split_and!; [done..|apply segments_of_nil]. }
  destruct (parse_rich_text_returns (length (c :: text)) (c :: text)
              Importer.no_annotations (le_n _)) as [segs Hsegs].
  rewrite Hsegs. cbn [mbind option_bind].
  apply parse_segments in Hsegs. destruct segs as [|seg segs].
  - eexists. split_and!; [done|done|].
    split_and!; [by repeat constructor| |by repeat constructor].
    unfold plain_of. cbn. by rewrite app_nil_r.
  - by eexists.
Qed.

(** X12.  The importer's [_rich_text] returns on every text, and the
    segments it returns hold the text with characters left out and nothing
    else: no segment is empty, the contents put end to end are a
    subsequence of the text, and there is no segment exactly when the text
    is empty. *)
Theorem _rich_text_keeps_text (text : list N) :
  ∃ segs,
    Importer._rich_text text = Some segs
    ∧ (segs = [] ↔ text = [])
    ∧ Forall (λ s, Importer.content s ≠ []) segs
    ∧ plain_of segs `sublist_of` text.
Proof.
  destruct (_rich_text_returns text) as (segs & Hsegs & Hnil & H1 & H2 & _).
  by exists segs.
Qed.

Lemma notin_literal (x : N) (l : list N) : bool_decide (x ∈ l) = false → x ∉ l.
Proof. apply bool_decide_eq_false. Qed.

Lemma before_link s :
  Importer.match_span "color" (91%N :: s) = None
  ∧ Importer.match_span "background-color" (91%N :: s) = None
  ∧ Importer.match_tag "<u>" "</u>" (91%N :: s) = None
  ∧ Importer.match_delim "***" (91%N :: s) = None
  ∧ Importer.match_delim "**" (91%N :: s) = None
  ∧ Importer.match_delim "*" (91%N :: s) = None
  ∧ Importer.match_delim "~~" (91%N :: s) = None
  ∧ Importer.match_code (91%N :: s) = None.
Proof. by split_and!. Qed.

Lemma match_link_plain link_text link_url remaining :
  link_text ≠ [] → 93%N ∉ link_text → link_url ≠ [] → 41%N ∉ link_url →
  Importer.match_link
    (py "[" ++ link_text ++ py "](" ++ link_url ++ py ")" ++ remaining)
  = Some (link_text, link_url, remaining).
Proof.
  intros Ht Hbracket Hu Hparen. unfold Importer.match_link.
  rewrite strip_prefix_app. cbn [mbind option_bind]. unfold Importer.run_not.
  change (py "](" ++ link_url ++ py ")" ++ remaining)
    with (93%N :: py "(" ++ link_url ++ 41%N :: remaining).
  rewrite span_not_sep by done. destruct link_text as [|c t]; [done|].
  change (93%N :: py "(" ++ link_url ++ 41%N :: remaining)
    with (py "](" ++ link_url ++ 41%N :: remaining).
  rewrite strip_prefix_app. cbn [mbind option_bind].
  rewrite span_not_sep by done. by destruct link_url.
Qed.

Lemma parse_link_step fuel tail ann link_text link_url remaining :
  Importer.match_link (91%N :: tail) = Some (link_text, link_url, remaining) →
  Importer._parse_rich_text_recursive (S fuel) (91%N :: tail) ann
  = link_segments ← Importer._parse_rich_text_recursive fuel link_text ann;
    b ← Importer._parse_rich_text_recursive fuel remaining ann;
    Some ((if startswith (py "http") link_url
           then (λ seg, Importer.Segment (Importer.content seg)
                          (Importer.seg_annotations seg) (Some link_url))
                  <$> link_segments
           else link_segments) ++ b).
Proof.
  intros Hlink. cbn [Importer._parse_rich_text_recursive].
  destruct (before_link tail) as (H1 & H2 & H3 & H4 & H5 & H6 & H7 & H8).
  by rewrite H1, H2, H3, H4, H5, H6, H7, H8, Hlink.
Qed.

Lemma _rich_text_link link_text link_url remaining :
  link_text ≠ [] →
  Forall (λ c, Importer.is_special c = false ∧ c ≠ 93%N) link_text →
  link_url ≠ [] → 41%N ∉ link_url →
  ∃ rest_segs,
    Importer._parse_rich_text_recursive (length remaining) remaining
      Importer.no_annotations = Some rest_segs
    ∧ Importer._rich_text
        (py "[" ++ link_text ++ py "](" ++ link_url ++ py ")" ++ remaining)
      = Some (Importer.Segment link_text None
                (if startswith (py "http") link_url then Some link_url else None)
              :: rest_segs).
Proof.
  intros Ht Hplain Hu Hparen.
  destruct (parse_rich_text_returns (length remaining) remaining
              Importer.no_annotations (le_n _)) as [rest_segs Hrest].
  exists rest_segs. split; [done|].
  assert (93%N ∉ link_text) as Hbracket.
  { intros Hin. rewrite Forall_forall in Hplain. by destruct (Hplain _ Hin). }
  pose proof (match_link_plain link_text link_url remaining Ht Hbracket Hu Hparen)
    as Hlink.
  set (tail := link_text ++ py "](" ++ link_url ++ py ")" ++ remaining) in *.
  change (py "[" ++ tail) with (91%N :: tail) in *.
  unfold Importer._rich_text.
  assert (∃ fuel, length (91%N :: tail) = S (S fuel) ∧ length remaining ≤ S fuel)
    as (fuel & -> & Hfuel).
  { exists (length link_text + length link_url + length remaining + 2).
    unfold tail. cbn [length]. rewrite !length_app. cbn. lia. }
  rewrite (parse_link_step _ _ _ _ _ _ Hlink).
  rewrite (parse_plain fuel link_text Importer.no_annotations Ht).
  2:{ eapply Forall_impl; [exact Hplain|]. by intros c [? _]. }
  cbn [mbind option_bind].
  rewrite (parse_rich_text_more_fuel _ _ _ _ _ Hfuel Hrest).
  cbn [mbind option_bind]. by destruct (startswith (py "http") link_url).
Qed.

(** X13.  The importer's [_rich_text] gives a segment a link only to an
    address that starts with [http], and a Markdown link of another kind
    (a relative path, a mail address) keeps its text and loses its target:
    a text that opens with a link whose text is plain gives one segment
    with the link text, without annotations, linked to the target if it
    starts with [http] and not linked otherwise, followed by the segments
    of the rest of the text. *)
Theorem _rich_text_links_are_http (text : list N) :
  ∃ segs,
    Importer._rich_text text = Some segs
    ∧ Forall (λ s, ∀ u, Importer.link s = Some u → startswith (py "http") u = true)
        segs
    ∧ ∀ link_text link_url remaining,
        text = py "[" ++ link_text ++ py "](" ++ link_url ++ py ")" ++ remaining →
        link_text ≠ [] →
        Forall (λ c, Importer.is_special c = false ∧ c ≠ 93%N) link_text →
        link_url ≠ [] → 41%N ∉ link_url →
        ∃ rest_segs,
          Importer._parse_rich_text_recursive (length remaining) remaining
            Importer.no_annotations = Some rest_segs
          ∧ segs = Importer.Segment link_text None
                     (if startswith (py "http") link_url then Some link_url
                      else None)
                   :: rest_segs.
Proof.
  destruct (_rich_text_returns text) as (segs & Hsegs & _ & _ & _ & H3).
  exists segs. split_and!; [done..|].
  intros link_text link_url remaining -> Ht Hplain Hu Hparen.
  destruct (_rich_text_link link_text link_url remaining Ht Hplain Hu Hparen)
    as (rest_segs & Hrest & Hlink).
  exists rest_segs. split; [done|]. congruence.
Qed.

Lemma _rich_text_links_are_http_witness :
  Importer._rich_text (py "[the plan](docs/plan.md) and [the site](https://a.example)")
  = Some [Importer.Segment (py "the plan") None None;
          Importer.Segment (py " and ") None None;
          Importer.Segment (py "the site") None (Some (py "https://a.example"))].
Proof.
  destruct (_rich_text_links_are_http
              (py "[the plan](docs/plan.md) and [the site](https://a.example)"))
    as (segs & -> & _ & Hlink).
  destruct (Hlink (py "the plan") (py "docs/plan.md")
              (py " and [the site](https://a.example)"))
    as (rest_segs & Hrest & ->); [done|done| |done| |].
  - repeat constructor; done.
  - by apply notin_literal.
  - vm_compute in Hrest. by injection Hrest as <-.
Defined.

(** ** The Markdown parser returns *)

Lemma weight_app a b : weight (a ++ b) = weight a + weight b.
Proof. induction a as [|l a IH]; cbn; [done|]. rewrite IH. lia. Qed.

Lemma weight_split s : weight (split 10 s) = S (length s).
Proof.
  induction s as [|c s IH]; [done|]. cbn [split].
  destruct (c =? 10)%N.
  - cbn. by rewrite IH.
  - destruct (split 10 s) as [|w ws]; [done|]. cbn in *. lia.
Qed.

Lemma weight_join ls : ls ≠ [] → S (length (join nl ls)) = weight ls.
Proof.
  induction ls as [|l ls IH]; [done|]. intros _.
  destruct ls as [|l' ls'].
  - cbn. lia.
  - change (join nl (l :: l' :: ls')) with (l ++ nl ++ join nl (l' :: ls')).
    cbn [weight] in *. rewrite !length_app. cbn [length nl].
    specialize (IH ltac:(done)). lia.
Qed.

Lemma code_lines_app rest body remaining :
  Importer.code_lines rest = (body, remaining) → rest = body ++ remaining.
Proof.
  revert body remaining. induction rest as [|l rest IH]; intros body remaining; cbn.
  - by intros [= <- <-].
  - destruct (startswith _ l); [by intros [= <- <-]|].
    destruct (Importer.code_lines rest) as [b r]. intros [= <- <-].
    by rewrite (IH b r eq_refl).
Qed.

Lemma table_lines_app rest : ∀ added_last more remaining,
  Importer.table_lines added_last rest = (more, remaining) → rest = more ++ remaining.
Proof.
  induction rest as [|l rest IH]; intros added_last more remaining; cbn.
  - by destruct (contains _ added_last); intros [= <- <-].
  - destruct (contains _ added_last); [by intros [= <- <-]|].
    destruct (Importer.table_lines l rest) as [m r] eqn:Hm. intros [= <- <-].
    by rewrite (IH _ _ _ Hm).
Qed.

Lemma details_lines_app rest : ∀ depth more remaining,
  Importer.details_lines rest depth = (more, remaining) → rest = more ++ remaining.
Proof.
  induction rest as [|l rest IH]; intros depth more remaining; cbn.
  - by destruct depth; intros [= <- <-].
  - destruct depth as [|depth]; [by intros [= <- <-]|].
    destruct (Importer.details_lines rest _) as [m r] eqn:Hm. intros [= <- <-].
    by rewrite (IH _ _ _ Hm).
Qed.

Lemma lstrip_length s : length (lstrip s) ≤ length s.
Proof. destruct (lstrip_suffix s) as [k Hk]. rewrite Hk at 2. rewrite length_app. lia. Qed.

Lemma strip_length s : length (strip s) ≤ length s.
Proof.
  unfold strip, rstrip. rewrite length_reverse.
  etransitivity; [apply lstrip_length|]. rewrite length_reverse. apply lstrip_length.
Qed.

Lemma lstrip_char_length x s : length (lstrip_char x s) ≤ length s.
Proof.
  destruct (lstrip_char_suffix x s) as [k Hk]. rewrite Hk at 2.
  rewrite length_app. lia.
Qed.

Lemma strip_char_length x s : length (strip_char x s) ≤ length s.
Proof.
  unfold strip_char. rewrite length_reverse.
  etransitivity; [apply lstrip_char_length|]. rewrite length_reverse.
  apply lstrip_char_length.
Qed.

Lemma match_td_length s cell rest :
  Importer.match_td s = Some (cell, rest) →
  length cell + length rest < length s.
Proof.
  unfold Importer.match_td. intros (s1 & H1 & H)%bind_Some.
  destruct (Importer.span_not 62 s1) as [a b] eqn:Hs.
  apply bind_Some in H as (s2 & H2 & H3).
  apply strip_prefix_length in H1, H2. apply span_not_app in Hs as ->.
  apply lazy_until_length in H3. rewrite length_app in H1. cbn in *. lia.
Qed.

Lemma findall_td_cells fuel : ∀ s,
  Forall (λ cell, length cell < length s) (Importer.findall_td fuel s).
Proof.
  induction fuel as [|fuel IH]; intros s; cbn [Importer.findall_td]; [constructor|].
  destruct (Importer.match_td s) as [[cell rest]|] eqn:Hm.
  - apply match_td_length in Hm. constructor; [lia|].
    eapply Forall_impl; [apply IH|]. cbn. intros; lia.
  - destruct s as [|c s]; [constructor|].
    eapply Forall_impl; [apply IH|]. cbn. intros; lia.
Qed.

Lemma greedy_until_length close s inner :
  Importer.greedy_until close s = Some inner → length inner ≤ length s.
Proof.
  revert inner. induction s as [|c s IH]; intros inner; cbn.
  - destruct (startswith close []); [|done]. by intros [= <-].
  - destruct (Importer.greedy_until close s) as [i|].
    + intros [= <-]. cbn. specialize (IH i eq_refl). lia.
    + destruct (startswith close (c :: s)); [|done]. intros [= <-]. cbn. lia.
Qed.

Lemma paragraph_lines_app rest absorbed remaining :
  Importer.paragraph_lines rest = (absorbed, remaining) → rest = absorbed ++ remaining.
Proof. by intros (? & _)%paragraph_lines_spec. Qed.

Lemma weight_drop n ls : weight (drop n ls) ≤ weight ls.
Proof.
  rewrite <- (take_drop n ls) at 2. rewrite weight_app. lia.
Qed.

Lemma suffix_length {A} (t s : list A) : t `suffix_of` s → length t ≤ length s.
Proof. intros [k ->]. rewrite length_app. lia. Qed.

Lemma parse_lines_returns h assets_dir :
  ∀ fuel lines,
    weight lines ≤ fuel →
    is_Some (Importer.parse_lines fuel h assets_dir lines).
Proof.
  induction fuel as [|fuel IH]; intros lines Hw.
  { destruct lines; [by eexists|cbn in Hw; lia]. }
  destruct lines as [|line rest]; [by eexists|].
  cbn [weight] in Hw.
  cbn [Importer.parse_lines].
  destruct (Importer.code_lines rest) as [body after_code] eqn:Hcode.
  apply code_lines_app in Hcode. apply (f_equal weight) in Hcode.
  rewrite weight_app in Hcode. pose proof (weight_drop 1 after_code) as Hdrop.
  destruct (Importer.paragraph_lines rest) as [absorbed after_par] eqn:Hpar.
  apply paragraph_lines_app in Hpar. apply (f_equal weight) in Hpar.
  rewrite weight_app in Hpar.
  destruct (Importer.table_lines line rest) as [more after_table] eqn:Htable.
  apply table_lines_app in Htable. apply (f_equal weight) in Htable.
  rewrite weight_app in Htable.
  pose proof (weight_join (line :: more) ltac:(done)) as Htable_html.
  destruct (Importer.details_lines rest 1) as [inside after_details] eqn:Hdetails.
  apply details_lines_app in Hdetails. apply (f_equal weight) in Hdetails.
  rewrite weight_app in Hdetails.
  pose proof (weight_join (line :: inside) ltac:(done)) as Hdetails_html.
  cbn [weight] in Htable_html, Hdetails_html.
  repeat first
    [ progress cbn [mbind option_bind]
    | match goal with
      | |- is_Some (Some _) => by eexists
      | |- is_Some (mbind _ (Importer._rich_text ?t)) =>
          let segs := fresh "segs" in
          destruct (_rich_text_returns t) as (segs & -> & _)
      | |- is_Some (mbind _ (Importer.parse_lines fuel h assets_dir ?r)) =>
          let bs := fresh "bs" in
          destruct (IH r) as [bs ->]; [lia|]
      | |- is_Some (mbind _ (mapM ?f ?cells)) =>
          let columns := fresh "columns" in
          destruct (mapM_is_Some_2 f cells) as [columns ->];
          [eapply Forall_impl; [apply findall_td_cells|];
           intros cell Hcell; cbn beta in Hcell |- *; apply IH; rewrite weight_split;
           pose proof (strip_char_length 10 (strip cell));
           pose proof (strip_length cell); lia|]
      | |- is_Some (let (_, _) := ?p in _) => destruct p
      | |- is_Some (if ?c then _ else _) => destruct c eqn:?
      | |- is_Some (match ?x with Some _ => _ | None => _ end) => destruct x as [[]|] eqn:?
      | |- is_Some (match ?x with Some _ => _ | None => _ end) => destruct x eqn:?
      end ].
  match goal with
  | |- context [re_search ?m (join nl (line :: inside))] =>
      destruct (re_search m (join nl (line :: inside))) as [c|] eqn:Hc
  end.
  - apply re_search_Some in Hc as (t & Hsuf & Hm). apply suffix_length in Hsuf.
    apply bind_Some in Hm as (s1 & H1 & H2).
    apply strip_prefix_length in H1. apply greedy_until_length in H2.
    change (length (py "</summary>")) with 10 in H1.
    pose proof (strip_length c) as Hc.
    destruct (strip c) as [|x content_text] eqn:Hstrip.
    + cbn [mbind option_bind].
      destruct (_rich_text_returns (strip l)) as (segs & -> & _).
      cbn [mbind option_bind].
      destruct (IH after_details) as [bs ->]; [lia|by eexists].
    + destruct (IH (split 10 (x :: content_text))) as [child_blocks ->].
      { rewrite weight_split. cbn [length] in *. lia. }
      cbn [mbind option_bind].
      destruct (_rich_text_returns (strip l)) as (segs & -> & _).
      cbn [mbind option_bind].
      destruct (IH after_details) as [bs ->]; [lia|by eexists].
  - cbn [mbind option_bind].
    destruct (_rich_text_returns (strip l)) as (segs & -> & _).
    cbn [mbind option_bind].
    destruct (IH after_details) as [bs ->]; [lia|by eexists].
Qed.

(** X14.  The Markdown parser terminates on every document: given fuel
    for the length of the text plus one, [_parse_markdown] returns a list
    of blocks whatever the lines are, unclosed fences, tables and toggles
    and tables and toggles inside one another included. *)
Theorem _parse_markdown_returns (h : host) (md_content : list N)
    (assets_dir : list (list N)) :
  is_Some (Importer._parse_markdown (S (length md_content)) h md_content assets_dir).
Proof.
  unfold Importer._parse_markdown. apply parse_lines_returns.
  by rewrite weight_split.
Qed.

(** ** Export followed by import, block by block *)

Lemma split_app c a b : split c (a ++ c :: b) = split c a ++ split c b.
Proof.
  induction a as [|x a IH]; cbn [app split].
  - by rewrite N.eqb_refl.
  - destruct (x =? c)%N; [by rewrite IH|].
    rewrite IH. destruct (split c a) as [|w ws] eqn:Hs; [|done].
    by apply split_nonempty in Hs.
Qed.

Lemma concat_lines s : concat ((λ l, l ++ nl) <$> split 10 s) = s ++ nl.
Proof.
  induction s as [|x s IH]; [reflexivity|]. cbn [split].
  destruct (N.eqb_spec x 10) as [->|Hne].
  - cbn. by rewrite IH.
  - destruct (split 10 s) as [|w ws] eqn:Hs; [by apply split_nonempty in Hs|].
    cbn in *. by rewrite IH.
Qed.

Lemma split_lines ls rest :
  Forall (λ l, 10%N ∉ l) ls →
  split 10 (concat ((λ l, l ++ nl) <$> ls) ++ rest) = ls ++ split 10 rest.
Proof.
  induction 1 as [|l ls Hl _ IH]; [done|].
  cbn. rewrite <- !app_assoc. cbn. by rewrite split_app_sep, IH.
Qed.

Lemma simple_markdown_code language code :
  simple_markdown (SCode language code)
  = nl ++ py "```" ++ language ++ nl ++ code ++ nl ++ py "```" ++ nl ++ nl.
Proof.
  unfold simple_markdown. cbn [simple_lines].
  rewrite !fmap_app, !concat_app, concat_lines. cbn.
  by rewrite <- !app_assoc.
Qed.

Lemma render_simple net cache blocks id b k fuel page_dir space_id :
  blocks !! id = Some b → is_simple b k → simple_ok k →
  Exporter._render_block (S fuel) net cache blocks id 0 page_dir space_id
  = Some (simple_markdown k).
Proof.
  intros Hb (Halive & Hcontent & Htype & Hanns & Htitle & Hlang & Hicon) Hok.
  cbn [Exporter._render_block].
  rewrite Hb, Halive, Htype, Hcontent. cbn [negb].
  rewrite (markdown_of_unannotated net cache true _ Hanns), Htitle, Hlang.
  cbn [mbind option_bind].
  destruct k as [level t|t|t|t|t|icon t| |language code];
    cbn [simple_type simple_text simple_language].
  - destruct Hok as [Hlevel _].
    destruct level as [|[|[|[|level]]]]; [lia| | | |lia]; eval_is_type;
      unfold simple_markdown; cbn; by rewrite ?app_nil_r, <- ?app_assoc.
  - destruct Hok as [(Hne & _) _]. eval_is_type.
    destruct t as [|c t]; [done|].
    unfold simple_markdown; cbn. by rewrite ?app_nil_r, <- ?app_assoc.
  - eval_is_type. unfold simple_markdown; cbn. by rewrite ?app_nil_r, <- ?app_assoc.
  - eval_is_type. unfold simple_markdown; cbn. by rewrite ?app_nil_r, <- ?app_assoc.
  - eval_is_type. unfold simple_markdown; cbn. by rewrite ?app_nil_r, <- ?app_assoc.
  - eval_is_type. rewrite Hicon.
    assert (match strip t with
            | [] => Some (t, @nil (list N))
            | _ :: _ => Some (t, [])
            end = Some (t, [])) as -> by by destruct (strip t).
    unfold simple_markdown; cbn. by rewrite ?app_nil_r, <- ?app_assoc.
  - eval_is_type. reflexivity.
  - eval_is_type. rewrite simple_markdown_code.
    cbn [mbind option_bind Exporter.render_each mapM]. cbn. by rewrite !app_nil_r.
Qed.

Lemma render_simple_each net cache blocks fuel page_dir space_id ids ks :
  Forall2 (λ id k, ∃ b, blocks !! id = Some b ∧ is_simple b k ∧ simple_ok k) ids ks →
  Exporter.render_each
    (λ cid, Exporter._render_block (S fuel) net cache blocks cid 0 page_dir space_id)
    ids
  = Some (concat (simple_markdown <$> ks)).
Proof.
  intros Hall. unfold Exporter.render_each.
  rewrite (mapM_Some_2 _ ids (simple_markdown <$> ks)); [done|].
  apply Forall2_fmap_r. eapply Forall2_impl; [exact Hall|].
  intros id k (b & Hb & Hk & Hok). by eapply render_simple.
Qed.

(** *** Lines *)

Lemma lstrip_fixed s :
  match head s with Some c => is_space c = false | None => True end →
  lstrip s = s.
Proof. destruct s as [|c s]; [done|]. cbn. by intros ->. Qed.

Lemma strip_fixed s :
  match head s with Some c => is_space c = false | None => True end →
  match last s with Some c => is_space c = false | None => True end →
  strip s = s.
Proof.
  intros Hhead Hlast. unfold strip, rstrip. rewrite (lstrip_fixed s Hhead).
  rewrite lstrip_fixed; [apply reverse_involutive|].
  by rewrite head_reverse.
Qed.

Lemma plain_char_not_space c :
  (32 ≤ c)%N → (c < 127)%N → c ≠ 32%N → is_space c = false.
Proof.
  intros H1 H2 H3. unfold is_space.
  repeat (apply orb_false_iff; split);
    rewrite ?andb_false_iff, ?N.leb_gt, ?N.eqb_neq; lia.
Qed.

Lemma line_ok_ends t :
  line_ok t →
  match head t with Some c => is_space c = false | None => True end
  ∧ match last t with Some c => is_space c = false | None => True end.
Proof.
  intros (Hne & Hall & Hhead & Hlast). rewrite Forall_forall in Hall. split.
  - destruct (head t) as [c|] eqn:Hc; [|done].
    destruct (Hall c (head_Some_elem_of _ _ Hc)) as (? & ? & _).
    apply plain_char_not_space; [done..|congruence].
  - destruct (last t) as [c|] eqn:Hc; [|done].
    destruct (Hall c (last_Some_elem_of _ _ Hc)) as (? & ? & _).
    apply plain_char_not_space; [done..|congruence].
Qed.

Lemma line_ok_strip t : line_ok t → strip t = t.
Proof. intros [? ?]%line_ok_ends. by apply strip_fixed. Qed.

Lemma line_ok_prefixed (p : list N) t :
  match head p with Some c => is_space c = false | None => False end →
  line_ok t → strip (p ++ t) = p ++ t.
Proof.
  intros Hp Ht. destruct (line_ok_ends t Ht) as [_ Hlast].
  destruct Ht as (Hne & _).
  apply strip_fixed.
  - destruct p as [|c p]; [done|]. exact Hp.
  - rewrite last_app. destruct (last t) eqn:Hl; [done|].
    by apply last_None in Hl.
Qed.

Lemma line_ok_no_newline t : line_ok t → 10%N ∉ t.
Proof.
  intros (_ & Hall & _) Hin. rewrite Forall_forall in Hall.
  destruct (Hall _ Hin) as (? & _). lia.
Qed.

Lemma line_ok_special t x : line_ok t → Importer.is_special x = true → x ∉ t.
Proof.
  intros (_ & Hall & _) Hx Hin. rewrite Forall_forall in Hall.
  destruct (Hall _ Hin) as (_ & _ & ?). congruence.
Qed.

Lemma _rich_text_line t :
  line_ok t → Importer._rich_text t = Some [Importer.Segment t None None].
Proof.
  intros (Hne & Hall & _). unfold Importer._rich_text.
  destruct t as [|c t]; [done|].
  change (length (c :: t)) with (S (length t)).
  rewrite parse_plain; [done|done|].
  eapply Forall_impl; [exact Hall|]. cbn. tauto.
Qed.

(** Decides the tests on a line whose beginning is known. *)
Ltac eval_line_tests :=
  repeat match goal with
         | |- context [startswith ?p ?s] =>
             let v := eval vm_compute in (startswith p s) in
             match v with
             | true => change (startswith p s) with true
             | false => change (startswith p s) with false
             end
         | |- context [str_eqb ?a ?b] =>
             let v := eval vm_compute in (str_eqb a b) in
             match v with
             | true => change (str_eqb a b) with true
             | false => change (str_eqb a b) with false
             end
         end.

Lemma parse_blank h assets_dir fuel rest :
  Importer.parse_lines (S fuel) h assets_dir ([] :: rest)
  = Importer.parse_lines fuel h assets_dir rest.
Proof.
  cbn [Importer.parse_lines]. change (strip []) with (@nil N).
  eval_line_tests. cbv iota. by destruct (Importer.parse_lines fuel h assets_dir rest).
Qed.

Lemma parse_heading h assets_dir fuel level t rest :
  1 ≤ level ≤ 3 → line_ok t →
  Importer.parse_lines (S fuel) h assets_dir
    ((replicate level 35%N ++ py " " ++ t) :: rest)
  = blocks ← Importer.parse_lines fuel h assets_dir rest;
    Some (Importer.Heading level [Importer.Segment t None None] :: blocks).
Proof.
  intros Hlevel Ht.
  destruct level as [|[|[|[|level]]]]; [lia| | | |lia].
  - change (replicate 1 35%N ++ py " " ++ t) with (py "# " ++ t).
    cbn [Importer.parse_lines].
    rewrite (line_ok_prefixed (py "# ") t) by done.
    eval_line_tests. cbv iota.
    change (drop 2 (py "# " ++ t)) with t.
    by rewrite (line_ok_strip t), (_rich_text_line t).
  - change (replicate 2 35%N ++ py " " ++ t) with (py "## " ++ t).
    cbn [Importer.parse_lines].
    rewrite (line_ok_prefixed (py "## ") t) by done.
    eval_line_tests. cbv iota.
    change (drop 3 (py "## " ++ t)) with t.
    by rewrite (line_ok_strip t), (_rich_text_line t).
  - change (replicate 3 35%N ++ py " " ++ t) with (py "### " ++ t).
    cbn [Importer.parse_lines].
    rewrite (line_ok_prefixed (py "### ") t) by done.
    eval_line_tests. cbv iota.
    change (drop 4 (py "### " ++ t)) with t.
    by rewrite (line_ok_strip t), (_rich_text_line t).
Qed.

Lemma parse_divider h assets_dir fuel rest :
  Importer.parse_lines (S fuel) h assets_dir (py "---" :: rest)
  = blocks ← Importer.parse_lines fuel h assets_dir rest;
    Some (Importer.Divider :: blocks).
Proof.
  cbn [Importer.parse_lines]. change (strip (py "---")) with (py "---").
  eval_line_tests. by cbv iota.
Qed.

Lemma parse_bulleted h assets_dir fuel t rest :
  line_ok t →
  Importer.parse_lines (S fuel) h assets_dir ((py "- " ++ t) :: rest)
  = blocks ← Importer.parse_lines fuel h assets_dir rest;
    Some (Importer.Bulleted [Importer.Segment t None None] :: blocks).
Proof.
  intros Ht. cbn [Importer.parse_lines].
  rewrite (line_ok_prefixed (py "- ") t) by done.
  assert (str_eqb (py "- " ++ t) (py "---") = false) as ->.
  { apply bool_decide_eq_false_2. by intros [=]. }
  eval_line_tests. cbv iota.
  change (drop 2 (py "- " ++ t)) with t.
  by rewrite (_rich_text_line t).
Qed.

Lemma match_numbered_None h x s :
  ascii_digits h → (x < 128)%N → is_space x = false → is_ascii_digit x = false →
  Importer.match_numbered h (x :: s) = None.
Proof.
  intros Hh Hx Hspace Hdigit. unfold Importer.match_numbered, skip_ws.
  cbn [lstrip]. rewrite Hspace. by rewrite (Hh x Hx), Hdigit.
Qed.

Lemma match_numbered_item h t :
  ascii_digits h → Importer.match_numbered h (py "1. " ++ t) = Some t.
Proof.
  intros Hh. unfold Importer.match_numbered, skip_ws.
  change (py "1. " ++ t) with (49%N :: 46%N :: 32%N :: t).
  cbn [lstrip]. change (is_space 49) with false. cbv iota.
  rewrite (Hh 49%N) by done. change (is_ascii_digit 49) with true. cbv iota.
  cbn [Importer.skip_digits]. rewrite (Hh 46%N) by done.
  change (is_ascii_digit 46) with false. cbv iota.
  by change (is_space 32) with true.
Qed.

Lemma parse_numbered h assets_dir fuel t rest :
  ascii_digits h → line_ok t →
  Importer.parse_lines (S fuel) h assets_dir ((py "1. " ++ t) :: rest)
  = blocks ← Importer.parse_lines fuel h assets_dir rest;
    Some (Importer.Numbered [Importer.Segment t None None] :: blocks).
Proof.
  intros Hh Ht. cbn [Importer.parse_lines].
  rewrite (line_ok_prefixed (py "1. ") t) by done.
  eval_line_tests. cbv iota.
  by rewrite (match_numbered_item h t Hh), (_rich_text_line t).
Qed.

Lemma emoji_match_ascii c s : (c < 127)%N → Importer.emoji_match (c :: s) = None.
Proof.
  intros Hc. unfold Importer.emoji_match.
  assert ((127744 <=? c)%N = false) as -> by (apply N.leb_gt; lia).
  cbn [andb]. cbv iota.
  assert ((226 =? c)%N = false) as H226 by (apply N.eqb_neq; lia).
  assert ((287 =? c)%N = false) as H287 by (apply N.eqb_neq; lia).
  unfold Importer.callout_icons.
  cbn [Importer.first_prefix strip_prefix]. by rewrite ?H226, ?H287.
Qed.

Lemma parse_quote h assets_dir fuel t rest :
  ascii_digits h → line_ok t →
  Importer.parse_lines (S fuel) h assets_dir ((py "> " ++ t) :: rest)
  = blocks ← Importer.parse_lines fuel h assets_dir rest;
    Some (Importer.Quote [Importer.Segment t None None] :: blocks).
Proof.
  intros Hh Ht. cbn [Importer.parse_lines].
  rewrite (line_ok_prefixed (py "> ") t) by done.
  eval_line_tests. cbv iota.
  change (py "> " ++ t) with (62%N :: 32%N :: t) at 1.
  rewrite (match_numbered_None h 62%N) by done.
  change (drop 2 (py "> " ++ t)) with t. rewrite (line_ok_strip t) by done.
  rewrite (_rich_text_line t) by done.
  destruct Ht as (Hne & Hall & Hrest). destruct t as [|c t]; [done|].
  apply Forall_cons in Hall as [(_ & Hc & _) Hall'].
  by rewrite (emoji_match_ascii c t Hc).
Qed.

Lemma parse_callout h assets_dir fuel icon t rest :
  ascii_digits h → (127744 ≤ icon)%N → (icon ≤ 129535)%N → line_ok t →
  Importer.parse_lines (S fuel) h assets_dir
    ((py "> " ++ icon :: py " " ++ t) :: rest)
  = blocks ← Importer.parse_lines fuel h assets_dir rest;
    Some (Importer.Callout [Importer.Segment t None None] [icon] :: blocks).
Proof.
  intros Hh Hlow Hhigh Ht. cbn [Importer.parse_lines].
  assert (is_space icon = false) as Hicon.
  { unfold is_space.
    repeat (apply orb_false_iff; split);
      rewrite ?andb_false_iff, ?N.leb_gt, ?N.eqb_neq; lia. }
  assert (strip (py "> " ++ icon :: py " " ++ t) = py "> " ++ icon :: py " " ++ t)
    as ->.
  { change (py "> " ++ icon :: py " " ++ t) with ((py "> " ++ [icon] ++ py " ") ++ t).
    by apply line_ok_prefixed. }
  assert (str_eqb (py "> " ++ icon :: py " " ++ t) (py "---") = false) as ->.
  { apply bool_decide_eq_false_2. by intros [=]. }
  eval_line_tests. cbv iota.
  change (py "> " ++ icon :: py " " ++ t) with (62%N :: 32%N :: icon :: 32%N :: t) at 1.
  rewrite (match_numbered_None h 62%N) by done.
  change (drop 2 (py "> " ++ icon :: py " " ++ t)) with (icon :: py " " ++ t).
  assert (strip (icon :: py " " ++ t) = icon :: py " " ++ t) as ->.
  { change (icon :: py " " ++ t) with (([icon] ++ py " ") ++ t).
    by apply line_ok_prefixed. }
  unfold Importer.emoji_match.
  rewrite (proj2 (N.leb_le _ _) Hlow), (proj2 (N.leb_le _ _) Hhigh).
  cbn [andb mbind option_bind]. unfold skip_ws.
  change (lstrip (py " " ++ t)) with (lstrip t).
  rewrite lstrip_fixed by by destruct (line_ok_ends t Ht).
  by rewrite (_rich_text_line t).
Qed.

Lemma join_split s : join nl (split 10 s) = s.
Proof.
  induction s as [|x s IH]; [done|]. cbn [split].
  destruct (N.eqb_spec x 10) as [->|Hne].
  - destruct (split 10 s) as [|w ws] eqn:Hs; [by apply split_nonempty in Hs|].
    change (join nl ([] :: w :: ws)) with ([] ++ nl ++ join nl (w :: ws)).
    by rewrite IH.
  - destruct (split 10 s) as [|w ws] eqn:Hs; [by apply split_nonempty in Hs|].
    destruct ws as [|w' ws].
    + cbn in *. by rewrite IH.
    + change (join nl ((x :: w) :: w' :: ws))
        with (x :: (w ++ nl ++ join nl (w' :: ws))).
      change (join nl (w :: w' :: ws)) with (w ++ nl ++ join nl (w' :: ws)) in IH.
      by rewrite IH.
Qed.

Lemma code_lines_fence body x rest :
  Forall (λ l, startswith (py "```") l = false) body →
  Importer.code_lines (body ++ (py "```" ++ x) :: rest)
  = (body, (py "```" ++ x) :: rest).
Proof.
  induction 1 as [|l body Hl _ IH]; cbn [app Importer.code_lines].
  - by rewrite (proj2 (startswith_true _ _)) by by eexists.
  - by rewrite Hl, IH.
Qed.

Lemma parse_code h assets_dir fuel language code rest :
  ascii_digits h → trimmed language →
  Forall (λ l, startswith (py "```") l = false) (split 10 code) →
  Importer.parse_lines (S fuel) h assets_dir
    ((py "```" ++ language) :: split 10 code ++ py "```" :: [] :: rest)
  = blocks ← Importer.parse_lines fuel h assets_dir ([] :: rest);
    Some (Importer._code_block h code language :: blocks).
Proof.
  intros Hh [Hhead Hlast] Hcode. cbn [Importer.parse_lines].
  assert (strip (py "```" ++ language) = py "```" ++ language) as ->.
  { apply strip_fixed; [done|]. rewrite last_app.
    by destruct (last language). }
  assert (str_eqb (py "```" ++ language) (py "---") = false) as ->.
  { apply bool_decide_eq_false_2. by intros [=]. }
  eval_line_tests. cbv iota.
  change (py "```" ++ language) with (96%N :: 96%N :: 96%N :: language) at 1.
  rewrite (match_numbered_None h 96%N) by done.
  change (drop 3 (py "```" ++ language)) with language.
  rewrite (strip_fixed language Hhead Hlast).
  pose proof (code_lines_fence (split 10 code) [] ([] :: rest) Hcode) as Hfence.
  rewrite app_nil_r in Hfence. rewrite Hfence.
  by rewrite join_split.
Qed.

Lemma startswith_head x p c s : x ≠ c → startswith (x :: p) (c :: s) = false.
Proof.
  intros Hne. unfold startswith. cbn. by destruct (N.eqb_spec x c).
Qed.

Lemma startswith_missing p s x : x ∈ p → x ∉ s → startswith p s = false.
Proof.
  intros Hp Hs. destruct (startswith p s) eqn:H; [|done].
  apply startswith_true in H as [r ->]. destruct Hs.
  apply elem_of_app. by left.
Qed.

Lemma paragraph_lines_stop rest :
  match rest with
  | next :: _ => Importer.continues_paragraph next = false
  | [] => True
  end →
  Importer.paragraph_lines rest = ([], rest).
Proof. destruct rest as [|next rest]; [done|]. cbn. by intros ->. Qed.

Lemma parse_text h assets_dir fuel t rest :
  ascii_digits h → line_ok t → paragraph_start t →
  match rest with
  | next :: _ => Importer.continues_paragraph next = false
  | [] => True
  end →
  Importer.parse_lines (S fuel) h assets_dir (t :: rest)
  = blocks ← Importer.parse_lines fuel h assets_dir rest;
    Some (Importer.Paragraph [Importer.Segment t None None] :: blocks).
Proof.
  intros Hh Ht Hstart Hrest.
  pose proof (line_ok_strip t Ht) as Hstrip.
  pose proof (_rich_text_line t Ht) as Hrich.
  pose proof (line_ok_special t 91 Ht eq_refl) as H91.
  pose proof (line_ok_special t 96 Ht eq_refl) as H96.
  pose proof (line_ok_special t 60 Ht eq_refl) as H60.
  destruct (line_ok_ends t Ht) as [Hspace _].
  destruct Ht as (Hne & Hall & _).
  destruct t as [|c t']; [done|].
  cbn in Hstart, Hspace. destruct Hstart as (H35 & H45 & H62 & Hdigit).
  apply Forall_cons in Hall as [(_ & Hc & _) _].
  set (t := c :: t') in *.
  cbn [Importer.parse_lines]. rewrite Hstrip.
  assert (str_eqb t [] = false) as -> by by apply bool_decide_eq_false_2.
  assert (str_eqb t (py "---") = false) as ->.
  { apply bool_decide_eq_false_2. intros [= ? _]. done. }
  assert (startswith (py "# ") t = false) as -> by by apply startswith_head.
  assert (startswith (py "## ") t = false) as -> by by apply startswith_head.
  assert (startswith (py "### ") t = false) as -> by by apply startswith_head.
  assert (startswith (py "- ") t = false) as -> by by apply startswith_head.
  assert (startswith (py "> ") t = false) as -> by by apply startswith_head.
  assert (startswith (py "```") t = false) as ->
    by (apply (startswith_missing _ _ 96%N); [by vm_compute; left|done]).
  assert (startswith (py "<table>") t = false) as ->
    by (apply (startswith_missing _ _ 60%N); [by vm_compute; left|done]).
  assert (startswith (py "<details>") t = false) as ->
    by (apply (startswith_missing _ _ 60%N); [by vm_compute; left|done]).
  assert (startswith (py "![") t = false) as ->
    by (apply (startswith_missing _ _ 91%N); [by vm_compute; right; left|done]).
  assert (startswith Importer.video_marker t = false) as ->
    by (apply (startswith_missing _ _ 91%N); [by vm_compute; left|done]).
  assert (startswith Importer.audio_marker t = false) as ->
    by (apply (startswith_missing _ _ 91%N); [by vm_compute; left|done]).
  assert (Importer.whole_line_link t = false) as ->.
  { subst t. unfold Importer.whole_line_link.
    destruct (N.eqb_spec c 91) as [->|Hne91]; [|by destruct c as [|p]; [|repeat (destruct p as [p|p|]; try done)]].
    destruct H91. by left. }
  assert (Importer.match_numbered h t = None) as ->
    by (apply match_numbered_None; done || lia).
  cbn [orb]. cbv iota.
  rewrite (paragraph_lines_stop rest Hrest).
  change (join (py " ") [t]) with t. rewrite Hstrip.
  assert (str_eqb t [] = false) as -> by by apply bool_decide_eq_false_2.
  by rewrite Hrich.
Qed.

Lemma parse_simple h assets_dir k R fuel :
  ascii_digits h → simple_ok k →
  match k, R with
  | SText _, next :: _ => Importer.continues_paragraph next = false
  | _, _ => True
  end →
  Importer.parse_lines (steps k + fuel) h assets_dir (simple_lines k ++ R)
  = blocks ← Importer.parse_lines fuel h assets_dir R;
    Some (simple_iblock h k :: blocks).
Proof.
  intros Hh Hok Hnext.
  destruct k as [level t|t|t|t|t|icon t| |language code];
    cbn [steps simple_lines simple_iblock app Nat.add].
  - destruct Hok as [Hlevel Ht].
    rewrite parse_blank, parse_heading by done.
    rewrite parse_blank. done.
  - destruct Hok as [Ht Hstart].
    rewrite parse_blank, parse_text; [done..|by destruct R].
  - by rewrite parse_bulleted.
  - by rewrite parse_numbered.
  - rewrite parse_quote by done. by rewrite parse_blank.
  - destruct Hok as (Hlow & Hhigh & Ht).
    rewrite parse_callout by done. by rewrite parse_blank.
  - rewrite parse_blank, parse_divider. by rewrite parse_blank.
  - destruct Hok as (Hlang & Htrim & Hcode).
    rewrite parse_blank. rewrite <- app_assoc. cbn [app].
    rewrite parse_code by done. by rewrite parse_blank.
Qed.

Lemma continues_paragraph_blank : Importer.continues_paragraph [] = false.
Proof. reflexivity. Qed.

Lemma continues_paragraph_dash s :
  Importer.continues_paragraph (py "- " ++ s) = false.
Proof.
  unfold Importer.continues_paragraph.
  change (startswith (py "-") (py "- " ++ s)) with true.
  cbn [negb]. by rewrite !andb_false_r.
Qed.

Lemma continues_paragraph_quote s :
  Importer.continues_paragraph (py "> " ++ s) = false.
Proof.
  unfold Importer.continues_paragraph.
  change (startswith (py ">") (py "> " ++ s)) with true.
  cbn [negb]. by rewrite !andb_false_r.
Qed.

Lemma parse_simples h assets_dir ks :
  ascii_digits h → Forall simple_ok ks → separated ks →
  ∀ fuel,
    Importer.parse_lines (total_steps ks + S fuel) h assets_dir
      (concat (simple_lines <$> ks) ++ [[]])
    = Some (simple_iblock h <$> ks).
Proof.
  intros Hh Hok. induction Hok as [|k ks Hk Hks IH]; intros Hsep fuel.
  { cbn [total_steps Nat.add fmap list_fmap concat app]. rewrite parse_blank.
    by destruct fuel. }
  cbn [total_steps fmap list_fmap concat]. rewrite <- !app_assoc, <- Nat.add_assoc.
  rewrite parse_simple; [| done | done |].
  - rewrite IH; [done|]. destruct k; try done. by destruct ks as [|[] ?].
  - destruct k as [|t| | | | | |]; try by destruct (concat _ ++ _).
    destruct ks as [|k' ks]; [done|].
    destruct k'; cbn; try done.
    + apply continues_paragraph_dash.
    + apply continues_paragraph_quote.
    + apply continues_paragraph_quote.
Qed.

Lemma simple_lines_no_newline k :
  simple_ok k → Forall (λ l, 10%N ∉ l) (simple_lines k).
Proof.
  assert (∀ (p : list N) t, bool_decide (10%N ∈ p) = false → line_ok t →
                            10%N ∉ p ++ t) as Hline.
  { intros p t Hp Ht [Hin|Hin]%elem_of_app.
    - by apply bool_decide_eq_false in Hp.
    - by apply line_ok_no_newline in Hin. }
  destruct k as [level t|t|t|t|t|icon t| |language code]; cbn [simple_ok simple_lines].
  - intros [Hlevel Ht].
    repeat constructor; [apply not_elem_of_nil| |apply not_elem_of_nil].
    destruct level as [|[|[|[|level]]]]; [lia| | | |lia];
      rewrite app_assoc; by apply Hline.
  - intros [Ht _].
    repeat constructor; [apply not_elem_of_nil|by apply line_ok_no_newline].
  - intros Ht. repeat constructor. by apply Hline.
  - intros Ht. repeat constructor. by apply Hline.
  - intros Ht. repeat constructor; [by apply Hline|apply not_elem_of_nil].
  - intros (Hlow & _ & Ht).
    repeat constructor; [|apply not_elem_of_nil].
    intros [Hin|[Hin|Hin]%elem_of_cons]%elem_of_app.
    + revert Hin. by apply notin_literal.
    + lia.
    + revert Hin. by apply Hline.
  - intros _. repeat constructor; [apply not_elem_of_nil| |apply not_elem_of_nil].
    by apply notin_literal.
  - intros (Hlang & _ & _). cbn [app]. constructor; [apply not_elem_of_nil|].
    constructor.
    { intros [Hin|Hin]%elem_of_app; [|done].
      revert Hin. by apply notin_literal. }
    apply Forall_app. split; [apply split_pieces|].
    repeat constructor; [|apply not_elem_of_nil]. by apply notin_literal.
Qed.

Lemma simple_markdown_lines ks :
  concat (simple_markdown <$> ks)
  = concat ((λ l, l ++ nl) <$> concat (simple_lines <$> ks)).
Proof.
  induction ks as [|k ks IH]; [done|].
  cbn [fmap list_fmap concat]. rewrite fmap_app, concat_app, IH. done.
Qed.

Lemma steps_weight k : steps k ≤ weight (simple_lines k).
Proof.
  destruct k; cbn [steps simple_lines]; rewrite ?weight_app; cbn [weight]; lia.
Qed.

Lemma total_steps_weight ks :
  total_steps ks ≤ weight (concat (simple_lines <$> ks)).
Proof.
  induction ks as [|k ks IH]; [done|].
  cbn [total_steps fmap list_fmap concat]. rewrite weight_app.
  pose proof (steps_weight k). lia.
Qed.

Lemma import_of_simple_markdown h assets_dir ks fuel :
  ascii_digits h → Forall simple_ok ks → separated ks →
  S (length (concat (simple_markdown <$> ks))) ≤ fuel →
  Importer._parse_markdown fuel h (concat (simple_markdown <$> ks)) assets_dir
  = Some (simple_iblock h <$> ks).
Proof.
  intros Hh Hok Hsep Hfuel. unfold Importer._parse_markdown.
  rewrite <- weight_split in Hfuel.
  rewrite simple_markdown_lines in *.
  rewrite <- (app_nil_r (concat (_ <$> concat _))) in *.
  rewrite split_lines in *.
  2,3: (apply Forall_concat, Forall_fmap; eapply Forall_impl; [exact Hok|];
        intros k Hk; by apply simple_lines_no_newline).
  change (split 10 []) with [@nil N] in *.
  rewrite weight_app in Hfuel. cbn [weight length] in Hfuel.
  pose proof (total_steps_weight ks) as Hsteps.
  replace fuel with (total_steps ks + S (fuel - total_steps ks - 1)) by lia.
  by apply parse_simples.
Qed.

(** X15.  Export followed by import keeps a body of simple blocks: for
    live, childless blocks that are headings of level 1 to 3, paragraphs,
    bulleted and numbered items, quotes, callouts whose icon is one
    character of the emoji range, dividers and code blocks, with
    unannotated one-line texts of printable ASCII characters other than the
    encoder's special characters and without a space at either end (a
    paragraph not opening like another kind of line, a code text without a
    line that opens with a fence) and no numbered item right after a
    paragraph, the Markdown the exporter renders is parsed by the importer,
    on a host whose digits are 0 to 9 on the ASCII range, into the same
    blocks in the same order, each with its text in one segment. *)
Theorem export_import_simple_blocks (net : remote)
    (cache : gmap (list N) (list N)) (blocks : gmap (list N) block) (h : host)
    (assets_dir page_dir : list (list N)) (space_id : option (list N))
    (fuel : nat) (ids : list (list N)) (ks : list simple) :
  ascii_digits h →
  Forall2 (λ id k, ∃ b, blocks !! id = Some b ∧ is_simple b k ∧ simple_ok k) ids ks →
  separated ks →
  ∃ md,
    Exporter.render_each
      (λ cid, Exporter._render_block (S fuel) net cache blocks cid 0 page_dir
                space_id) ids
    = Some md
    ∧ ∀ fuel', S (length md) ≤ fuel' →
        Importer._parse_markdown fuel' h md assets_dir
        = Some (simple_iblock h <$> ks).
Proof.
  intros Hh Hall Hsep. exists (concat (simple_markdown <$> ks)).
  split; [by apply render_simple_each|].
  intros fuel' Hfuel. apply import_of_simple_markdown; [done| |done..].
  clear Hsep Hfuel. induction Hall as [|id k ids ks (b & _ & _ & Hk) _ IH];
    by constructor.
Qed.

Lemma export_import_simple_blocks_witness :
  ∃ md,
    Exporter.render_each
      (λ cid, Exporter._render_block 1 offline ∅ sample_body cid 0 [] None)
      [py "h"; py "p"; py "b"; py "n"; py "c"]
    = Some md
    ∧ Importer._parse_markdown (S (length md)) ascii_host md []
      = Some (simple_iblock ascii_host <$> sample_kinds).
Proof.
  destruct (export_import_simple_blocks offline ∅ sample_body ascii_host [] [] None 0
              [py "h"; py "p"; py "b"; py "n"; py "c"] sample_kinds)
    as (md & Hmd & Hparse).
  - by intros c Hc.
  - repeat first [apply List.Forall2_nil | apply List.Forall2_cons];
      (eexists; split; [by vm_compute|]);
      (split; [by repeat split; repeat constructor|]);
      unfold simple_ok, line_ok, paragraph_start, trimmed; compute_done.
  - exact I.
  - exists md. split; [done|]. by apply Hparse.
Defined.

(** ** Failures: page creation and fetching *)

Lemma append_remaining_calls fuel c page_id :
  ∀ bs calls r,
    Importer.append_remaining fuel c page_id bs = (calls, r) →
    match r with
    | Importer.Failed =>
        ∃ before refused_call,
          calls = before ++ [refused_call]
          ∧ Forall (accepted c) before ∧ ¬ accepted c refused_call
    | _ => Forall (accepted c) calls
    end.
Proof.
  induction fuel as [|fuel IH]; intros bs calls r; cbn [Importer.append_remaining].
  - destruct bs; intros [= <- <-]; constructor.
  - destruct bs as [|b bs]; [intros [= <- <-]; constructor|].
    destruct (Importer.appended c page_id (take 100 (b :: bs))) eqn:Hok.
    + destruct (Importer.append_remaining fuel c page_id (drop 100 (b :: bs)))
        as [calls' r'] eqn:Hrec.
      intros [= <- <-]. specialize (IH _ _ _ Hrec). destruct r'.
      * by constructor.
      * destruct IH as (before & refused_call & -> & Hbefore & Hrefused).
        exists (Importer.blocks_children_append page_id (take 100 (b :: bs)) :: before),
          refused_call.
        split_and!; [done|by constructor|done].
      * by constructor.
    + intros [= <- <-]. exists [], (Importer.blocks_children_append page_id
                                      (take 100 (b :: bs))).
      split_and!; [done|constructor|]. cbn [accepted]. by rewrite Hok.
Qed.

(** X16.  [create_page] stops at the first call that raises: when it
    fails, the calls it made are calls the client accepted followed by the
    one call it refused, and nothing after; when it returns the new page's
    identifier, the client accepted every call. *)
Theorem create_page_stops_at_failure (c : Importer.client)
    (title parent_id : list N) (content_blocks : list Importer.iblock)
    (cover_url : option (list N)) :
  match (Importer.create_page c title parent_id content_blocks cover_url).2 with
  | Importer.Failed =>
      ∃ before refused_call,
        (Importer.create_page c title parent_id content_blocks cover_url).1
          = before ++ [refused_call]
        ∧ Forall (accepted c) before ∧ ¬ accepted c refused_call
  | _ =>
      Forall (accepted c)
        (Importer.create_page c title parent_id content_blocks cover_url).1
  end.
Proof.
  unfold Importer.create_page.
  set (cover := match cover_url with
                | Some u => if startswith (py "http") u then Some u else None
                | None => None
                end).
  destruct (Importer.created_id c parent_id title (take 100 content_blocks) cover)
    as [page_id|] eqn:Hcreate.
  - destruct (Importer.append_remaining _ c page_id (drop 100 content_blocks))
      as [calls r] eqn:Hrec.
    apply append_remaining_calls in Hrec. cbn [fst snd].
    assert (accepted c (Importer.pages_create parent_id title
                          (take 100 content_blocks) cover)) as Hfirst
      by (cbn [accepted]; by rewrite Hcreate).
    destruct r.
    + by constructor.
    + destruct Hrec as (before & refused_call & -> & Hbefore & Hrefused).
      eexists (_ :: before), refused_call. split_and!; [done|by constructor|done].
    + by constructor.
  - cbn [fst snd]. eexists [], _. split_and!; [done|constructor|].
    cbn [accepted]. rewrite Hcreate. by intros [? ?].
Qed.

Lemma fetch_loop_error {B} (answers : list (option (chunk B))) :
  ∀ cur k merged,
    Exporter.fetch_loop answers cur k merged = Exporter.RuntimeError →
    fails_twice answers.
Proof.
  induction answers as [answers IH] using (induction_ltof1 _ length).
  unfold ltof in IH. intros cur k merged.
  destruct answers as [|[data|] rest]; cbn [Exporter.fetch_loop]; [done| |].
  - destruct (bool_decide (recordMap_block data = ∅)); [done|].
    destruct (Exporter.cursor_stops _ _); [done|].
    intros H. apply IH in H; [|cbn; lia]. by destruct rest as [|[|] ?].
  - destruct rest as [|[data|] rest]; [done| |done].
    destruct (bool_decide (recordMap_block data = ∅)); [done|].
    destruct (Exporter.cursor_stops _ _); [done|].
    intros H. apply IH in H; [|cbn; lia]. cbn [fails_twice].
    by destruct rest as [|[|] ?].
Qed.

(** X17.  [fetch_record_map] raises only after two posts in a row have
    failed: a failed [loadPageChunk] whose [loadCachedPageChunk] retry
    succeeds never makes the fetch raise [RuntimeError], at any chunk. *)
Theorem fetch_record_map_error {B} (answers : list (option (chunk B))) :
  Exporter.fetch_record_map answers = Exporter.RuntimeError →
  fails_twice answers.
Proof. apply fetch_loop_error. Qed.

Lemma fetch_record_map_error_witness :
  fails_twice [Some chunk_one; None; @None (chunk nat)].
Proof.
  apply (fetch_record_map_error [Some chunk_one; None; None]). by vm_compute.
Defined.

(** ** Indented list items (importer) *)

Lemma lstrip_spaces ws s :
  Forall (λ c, is_space c = true) ws → lstrip (ws ++ s) = lstrip s.
Proof. induction 1 as [|c ws Hc _ IH]; [done|]. cbn. by rewrite Hc. Qed.

Lemma strip_spaces ws s :
  Forall (λ c, is_space c = true) ws → strip (ws ++ s) = strip s.
Proof. intros Hws. unfold strip. by rewrite lstrip_spaces. Qed.

Lemma startswith_after_spaces (x : N) p ws y s :
  is_space x = false → x ≠ y →
  Forall (λ c, is_space c = true) ws →
  startswith (x :: p) (ws ++ y :: s) = false.
Proof.
  intros Hx Hy Hws. destruct Hws as [|c ws Hc _]; apply startswith_head; [done|].
  intros <-. congruence.
Qed.

(** X18.  The importer drops the indentation of a bulleted item: a line
    made of white space, a hyphen, a space and a text that does not end
    with white space gives the bulleted item of that text, the same block
    as without the white space, so that nested items are imported at the
    top level. *)
Theorem bulleted_indentation_dropped (fuel : nat) (h : host)
    (assets_dir : list (list N)) (ws t : list N) (c : N)
    (rest : list (list N)) :
  Forall (λ x, is_space x = true) ws →
  last t = Some c → is_space c = false →
  Importer.parse_lines (S fuel) h assets_dir ((ws ++ py "- " ++ t) :: rest)
  = rt ← Importer._rich_text t;
    blocks ← Importer.parse_lines fuel h assets_dir rest;
    Some (Importer.Bulleted rt :: blocks).
Proof.
  intros Hws Hlast Hc. cbn [Importer.parse_lines].
  rewrite (strip_spaces ws _ Hws).
  assert (strip (py "- " ++ t) = py "- " ++ t) as ->.
  { apply strip_fixed; [done|]. rewrite last_app, Hlast. done. }
  change (py "- " ++ t) with (45%N :: 32%N :: t).
  assert (startswith (py "# ") (ws ++ 45%N :: 32%N :: t) = false) as ->
    by by apply (startswith_after_spaces 35%N).
  assert (startswith (py "## ") (ws ++ 45%N :: 32%N :: t) = false) as ->
    by by apply (startswith_after_spaces 35%N).
  assert (startswith (py "### ") (ws ++ 45%N :: 32%N :: t) = false) as ->
    by by apply (startswith_after_spaces 35%N).
  assert (str_eqb (45%N :: 32%N :: t) [] = false) as ->
    by by apply bool_decide_eq_false_2.
  assert (str_eqb (45%N :: 32%N :: t) (py "---") = false) as ->.
  { apply bool_decide_eq_false_2. by intros [=]. }
  change (startswith (py "- ") (45%N :: 32%N :: t)) with true.
  done.
Qed.

Lemma bulleted_indentation_dropped_witness :
  Importer.parse_lines 2 ascii_host [] [py "    " ++ py "- " ++ py "nested"; []]
  = Some [Importer.Bulleted [Importer.Segment (py "nested") None None]].
Proof.
  rewrite (bulleted_indentation_dropped 1 ascii_host [] (py "    ") (py "nested")
             100%N [[]]); [by vm_compute| |done..].
  by repeat constructor.
Defined.

(** ** Reading a page back: cover, title and body *)

Lemma lstrip_split s :
  ∃ ws, s = ws ++ lstrip s ∧ Forall (λ c, is_space c = true) ws.
Proof.
  induction s as [|c s (ws & Hs & Hws)]; [by exists []|].
  cbn. destruct (is_space c) eqn:Hc.
  - exists (c :: ws). split; [cbn; congruence|by constructor].
  - by exists [].
Qed.

Lemma lstrip_lstrip s : lstrip (lstrip s) = lstrip s.
Proof.
  apply lstrip_fixed. destruct (lstrip s) as [|c t] eqn:Hs; [done|].
  by apply lstrip_head in Hs.
Qed.

Lemma take_line_line t rest : 10%N ∉ t → Importer.take_line (t ++ 10%N :: rest) = t.
Proof.
  induction t as [|c t IH]; intros Ht; cbn; [done|].
  apply not_elem_of_cons in Ht as [Hc Ht].
  destruct (N.eqb_spec c 10) as [->|_]; [done|]. by rewrite IH.
Qed.

Lemma white_space_run ws c x :
  Forall (λ c, is_space c = true) ws → is_space c = false →
  length (ws ++ c :: x) - length (lstrip (ws ++ c :: x)) = length ws.
Proof.
  intros Hws Hc. rewrite lstrip_spaces by done. cbn [lstrip]. rewrite Hc.
  rewrite length_app. lia.
Qed.

Lemma match_title_heading ws c t rest :
  Forall (λ c, is_space c = true) ws → ws ≠ [] → is_space c = false →
  10%N ∉ c :: t →
  Importer.match_title (py "#" ++ ws ++ (c :: t) ++ 10%N :: rest) = Some (c :: t).
Proof.
  intros Hws Hne Hc Ht. unfold Importer.match_title.
  rewrite strip_prefix_app. cbn [mbind option_bind].
  change ((c :: t) ++ 10%N :: rest) with (c :: t ++ 10%N :: rest).
  rewrite white_space_run by done.
  destruct ws as [|w ws]; [done|]. cbn [length Importer.give_back].
  change (S (length ws)) with (length (w :: ws)).
  rewrite drop_app_length.
  change (c :: t ++ 10%N :: rest) with ((c :: t) ++ 10%N :: rest).
  by rewrite take_line_line.
Qed.

Lemma remove_title_heading ws c t rest :
  Forall (λ c, is_space c = true) ws → ws ≠ [] → is_space c = false →
  10%N ∉ c :: t →
  Importer.remove_title (py "#" ++ ws ++ (c :: t) ++ 10%N :: rest)
  = lstrip_char 10 rest.
Proof.
  intros Hws Hne Hc Ht. unfold Importer.remove_title.
  rewrite strip_prefix_app. cbn [mbind option_bind].
  change ((c :: t) ++ 10%N :: rest) with (c :: t ++ 10%N :: rest).
  rewrite white_space_run by done.
  destruct ws as [|w ws]; [done|]. cbn [length Importer.give_back].
  change (S (length ws)) with (length (w :: ws)).
  rewrite drop_app_length.
  change (c :: t ++ 10%N :: rest) with ((c :: t) ++ 10%N :: rest).
  rewrite take_line_line by done.
  change (S (length t)) with (length (c :: t)).
  rewrite <- length_app, (app_assoc (w :: ws)), drop_app_length. done.
Qed.

Lemma match_cover_line u rest :
  u ≠ [] → 41%N ∉ u →
  Importer.match_cover (py "![cover](" ++ u ++ py ")" ++ rest) = Some (u, lstrip rest).
Proof.
  intros Hu Hparen. unfold Importer.match_cover.
  rewrite strip_prefix_app. cbn [mbind option_bind]. unfold Importer.run_not.
  change (py ")" ++ rest) with (41%N :: rest). rewrite span_not_sep by done.
  by destruct u.
Qed.

(** A title that is not blank: the white space before its first
    character, and the rest. *)
Lemma title_split title :
  strip title ≠ [] →
  ∃ ws c t, title = ws ++ c :: t ∧ Forall (λ c, is_space c = true) ws
            ∧ is_space c = false ∧ strip (c :: t) = strip title.
Proof.
  intros Hne. destruct (lstrip_split title) as (ws & Hs & Hws).
  destruct (lstrip title) as [|c t] eqn:Ht.
  { exfalso. apply Hne. unfold strip. by rewrite Ht. }
  exists ws, c, t. split_and!; [done..|by eapply lstrip_head|].
  unfold strip. by rewrite <- Ht, lstrip_lstrip.
Qed.

Lemma read_page_header default_title cover title body :
  (∀ u, cover = Some u → u ≠ [] ∧ 41%N ∉ u) →
  10%N ∉ title → strip title ≠ [] →
  Importer.read_page default_title
    (cover_text cover ++ py "# " ++ title ++ nl ++ nl ++ body)
  = (cover, strip title, lstrip_char 10 body).
Proof.
  intros Hcover Hline Hblank.
  destruct (title_split title Hblank) as (ws & c & t & -> & Hws & Hc & <-).
  assert (10%N ∉ c :: t) as Hline'.
  { intros H. apply Hline, elem_of_app. by right. }
  set (heading := py "# " ++ (ws ++ c :: t) ++ nl ++ nl ++ body).
  assert (heading = py "#" ++ (32%N :: ws) ++ (c :: t) ++ 10%N :: 10%N :: body)
    as Hheading.
  { unfold heading. by rewrite <- !app_assoc. }
  assert (∀ cv : option (list N),
            match Importer.match_title heading with
            | Some t => (cv, strip t, Importer.remove_title heading)
            | None => (cv, default_title, heading)
            end = (cv, strip (c :: t), lstrip_char 10 body)) as Hread.
  { intros cv. rewrite Hheading.
    rewrite match_title_heading, remove_title_heading;
      [|by constructor|done|done|done|by constructor|done|done|done].
    done. }
  unfold Importer.read_page. destruct cover as [u|].
  - destruct (Hcover u eq_refl) as [Hu Hparen].
    unfold cover_text. rewrite <- !app_assoc.
    fold heading. rewrite match_cover_line by done.
    assert (lstrip (nl ++ nl ++ heading) = heading) as -> by done.
    apply Hread.
  - assert (Importer.match_cover (cover_text None ++ heading) = None) as -> by done.
    apply Hread.
Qed.

Lemma cover_line_address net page_id space_id page_block u :
  Exporter.cover_line net page_id space_id page_block = cover_text (Some u) → u ≠ [].
Proof.
  unfold Exporter.cover_line, cover_text.
  destruct (f_page_cover page_block) as [[|c cs]|]; [done| |done].
  intros H%app_inv_head%app_inv_tail. subst u.
  destruct (startswith (py "attachment:") (c :: cs)); [done|].
  by destruct (startswith (py "http") (c :: cs)).
Qed.

(** X19.  The importer reads back the header [_export_page] writes: for a
    page whose title has no line feed and is not blank and whose cover
    address, if any, has no closing parenthesis, the text the exporter
    writes (cover line, title heading, blank line, body) gives the importer
    the cover address, the title with the white space at its ends removed,
    and the body without its leading line feeds. *)
Theorem exported_header_read_back (net : remote) (page_id : list N)
    (page_block : block) (default_title body : list N)
    (cover : option (list N)) :
  Exporter.cover_line net page_id (b_space_id page_block) page_block
  = cover_text cover →
  (∀ u, cover = Some u → 41%N ∉ u) →
  10%N ∉ page_title page_block →
  strip (page_title page_block) ≠ [] →
  Importer.read_page default_title
    (Exporter.cover_line net page_id (b_space_id page_block) page_block
     ++ py "# " ++ page_title page_block ++ nl ++ nl ++ body)
  = (cover, strip (page_title page_block), lstrip_char 10 body).
Proof.
  intros Hcover Hparen Hline Hblank. rewrite Hcover.
  apply read_page_header; [|done..].
  intros u ->. split; [by eapply cover_line_address|by apply Hparen].
Qed.

Lemma exported_header_read_back_witness :
  Importer.read_page (py "Index")
    (Exporter.cover_line offline (py "r") None covered_page
     ++ py "# " ++ page_title covered_page ++ nl ++ nl ++ nl ++ py "text" ++ nl)
  = (Some (py "https://www.notion.so/images/page-cover/woodcuts_1.jpg"),
     py "Field notes", py "text" ++ nl).
Proof.
  apply (exported_header_read_back offline (py "r") covered_page (py "Index")
           (nl ++ py "text" ++ nl)
           (Some (py "https://www.notion.so/images/page-cover/woodcuts_1.jpg")));
    [done| |by apply notin_literal|by vm_compute].
  intros u [= <-]. by apply notin_literal.
Defined.

(** ** A page of simple blocks, exported and imported *)

Lemma lstrip_char_split x s : ∃ k, s = replicate k x ++ lstrip_char x s.
Proof.
  induction s as [|c s [k Hs]]; [by exists 0|]. cbn.
  destruct (N.eqb_spec c x) as [->|_]; [|by exists 0].
  exists (S k). cbn. congruence.
Qed.

Lemma split_leading k s :
  split 10 (replicate k 10%N ++ s) = replicate k [] ++ split 10 s.
Proof. induction k as [|k IH]; [done|]. cbn. by rewrite IH. Qed.

Lemma parse_blanks h assets_dir k fuel lines :
  Importer.parse_lines (k + fuel) h assets_dir (replicate k [] ++ lines)
  = Importer.parse_lines fuel h assets_dir lines.
Proof.
  induction k as [|k IH]; [done|].
  cbn [replicate app Nat.add]. by rewrite parse_blank.
Qed.

Lemma _parse_markdown_leading h assets_dir md :
  Importer._parse_markdown (S (length (lstrip_char 10 md))) h (lstrip_char 10 md)
    assets_dir
  = Importer._parse_markdown (S (length md)) h md assets_dir.
Proof.
  destruct (lstrip_char_split 10%N md) as [k Hmd].
  rewrite Hmd at 3 4. unfold Importer._parse_markdown.
  rewrite split_leading, length_app, length_replicate.
  replace (S (k + length (lstrip_char 10 md)))
    with (k + S (length (lstrip_char 10 md))) by lia.
  by rewrite parse_blanks.
Qed.

(** X20.  A page of simple blocks goes through export and import: when the
    children of a page block are simple blocks (as for the round trip of
    the body), its title has no line feed and is not blank and its cover
    address has no closing parenthesis, the text [_export_page] writes for
    the page makes [import_single_page] create one page with the title
    (white space at its ends removed), the cover address and the same
    blocks in the same order. *)
Theorem export_import_simple_page (net : remote)
    (cache : gmap (list N) (list N)) (blocks : gmap (list N) block) (h : host)
    (title_case : list N → list N) (c : Importer.client)
    (parent_page_id stem page_id : list N) (page_dir import_dir : list (list N))
    (page_block : block) (fuel : nat) (ks : list simple)
    (cover : option (list N)) :
  ascii_digits h →
  Forall2 (λ id k, ∃ b, blocks !! id = Some b ∧ is_simple b k ∧ simple_ok k)
    (b_content page_block) ks →
  separated ks →
  Exporter.cover_line net page_id (b_space_id page_block) page_block
  = cover_text cover →
  (∀ u, cover = Some u → 41%N ∉ u) →
  10%N ∉ page_title page_block →
  strip (page_title page_block) ≠ [] →
  ∃ body,
    Exporter.render_each
      (λ cid, Exporter._render_block (S fuel) net cache blocks cid 0 page_dir
                (b_space_id page_block)) (b_content page_block)
    = Some body
    ∧ Importer.import_single_page h title_case c parent_page_id stem import_dir
        (Exporter.cover_line net page_id (b_space_id page_block) page_block
         ++ py "# " ++ page_title page_block ++ nl ++ nl ++ body)
      = Some (Importer.create_page c (strip (page_title page_block))
                parent_page_id (simple_iblock h <$> ks) cover).
Proof.
  intros Hh Hall Hsep Hcover Hparen Hline Hblank.
  exists (concat (simple_markdown <$> ks)).
  split; [by apply render_simple_each|].
  unfold Importer.import_single_page. rewrite Hcover.
  rewrite read_page_header; [|
    intros u ->; split; [by eapply cover_line_address|by apply Hparen]|done..].
  rewrite _parse_markdown_leading, import_of_simple_markdown; [done..| |done|done].
  clear Hsep. induction Hall as [|id k ids ks' (b & _ & _ & Hk) _ IH];
    by constructor.
Qed.

Lemma export_import_simple_page_witness :
  ∃ body,
    Exporter.render_each
      (λ cid, Exporter._render_block 1 offline ∅ sample_body cid 0 [] None)
      (b_content covered_page)
    = Some body
    ∧ Importer.import_single_page ascii_host id naming_client (py "parent")
        (py "index") []
        (Exporter.cover_line offline (py "r") None covered_page
         ++ py "# " ++ page_title covered_page ++ nl ++ nl ++ body)
      = Some (Importer.create_page naming_client (py "Field notes") (py "parent")
                (simple_iblock ascii_host <$> sample_kinds)
                (Some (py "https://www.notion.so/images/page-cover/woodcuts_1.jpg"))).
Proof.
  apply (export_import_simple_page offline ∅ sample_body ascii_host id
           naming_client (py "parent") (py "index") (py "r") [] [] covered_page 0
           sample_kinds
           (Some (py "https://www.notion.so/images/page-cover/woodcuts_1.jpg"))).
  - by intros c Hc.
  - repeat first [apply List.Forall2_nil | apply List.Forall2_cons];
      (eexists; split; [by vm_compute|]);
      (split; [by repeat split; repeat constructor|]);
      unfold simple_ok, line_ok, paragraph_start, trimmed; compute_done.
  - exact I.
  - done.
  - intros u [= <-]. by apply notin_literal.
  - by apply notin_literal.
  - by vm_compute.
Defined.

(** ** Importing a directory *)

Lemma insert_by_depth_perm {A} (x : list (list N) * A) l :
  Importer.insert_by_depth x l ≡ₚ x :: l.
Proof.
  induction l as [|y l IH]; [done|]. cbn.
  destruct (length x.1 <=? length y.1); [done|].
  rewrite IH. apply Permutation_swap.
Qed.

Lemma sort_by_depth_perm {A} (pages : list (list (list N) * A)) :
  Importer.sort_by_depth pages ≡ₚ pages.
Proof.
  induction pages as [|x pages IH]; [done|].
  cbn. rewrite insert_by_depth_perm. by rewrite IH.
Qed.

Lemma insert_by_depth_sorted {A} (x : list (list N) * A) l :
  StronglySorted depth_le l → StronglySorted depth_le (Importer.insert_by_depth x l).
Proof.
  induction 1 as [|y l Hl IH Hy]; cbn; [by repeat constructor|].
  destruct (Nat.leb_spec (length x.1) (length y.1)) as [Hle|Hgt].
  - constructor; [by constructor|]. constructor; [done|].
    eapply Forall_impl; [exact Hy|]. unfold depth_le. intros z Hz. lia.
  - constructor; [done|]. rewrite insert_by_depth_perm.
    constructor; [unfold depth_le; lia|done].
Qed.

Lemma sort_by_depth_sorted {A} (pages : list (list (list N) * A)) :
  StronglySorted depth_le (Importer.sort_by_depth pages).
Proof.
  induction pages as [|x pages IH]; [constructor|].
  by apply insert_by_depth_sorted.
Qed.

Lemma import_page_returns h title_case c parent_page_id input_dir created page :
  ∃ parent_id title blocks cover_url,
    Importer.import_page h title_case c parent_page_id input_dir created page
    = Some (match (Importer.create_page c title parent_id blocks cover_url).2 with
            | Importer.Created page_id => <[page.1 := page_id]> created
            | _ => created
            end,
            Importer.create_page c title parent_id blocks cover_url)
    ∧ parent_id = match page.1 with
                  | [] => parent_page_id
                  | _ => default parent_page_id (created !! parent_path page.1)
                  end.
Proof.
  destruct page as [rel_path content]. unfold Importer.import_page.
  destruct (Importer.read_page _ content) as [[cover_url title] content'].
  destruct (parse_lines_returns h (input_dir ++ rel_path ++ [py "assets"])
              (S (length content')) (split 10 content')) as [blocks Hblocks].
  { by rewrite weight_split. }
  unfold Importer._parse_markdown. rewrite <- (app_assoc input_dir) .
  rewrite Hblocks. cbn [mbind option_bind].
  exists (match rel_path with
          | [] => parent_page_id
          | _ => default parent_page_id (created !! parent_path rel_path)
          end), title, blocks, cover_url.
  split; [|done]. unfold parent_path. cbn [fst snd].
  destruct (Importer.create_page c title _ blocks cover_url) as [calls r].
  destruct r; reflexivity.
Qed.

Lemma create_page_attached c title parent_id blocks cover_url :
  attached_to (Importer.create_page c title parent_id blocks cover_url)
  = Some parent_id.
Proof.
  unfold attached_to, Importer.create_page.
  destruct (Importer.created_id c parent_id title _ _); [|done].
  by destruct (Importer.append_remaining _ c _ _).
Qed.

Lemma import_pages_returns h title_case c parent_page_id input_dir :
  ∀ pages created,
    ∃ results,
      Importer.import_pages h title_case c parent_page_id input_dir created pages
      = Some results
      ∧ results.*1 = pages.*1.
Proof.
  induction pages as [|page pages IH]; intros created; [by exists []|].
  cbn [Importer.import_pages].
  destruct (import_page_returns h title_case c parent_page_id input_dir created page)
    as (parent_id & title & blocks & cover_url & -> & _).
  cbn [mbind option_bind].
  edestruct IH as (results & -> & Hpaths).
  eexists. split; [done|]. cbn. by rewrite Hpaths.
Qed.

Lemma parent_path_length rel_path :
  rel_path ≠ [] → length (parent_path rel_path) < length rel_path.
Proof.
  intros Hne. unfold parent_path. rewrite length_take.
  destruct rel_path; [done|]. cbn. lia.
Qed.

(** The invariant of the loop: every page is attached to what the final
    results say of its parent directory, or to what [created_pages] held
    for it at the start. *)
Lemma import_pages_attached h title_case c parent_page_id input_dir :
  ∀ pages created results,
    Importer.import_pages h title_case c parent_page_id input_dir created pages
    = Some results →
    StronglySorted depth_le pages → NoDup pages.*1 →
    ∀ rel_path result,
      (rel_path, result) ∈ results →
      ∃ parent_id,
        attached_to result = Some parent_id
        ∧ match rel_path with
          | [] => parent_id = parent_page_id
          | _ =>
              (∀ page_id, created_as results (parent_path rel_path) page_id →
                          parent_id = page_id)
              ∧ ((∀ page_id, ¬ created_as results (parent_path rel_path) page_id) →
                 parent_id = default parent_page_id (created !! parent_path rel_path))
          end.
Proof.
  induction pages as [|page pages IH]; intros created results.
  { intros [= <-] _ _ ? ? ?%elem_of_nil. done. }
  cbn [Importer.import_pages].
  destruct (import_page_returns h title_case c parent_page_id input_dir created page)
    as (parent_id & title & blocks & cover_url & -> & Hparent).
  cbn [mbind option_bind].
  set (result0 := Importer.create_page c title parent_id blocks cover_url) in *.
  set (created' := match result0.2 with
                   | Importer.Created page_id => <[page.1 := page_id]> created
                   | _ => created
                   end).
  destruct (import_pages_returns h title_case c parent_page_id input_dir pages created')
    as (results' & Hresults & Hpaths).
  rewrite Hresults. cbn [mbind option_bind]. intros [= <-] Hsorted Hdup.
  apply StronglySorted_inv in Hsorted as [Hsorted Hdepth].
  cbn [fmap list_fmap] in Hdup. apply NoDup_cons in Hdup as [Hfresh Hdup].
  rewrite <- Hpaths in Hfresh.
  intros rel_path result [[= -> ->]|Hin]%elem_of_cons.
  - (* the page at hand: its parent directory is not among the later ones *)
    exists parent_id. split; [apply create_page_attached|].
    destruct page.1 as [|d ds] eqn:Hpath; [done|].
    assert (∀ page_id, ¬ created_as ((d :: ds, result0) :: results')
                         (parent_path (d :: ds)) page_id) as Hnone.
    { intros page_id [calls [Heq|Hin]%elem_of_cons].
      - injection Heq as Heq _.
        pose proof (parent_path_length (d :: ds)) as Hlen.
        rewrite Heq in Hlen. specialize (Hlen ltac:(done)). lia.
      - assert (parent_path (d :: ds) ∈ pages.*1) as Hparent_in.
        { rewrite <- Hpaths. apply list_elem_of_fmap. by eexists (_, _). }
        apply list_elem_of_fmap in Hparent_in as (page' & Hpage' & Hin').
        rewrite Forall_forall in Hdepth. specialize (Hdepth _ Hin').
        unfold depth_le in Hdepth. rewrite Hpath, <- Hpage' in Hdepth.
        pose proof (parent_path_length (d :: ds) ltac:(done)). lia. }
    split; [intros page_id Hc; by destruct (Hnone page_id)|done].
  - destruct (IH created' results' Hresults Hsorted Hdup rel_path result Hin)
      as (parent & Hattached & Hrest).
    exists parent. split; [done|]. destruct rel_path as [|d ds]; [done|].
    destruct Hrest as [Hcreated Hmissing]. split.
    + intros page_id [calls [Heq|Hin']%elem_of_cons].
      * (* the parent is the page at hand *)
        injection Heq as Heq Hres.
        rewrite Hmissing.
        -- unfold created'. rewrite <- Hres. cbn [snd].
           rewrite Heq, lookup_insert_eq. reflexivity.
        -- intros page_id' [calls' Hin']. apply Hfresh. rewrite <- Heq.
           apply list_elem_of_fmap.
           by exists (parent_path (d :: ds), (calls', Importer.Created page_id')).
      * apply Hcreated. by exists calls.
    + intros Hnone. rewrite Hmissing.
      * unfold created'. destruct result0 as [calls0 r0] eqn:Hr0. cbn [snd].
        destruct r0 as [page_id| |]; [|done..].
        rewrite lookup_insert_ne; [done|]. intros Heq.
        apply (Hnone page_id). exists calls0. rewrite <- Heq. apply elem_of_cons.
        by left.
      * intros page_id [calls Hin']. apply (Hnone page_id). exists calls.
        apply elem_of_cons. by right.
Qed.

Lemma sorted_paths {A} (pages : list (list (list N) * A)) :
  StronglySorted depth_le pages →
  StronglySorted (λ p q : list (list N), length p ≤ length q) pages.*1.
Proof.
  induction 1 as [|x l _ IH Hx]; cbn; constructor; [done|].
  apply Forall_fmap. eapply Forall_impl; [exact Hx|]. done.
Qed.

(** X21.  [import_directory] goes through the whole directory, also when
    creations fail: it returns for every set of pages and every answer of
    the client, with one creation attempted for each page found, a page of
    a directory never before a page of a directory above it (the attempts
    are in order of depth). *)
Theorem import_directory_attempts (h : host) (title_case : list N → list N)
    (c : Importer.client) (parent_page_id : list N) (input_dir : list (list N))
    (pages : list (list (list N) * list N)) :
  ∃ results,
    Importer.import_directory h title_case c parent_page_id input_dir pages
    = Some results
    ∧ results.*1 ≡ₚ pages.*1
    ∧ StronglySorted (λ p q : list (list N), length p ≤ length q) results.*1.
Proof.
  unfold Importer.import_directory.
  destruct (import_pages_returns h title_case c parent_page_id input_dir
              (Importer.sort_by_depth pages) ∅) as (results & Hrun & Hpaths).
  exists results. rewrite Hpaths. split_and!; [done| |].
  - by rewrite sort_by_depth_perm.
  - apply sorted_paths, sort_by_depth_sorted.
Qed.

(** X22.  [import_directory] rebuilds the hierarchy of the directories:
    when no directory holds two pages, the page of the input directory
    itself is created under the parent page of the import, and the page of
    any other directory under the page created for the directory above it,
    or under the parent page of the import when no page was created for
    that directory (it holds no page, or its creation failed). *)
Theorem import_directory_parents (h : host) (title_case : list N → list N)
    (c : Importer.client) (parent_page_id : list N) (input_dir : list (list N))
    (pages : list (list (list N) * list N))
    (results : list (list (list N) * (list Importer.api_call * Importer.outcome))) :
  NoDup pages.*1 →
  Importer.import_directory h title_case c parent_page_id input_dir pages
  = Some results →
  ∀ rel_path result,
    (rel_path, result) ∈ results →
    ∃ parent_id,
      attached_to result = Some parent_id
      ∧ match rel_path with
        | [] => parent_id = parent_page_id
        | _ =>
            (∀ page_id, created_as results (parent_path rel_path) page_id →
                        parent_id = page_id)
            ∧ ((∀ page_id, ¬ created_as results (parent_path rel_path) page_id) →
               parent_id = parent_page_id)
        end.
Proof.
  intros Hdup Hrun rel_path result Hin. unfold Importer.import_directory in Hrun.
  destruct (import_pages_attached h title_case c parent_page_id input_dir
              (Importer.sort_by_depth pages) ∅ results Hrun
              (sort_by_depth_sorted pages)) with (rel_path := rel_path)
              (result := result) as (parent_id & Hattached & Hparent); [|done|].
  { by rewrite sort_by_depth_perm. }
  exists parent_id. split; [done|]. by destruct rel_path.
Qed.

Lemma import_directory_parents_witness :
  ∃ results result,
    Importer.import_directory ascii_host id naming_client (py "root")
      [py "export"] sample_tree = Some results
    ∧ ([py "home"; py "notes"; py "deep"], result) ∈ results
    ∧ attached_to result = Some (py "Notes").
Proof.
  destruct (Importer.import_directory ascii_host id naming_client (py "root")
              [py "export"] sample_tree) as [results|] eqn:Hrun;
    [|by vm_compute in Hrun].
  assert (NoDup sample_tree.*1) as Hdup.
  { apply (bool_decide_unpack _). by vm_compute. }
  pose proof (import_directory_parents ascii_host id naming_client (py "root")
                [py "export"] sample_tree results Hdup Hrun) as Hparents.
  vm_compute in Hrun. injection Hrun as <-.
  edestruct (Hparents [py "home"; py "notes"; py "deep"])
    as (parent_id & Hattached & Hcreated & _).
  { do 2 apply list_elem_of_further. apply list_elem_of_here. }
  eexists _, _. split; [done|]. split.
  { do 2 apply list_elem_of_further. apply list_elem_of_here. }
  rewrite Hattached. f_equal. apply Hcreated. eexists.
  apply list_elem_of_further, list_elem_of_here.
Defined.
